(** * BCA Mutation Checker: the check orchestration engine

    A shallow embedding of the TypeScript sources

    - [src/rotation]   BrowserPool, UserAgentRotator, ProxyRotator
    - [src/error]      ErrorHandler
    - [src/webhook]    WebhookClient
    - [src/session]    SessionManager (logout, closeSession)
    - [src/scheduler]  Scheduler

    Pure code (the rotation pools, the error classifier) is embedded as
    functions on explicit state.  Asynchronous code ([async] methods with
    [await], [try]/[catch]/[finally], timers) is embedded in a small
    free monad [Prog] whose nodes are the synchronous accesses to the
    scheduler object and the suspension points; an event loop
    ([Machine]) gives it the run-to-completion semantics of the
    JavaScript runtime. *)

From stdpp Require Import gmap strings list.
From Stdlib Require Import NArith Ascii DecimalString Permutation Lia.

Local Open Scope N_scope.
Local Open Scope nat_scope.

(** ** JavaScript strings and numbers

    Strings are byte strings; [toLowerCase] folds the ASCII letters,
    which is what [String.prototype.toLowerCase] does on ASCII text. *)

Definition toLowerCase_char (c : ascii) : ascii :=
  let n := N_of_ascii c in
  if ((65 <=? n) && (n <=? 90))%N then ascii_of_N (n + 32) else c.

Fixpoint toLowerCase (s : string) : string :=
  match s with
  | EmptyString => EmptyString
  | String c s' => String (toLowerCase_char c) (toLowerCase s')
  end.

(** [s.includes(sub)] *)
Fixpoint includes (s sub : string) : bool :=
  if String.prefix sub s then true
  else match s with
       | EmptyString => false
       | String _ s' => includes s' sub
       end.

(** [`${n}`] for a non-negative integer [n] *)
Definition decimal (n : N) : string := NilZero.string_of_uint (N.to_uint n).

(** [a || b] on optional numbers: [undefined] and [0] are falsy. *)
Definition or_number (a : option N) (b : N) : N :=
  match a with
  | Some n => if (n =? 0)%N then b else n
  | None => b
  end.

(** [a || b] on optional strings: [undefined] and [""] are falsy. *)
Definition or_string (a : option string) (b : string) : string :=
  match a with
  | Some s => if String.eqb s "" then b else s
  | None => b
  end.

(** A JavaScript [Error] object. *)
Record Error := mkError { name : string; message : string }.

(** [new Error(message)] *)
Definition newError (message : string) : Error := mkError "Error" message.

(** ** src/types/config.ts *)

Inductive BrowserType := chromium | chrome | edge | brave.

Module Credentials.
Record t := mk { username : string; password : string }.
End Credentials.

Module ProxyConfig.
Record t := mk {
    server : string;
    username : option string;
    password : option string }.
End ProxyConfig.

Module ProxySettings.
Record t := mk { enabled : bool; servers : list ProxyConfig.t }.
End ProxySettings.

Module WebhookSettings.
Record t := mk { url : string; retryAttempts : option N }.
End WebhookSettings.

Module Config.
Record t := mk {
    credentials : Credentials.t;
    interval : N;
    browsers : list BrowserType;
    userAgents : option (list string);
    proxy : option ProxySettings.t;
    webhook : option WebhookSettings.t }.
End Config.

(** Errors thrown by constructors.  The interval message interpolates
    [minInterval / 60000], a floating-point quotient; the thrown errors
    are kept as a tagged type. *)
Inductive ConstructionError :=
| IntervalBelowMinimum (minInterval : N)
    (* Error(`Interval must be at least ${minInterval}ms (...)`) *)
| EmptyBrowserPool.
    (* Error("Browser pool must have at least one browser") *)

(** ** src/config/defaults.ts *)

Definition chromeUA : string :=
  "Mozilla/5.0 (Windows NT 10.0; Win64; x64) AppleWebKit/537.36 (KHTML, like Gecko) Chrome/120.0.0.0 Safari/537.36".

Definition DEFAULT_USER_AGENTS (b : BrowserType) : list string :=
  match b with
  | chromium => [chromeUA]
  | chrome => [chromeUA]
  | edge => [chromeUA +:+ " Edg/120.0.0.0"]
  | brave => [chromeUA]
  end.

(** ** src/rotation/browser-pool.ts *)

Module BrowserPool.
Record t := mk { browsers : list BrowserType; currentIndex : nat }.

Definition constructor (browsers : list BrowserType) : ConstructionError + t :=
  if length browsers =? 0 then inl EmptyBrowserPool
  else inr (mk browsers 0).

(** [this.browsers[this.currentIndex]] is [undefined] ([None]) out of
    range. *)
Definition getNextBrowser (p : t) : option BrowserType * t :=
  let browser := browsers p !! currentIndex p in
  (browser, mk (browsers p) ((currentIndex p + 1) mod length (browsers p))).

Definition getCurrentIndex (p : t) : nat := currentIndex p.
Definition reset (p : t) : t := mk (browsers p) 0.
Definition getBrowsers (p : t) : list BrowserType := browsers p.
Definition size (p : t) : nat := length (browsers p).
End BrowserPool.

(** ** src/rotation/user-agent-rotator.ts *)

Module UserAgentRotator.
Record t := mk { userAgents : list string; currentIndex : nat }.

Definition constructor (userAgents : option (list string)) : t :=
  match userAgents with
  | Some l => if 0 <? length l then mk l 0 else mk [] 0
  | None => mk [] 0
  end.

(** [browserType] is [None] when the caller passes [undefined]. *)
Definition getDefaultUserAgent (browserType : option BrowserType) : option string :=
  match DEFAULT_USER_AGENTS <$> browserType with
  | Some (ua :: _) => Some ua
  | _ => DEFAULT_USER_AGENTS chromium !! 0
  end.

Definition getNextUserAgent (browserType : option BrowserType) (r : t)
  : option string * t :=
  if 0 <? length (userAgents r) then
    let userAgent := userAgents r !! currentIndex r in
    (userAgent,
     mk (userAgents r) ((currentIndex r + 1) mod length (userAgents r)))
  else (getDefaultUserAgent browserType, r).

Definition matchesBrowserType (userAgent : string) (browserType : BrowserType) : bool :=
  let lowerUA := toLowerCase userAgent in
  match browserType with
  | chrome => includes lowerUA "chrome" && negb (includes lowerUA "edg")
  | edge => includes lowerUA "edg"
  | brave => includes lowerUA "chrome"
  | chromium => includes lowerUA "chrome"
  end.

Definition reset (r : t) : t := mk (userAgents r) 0.
Definition size (r : t) : nat := length (userAgents r).
Definition hasCustomUserAgents (r : t) : bool := 0 <? length (userAgents r).
End UserAgentRotator.

(** ** src/rotation/proxy-rotator.ts *)

Module ProxyRotator.
Record t := mk {
  proxies : list ProxyConfig.t;
  currentIndex : nat;
  failedProxies : gset string }.

Definition constructor (proxies : list ProxyConfig.t) : t := mk proxies 0 ∅.

(** [`${proxy.server}:${proxy.username || ""}`] *)
Definition getProxyKey (proxy : ProxyConfig.t) : string :=
  ProxyConfig.server proxy +:+ ":" +:+ or_string (ProxyConfig.username proxy) "".

Definition has (failed : gset string) (key : string) : bool :=
  bool_decide (key ∈ failed).

(** The [while (attempts < this.proxies.length)] loop, [remaining]
    being [this.proxies.length - attempts].  A rotator built by
    [constructor] keeps its cursor a valid index ([cursor_ok],
    [exec_cursor_ok]); were it not, the element would be [undefined]
    and [getProxyKey] would raise. *)
Fixpoint scan (remaining : nat) (r : t) : option ProxyConfig.t * t :=
  match remaining with
  | 0 => (None, r)
  | S remaining' =>
      let proxy := proxies r !! currentIndex r in
      let r' := mk (proxies r)
                   ((currentIndex r + 1) mod length (proxies r))
                   (failedProxies r) in
      match proxy with
      | Some proxy =>
          if negb (has (failedProxies r) (getProxyKey proxy))
          then (Some proxy, r')
          else scan remaining' r'
      | None => (None, r')
      end
  end.

Definition getNextProxy (r : t) : option ProxyConfig.t * t :=
  if length (proxies r) =? 0 then (None, r)
  else
    let availableProxies :=
      filter (λ proxy, negb (has (failedProxies r) (getProxyKey proxy)) = true)
             (proxies r) in
    if length availableProxies =? 0 then (None, r)
    else scan (length (proxies r)) r.

Definition markProxyFailed (proxy : ProxyConfig.t) (r : t) : t :=
  mk (proxies r) (currentIndex r) ({[ getProxyKey proxy ]} ∪ failedProxies r).

Definition resetFailures (r : t) : t := mk (proxies r) (currentIndex r) ∅.
Definition reset (r : t) : t := mk (proxies r) 0 (failedProxies r).
Definition size (r : t) : nat := length (proxies r).

Definition availableCount (r : t) : nat :=
  length (filter (λ proxy, negb (has (failedProxies r) (getProxyKey proxy)) = true)
                 (proxies r)).

Definition isProxyFailed (proxy : ProxyConfig.t) (r : t) : bool :=
  has (failedProxies r) (getProxyKey proxy).

(** The calls a client can make on a rotator, for statements about
    call sequences. *)
Inductive call :=
| GetNextProxy
| MarkProxyFailed (proxy : ProxyConfig.t)
| ResetFailures
| Reset.

(** One call: the new state and, for [getNextProxy], what it returned. *)
Definition exec (c : call) (r : t) : option (option ProxyConfig.t) * t :=
  match c with
  | GetNextProxy => let '(p, r') := getNextProxy r in (Some p, r')
  | MarkProxyFailed proxy => (None, markProxyFailed proxy r)
  | ResetFailures => (None, resetFailures r)
  | Reset => (None, reset r)
  end.

(** A call sequence: the proxies handed out (the non-null results of
    [getNextProxy]) and the final state. *)
Fixpoint run (cs : list call) (r : t) : list ProxyConfig.t * t :=
  match cs with
  | [] => ([], r)
  | c :: cs' =>
      let '(o, r1) := exec c r in
      let '(out, r2) := run cs' r1 in
      (match o with Some (Some p) => p :: out | _ => out end, r2)
  end.
End ProxyRotator.

(** [k] successive calls of a selection method: the values returned, in
    order, and the final state. *)
Fixpoint consecutive {S A : Type} (next : S → A * S) (k : nat) (s : S) : list A * S :=
  match k with
  | 0 => ([], s)
  | S k' =>
      let '(x, s1) := next s in
      let '(xs, s2) := consecutive next k' s1 in
      (x :: xs, s2)
  end.

(** The value returned by call number [k] (0-indexed) from state [s]. *)
Definition nth_call {S A : Type} (next : S → A * S) (k : nat) (s : S) : A :=
  fst (next (snd (consecutive next k s))).

(** ** src/error/types.ts *)

Module ErrorCategory.
Inductive t := Authentication | Network | Browser | Parsing | Webhook | Config.
End ErrorCategory.

(** [ErrorAction]; [delay] is in milliseconds. *)
Inductive ErrorAction :=
| retry (delay : N)
| skip
| fallback (alternative : string)
| fatal (exitCode : N).

Module ErrorContext.
Record t := mk {
  operation : string;
  attempt : N;
  maxAttempts : N;
  timestamp : N }.
End ErrorContext.

(** *** The classifier as an ordered table

    A rule is a category with its markers; the first rule with a marker
    that matches wins. *)

Inductive marker :=
| Has (s : string)           (* message.includes(s) *)
| HasBoth (a b : string)     (* message.includes(a) && message.includes(b) *)
| NameHas (s : string).      (* name.includes(s) *)

Definition matches (message name : string) (m : marker) : bool :=
  match m with
  | Has s => includes message s
  | HasBoth a b => includes message a && includes message b
  | NameHas s => includes name s
  end.

Fixpoint first_match (rules : list (list marker * ErrorCategory.t))
    (default : ErrorCategory.t) (message name : string) : ErrorCategory.t :=
  match rules with
  | [] => default
  | (markers, category) :: rules' =>
      if existsb (matches message name) markers then category
      else first_match rules' default message name
  end.

(** The marker lists as the specification words them. *)
Definition spec_rules : list (list marker * ErrorCategory.t) :=
  [ ([Has "authentication"; Has "login"; Has "credential"; Has "unauthorized"; Has "401"],
     ErrorCategory.Authentication);
    ([Has "network"; Has "timeout"; Has "connection refused"; Has "not found";
      Has "dns"; Has "proxy"],
     ErrorCategory.Network);
    ([Has "browser"; Has "page"; Has "navigation"; Has "element not found"; Has "selector"],
     ErrorCategory.Browser);
    ([Has "parse"; Has "invalid date"; Has "invalid amount";
      Has "invalid transaction type"; Has "missing required fields"],
     ErrorCategory.Parsing);
    ([Has "webhook"; Has "http request failed"; HasBoth "fetch" "failed"],
     ErrorCategory.Webhook);
    ([Has "config"; Has "validation"; Has "required field"],
     ErrorCategory.Config) ].

Definition spec_categorize (description : string) : ErrorCategory.t :=
  first_match spec_rules ErrorCategory.Browser description "".

(** The marker lists the code tests. *)
Definition code_rules : list (list marker * ErrorCategory.t) :=
  [ ([Has "authentication"; Has "login"; Has "credential"; Has "unauthorized"; Has "401"],
     ErrorCategory.Authentication);
    ([Has "network"; Has "timeout"; Has "econnrefused"; Has "enotfound";
      Has "dns"; Has "proxy"; NameHas "networkerror"],
     ErrorCategory.Network);
    ([Has "browser"; Has "page"; Has "navigation"; Has "element not found"; Has "selector";
      Has "playwright"],
     ErrorCategory.Browser);
    ([Has "parse"; Has "invalid date"; Has "invalid amount";
      Has "invalid transaction type"; Has "missing required fields"],
     ErrorCategory.Parsing);
    ([Has "webhook"; Has "http request failed"; HasBoth "fetch" "failed"],
     ErrorCategory.Webhook);
    ([Has "config"; Has "validation"; Has "required field"],
     ErrorCategory.Config) ].

(** ** Records of the scraper, session, webhook and scheduler modules *)

Module RawMutationData.
Record t := mk {
  date : string;
  description : string;
  amount : string;
  type : string;
  balance : string }.
End RawMutationData.

Inductive MutationType := debit | credit.

(** Parsed records are carried to the webhook untouched; dates are
    epoch milliseconds. *)
Module MutationRecord.
Record t := mk {
  date : N;
  description : string;
  amount : Z;
  type : MutationType;
  balance : Z }.
End MutationRecord.

(** Playwright's [Browser] and [Page] objects. *)
Definition Handle := N.

Module SessionOptions.
Record t := mk {
  browserType : option BrowserType;
  userAgent : option string;
  proxy : option ProxyConfig.t;
  headless : bool }.
End SessionOptions.

Module BrowserSession.
Record t := mk {
  browser : Handle;
  page : Handle;
  browserType : option BrowserType;
  userAgent : option string;
  proxy : option string }.
End BrowserSession.

Module WebhookConfig.
Record t := mk { url : string; retryAttempts : option N }.
End WebhookConfig.

Module WebhookPayload.
Record t := mk {
  timestamp : N;
  account : string;
  mutations : list MutationRecord.t }.
End WebhookPayload.

(** What [fetch] resolves to. *)
Module Response.
Record t := mk { ok : bool; status : N; statusText : string }.
End Response.

Module SchedulerConfig.
Record t := mk { interval : N; minInterval : option N }.
End SchedulerConfig.

Module CheckResult.
Record t := mk {
  success : bool;
  timestamp : N;
  mutationCount : option N;
  error : option Error }.
End CheckResult.

Definition TimerId := N.

(** The fields of a [Scheduler] object.  The session manager, data
    parser, error handler and logger hold no state. *)
Record Scheduler := mkScheduler {
  config : SchedulerConfig.t;
  timerId : option TimerId;
  checkInProgress : bool;
  stopped : bool;
  systemConfig : Config.t;
  browserPool : BrowserPool.t;
  userAgentRotator : UserAgentRotator.t;
  proxyRotator : option ProxyRotator.t;
  webhookClient : option WebhookConfig.t }.

Module LogLevel.
Inductive t := debug | info | warning | error.
End LogLevel.

(** ** Asynchronous programs

    [Op]: what a method does synchronously to the scheduler object and
    its surroundings.  [Call]: the promises it awaits from outside this
    code base (the browser, the network, timers), plus [Yield], the
    resumption of an [await] on a promise of this code base. *)

Inductive Outcome (A : Type) : Type :=
| Resolved (a : A)
| Rejected (e : Error).
Arguments Resolved {A} a.
Arguments Rejected {A} e.

Inductive Op : Type → Type :=
| This : Op Scheduler                               (* read this.<field> *)
| SetTimerId (v : option TimerId) : Op unit         (* this.timerId = v *)
| SetCheckInProgress (v : bool) : Op unit           (* this.checkInProgress = v *)
| SetStopped (v : bool) : Op unit                   (* this.stopped = v *)
| GetNextBrowser : Op (option BrowserType)          (* this.browserPool.getNextBrowser() *)
| GetNextUserAgent (browserType : option BrowserType)
    : Op (option string)                            (* this.userAgentRotator.getNextUserAgent(b) *)
| GetNextProxy : Op (option ProxyConfig.t)          (* this.proxyRotator?.getNextProxy() || null *)
| MarkProxyFailed (proxy : ProxyConfig.t) : Op unit (* this.proxyRotator.markProxyFailed(p) *)
| ParseAll (raw : list RawMutationData.t)
    : Op (list MutationRecord.t)                    (* this.dataParser.parseAll(raw) *)
| Log (level : LogLevel.t) (msg : string) : Op unit   (* this.logger.<level>(msg, ...) *)
| Now : Op N                                        (* new Date() *)
| SetTimeout (delay : N) : Op TimerId               (* setTimeout(<check callback>, delay) *)
| ClearTimeout (id : TimerId) : Op unit             (* clearTimeout(id) *)
| GetSession : Op (option BrowserSession.t)         (* performCheck's local [session] *)
| SetSession (s : option BrowserSession.t) : Op unit
| Report (r : CheckResult.t) : Op unit.             (* the caller of executeCheck gets r *)

Inductive Call : Type → Type :=
| CreateSession (options : SessionOptions.t) : Call BrowserSession.t
| Login (session : BrowserSession.t) (credentials : Credentials.t) : Call unit
| NavigateToMutationPage (page : Handle) : Call unit
| Scrape (page : Handle) : Call (list RawMutationData.t)
| PageGoto (page : Handle) (url : string) : Call unit
| PageClose (page : Handle) : Call unit
| BrowserClose (browser : Handle) : Call unit
| Fetch (url : string) (payload : WebhookPayload.t) : Call Response.t
| Sleep (ms : N) : Call unit
| Yield : Call unit.

Inductive Prog (A : Type) : Type :=
| Ret (a : A)
| Throw (e : Error)
| Do {R : Type} (op : Op R) (k : R → Prog A)
| Await {R : Type} (c : Call R) (k : Outcome R → Prog A).
Arguments Ret {A} a.
Arguments Throw {A} e.
Arguments Do {A R} op k.
Arguments Await {A R} c k.

(** [p.then(f)]: run [p], hand its outcome to [f]. *)
Fixpoint andThen {A B : Type} (p : Prog A) (f : Outcome A → Prog B) : Prog B :=
  match p with
  | Ret a => f (Resolved a)
  | Throw e => f (Rejected e)
  | Do op k => Do op (λ r, andThen (k r) f)
  | Await c k => Await c (λ o, andThen (k o) f)
  end.

Definition settle {A : Type} (o : Outcome A) : Prog A :=
  match o with
  | Resolved a => Ret a
  | Rejected e => Throw e
  end.

(** Sequencing; an exception skips the rest. *)
Definition bind {A B : Type} (p : Prog A) (f : A → Prog B) : Prog B :=
  andThen p (λ o, match o with
                  | Resolved a => f a
                  | Rejected e => Throw e
                  end).

(** [try { p } catch (e) { h e }] *)
Definition try_catch {A : Type} (p : Prog A) (h : Error → Prog A) : Prog A :=
  andThen p (λ o, match o with
                  | Resolved a => Ret a
                  | Rejected e => h e
                  end).

(** [try { p } finally { fin }]: [fin] runs on both exits; if it
    throws, its exception replaces the outcome of [p]. *)
Definition try_finally {A : Type} (p : Prog A) (fin : Prog unit) : Prog A :=
  andThen p (λ o, bind fin (λ _, settle o)).

(** [await p] where [p] is the call of an [async] method of this code
    base: the method runs up to its own first suspension; once it has
    settled, the awaiting code resumes in a later turn. *)
Definition await_async {A : Type} (p : Prog A) : Prog A :=
  andThen p (λ o, Await Yield (λ _, settle o)).

(** [await c] where [c] is a promise from outside. *)
Definition await {R : Type} (c : Call R) : Prog R := Await c settle.

Definition perform {R : Type} (op : Op R) : Prog R := Do op Ret.

Declare Scope prog_scope.
Delimit Scope prog_scope with prog.
Notation "'let*' x := p 'in' q" := (bind p (λ x, q))
  (at level 10, x binder, p at level 100, q at level 200) : prog_scope.
Notation "p ;;; q" := (bind p (λ _, q))
  (at level 100, q at level 200, right associativity) : prog_scope.
Local Open Scope prog_scope.

(** ** src/error/error-handler.ts *)

Module ErrorHandler.

Definition categorizeError (error : Error) : ErrorCategory.t :=
  let message := toLowerCase (message error) in
  let name := toLowerCase (name error) in
  (* Authentication errors *)
  if includes message "authentication" ||
     includes message "login" ||
     includes message "credential" ||
     includes message "unauthorized" ||
     includes message "401"
  then ErrorCategory.Authentication
  (* Network errors *)
  else if includes message "network" ||
     includes message "timeout" ||
     includes message "econnrefused" ||
     includes message "enotfound" ||
     includes message "dns" ||
     includes message "proxy" ||
     includes name "networkerror"
  then ErrorCategory.Network
  (* Browser errors *)
  else if includes message "browser" ||
     includes message "page" ||
     includes message "navigation" ||
     includes message "element not found" ||
     includes message "selector" ||
     includes message "playwright"
  then ErrorCategory.Browser
  (* Parsing errors *)
  else if includes message "parse" ||
     includes message "invalid date" ||
     includes message "invalid amount" ||
     includes message "invalid transaction type" ||
     includes message "missing required fields"
  then ErrorCategory.Parsing
  (* Webhook errors *)
  else if includes message "webhook" ||
     includes message "http request failed" ||
     (includes message "fetch" && includes message "failed")
  then ErrorCategory.Webhook
  (* Config errors *)
  else if includes message "config" ||
     includes message "validation" ||
     includes message "required field"
  then ErrorCategory.Config
  (* Default to browser error for unknown errors *)
  else ErrorCategory.Browser.

Definition isConfig (category : ErrorCategory.t) : bool :=
  match category with ErrorCategory.Config => true | _ => false end.

Definition isRecoverable (category : ErrorCategory.t) (context : ErrorContext.t) : bool :=
  (* Config errors are never recoverable *)
  if isConfig category then false
  (* Check if we've exceeded max attempts *)
  else if (ErrorContext.maxAttempts context <=? ErrorContext.attempt context)%N then false
  (* All other categories are potentially recoverable *)
  else true.

Definition determineAction (category : ErrorCategory.t) (context : ErrorContext.t)
    (recoverable : bool) : ErrorAction :=
  if negb recoverable then
    if isConfig category then fatal 1
    else skip
  else
    match category with
    | ErrorCategory.Authentication => retry 30000
    | ErrorCategory.Network =>
        let networkDelay := N.min (2 ^ ErrorContext.attempt context * 1000) 60000 in
        retry networkDelay
    | ErrorCategory.Browser =>
        if (ErrorContext.attempt context <? 3)%N then fallback "next-browser"
        else skip
    | ErrorCategory.Parsing => skip
    | ErrorCategory.Webhook =>
        let webhookDelay := N.min (2 ^ ErrorContext.attempt context * 1000) 30000 in
        retry webhookDelay
    | _ => skip
    end.

Definition logError (error : Error) (category : ErrorCategory.t)
    (context : ErrorContext.t) (recoverable : bool) : Prog unit :=
  if recoverable then
    perform (Log LogLevel.warning ("Recoverable error in " +:+ ErrorContext.operation context))
  else
    perform (Log LogLevel.error ("Non-recoverable error in " +:+ ErrorContext.operation context)).

Definition handleError (error : Error) (context : ErrorContext.t) : Prog ErrorAction :=
  let category := categorizeError error in
  let recoverable := isRecoverable category context in
  (* Log the error with context *)
  logError error category context recoverable ;;;
  (* Determine action based on category and recoverability *)
  Ret (determineAction category context recoverable).

End ErrorHandler.

(** ** src/webhook/webhook-client.ts *)

Module WebhookClient.

(** Exponential backoff: 1s, 2s, 4s, 8s, etc.  Only called with
    [attempt >= 1]. *)
Definition calculateBackoff (attempt : N) : N := (2 ^ (attempt - 1) * 1000)%N.

(** [new Promise((resolve) => setTimeout(resolve, ms))] *)
Definition sleep (ms : N) : Prog unit := await (Sleep ms).

Definition sendRequest (config : WebhookConfig.t)
    (mutations : list MutationRecord.t) (account : string) : Prog unit :=
  let* now := perform Now in
  let payload := WebhookPayload.mk now account mutations in
  perform (Log LogLevel.debug "Sending webhook request") ;;;
  let* response := await (Fetch (WebhookConfig.url config) payload) in
  if negb (Response.ok response) then
    Throw (newError ("Webhook request failed with status "
                     +:+ decimal (Response.status response) +:+ ": "
                     +:+ Response.statusText response))
  else Ret tt.

(** [`${lastError?.message}`] *)
Definition lastMessage (lastError : option Error) : string :=
  match lastError with
  | Some e => message e
  | None => "undefined"
  end.

Definition deliveryFailure (attempts : N) (lastError : option Error) : Error :=
  newError ("Webhook delivery failed after " +:+ decimal attempts
            +:+ " attempts: " +:+ lastMessage lastError).

(** The [for (let attempt = 1; attempt <= attempts; attempt++)] loop
    and what follows it.  [iterations] counts how many more times the
    loop test holds ([attempts - attempt + 1]); at [0] the loop is left
    and the failure is raised. *)
Fixpoint retryLoop (config : WebhookConfig.t) (mutations : list MutationRecord.t)
    (account : string) (attempts : N) (iterations : nat) (attempt : N)
    (lastError : option Error) : Prog unit :=
  match iterations with
  | 0 =>
      (* All attempts exhausted *)
      perform (Log LogLevel.error "Webhook delivery failed after all retries") ;;;
      Throw (deliveryFailure attempts lastError)
  | S iterations' =>
      andThen
        (await_async (sendRequest config mutations account) ;;;
         perform (Log LogLevel.info "Webhook delivery successful"))
        (λ o,
           match o with
           | Resolved _ => Ret tt
           | Rejected error =>
               let lastError := Some error in
               perform (Log LogLevel.warning "Webhook delivery failed") ;;;
               (* Don't wait after last attempt *)
               (if (attempt <? attempts)%N then
                  let delay := calculateBackoff attempt in
                  perform (Log LogLevel.debug "Retrying webhook delivery") ;;;
                  sleep delay
                else Ret tt) ;;;
               retryLoop config mutations account attempts iterations'
                         (attempt + 1)%N lastError
           end)
  end.

Definition sendWithRetry (config : WebhookConfig.t) (mutations : list MutationRecord.t)
    (account : string) (attempts : N) : Prog unit :=
  retryLoop config mutations account attempts (N.to_nat attempts) 1%N None.

Definition send (config : WebhookConfig.t) (mutations : list MutationRecord.t)
    (account : string) : Prog unit :=
  let maxAttempts := or_number (WebhookConfig.retryAttempts config) 3 in
  await_async (sendWithRetry config mutations account maxAttempts).

End WebhookClient.

(** ** src/session/session-manager.ts

    [createSession] and [login] drive the browser and may fail in any
    way: they are the calls [CreateSession] and [Login].  [logout] and
    [closeSession] swallow their failures and are embedded in full. *)

Module SessionManager.

Definition BCA_LOGOUT_URL : string :=
  "https://ibank.klikbca.com/authentication.do?value(actions)=logout".

Definition logout (session : BrowserSession.t) : Prog unit :=
  perform (Log LogLevel.debug "Starting logout process") ;;;
  try_catch
    (await (PageGoto (BrowserSession.page session) BCA_LOGOUT_URL) ;;;
     perform (Log LogLevel.info "Logout successful"))
    (λ _,
       (* Don't throw - logout failure shouldn't prevent cleanup *)
       perform (Log LogLevel.error "Logout failed")).

Definition closeSession (session : BrowserSession.t) : Prog unit :=
  perform (Log LogLevel.debug "Closing browser session") ;;;
  try_catch
    (await (PageClose (BrowserSession.page session)))
    (λ _, perform (Log LogLevel.error "Failed to close page")) ;;;
  try_catch
    (await (BrowserClose (BrowserSession.browser session)) ;;;
     perform (Log LogLevel.info "Browser session closed"))
    (λ _, perform (Log LogLevel.error "Failed to close browser")).

End SessionManager.

(** ** src/scheduler/scheduler.ts *)

Module Scheduler.

(** Minimum interval: 5 minutes (300000 ms) *)
Definition MIN_INTERVAL : N := 300000.

Definition constructor (config : SchedulerConfig.t) (systemConfig : Config.t)
    : ConstructionError + Scheduler :=
  (* Validate minimum interval *)
  let minInterval := or_number (SchedulerConfig.minInterval config) MIN_INTERVAL in
  if (SchedulerConfig.interval config <? minInterval)%N then
    inl (IntervalBelowMinimum minInterval)
  else
    (* Initialize components *)
    match BrowserPool.constructor (Config.browsers systemConfig) with
    | inl e => inl e
    | inr browserPool =>
        let userAgentRotator :=
          UserAgentRotator.constructor (Config.userAgents systemConfig) in
        (* Initialize proxy rotator if enabled *)
        let proxyRotator :=
          match Config.proxy systemConfig with
          | Some proxy =>
              if ProxySettings.enabled proxy && (0 <? length (ProxySettings.servers proxy))
              then Some (ProxyRotator.constructor (ProxySettings.servers proxy))
              else None
          | None => None
          end in
        (* Initialize webhook client if configured *)
        let webhookClient :=
          match Config.webhook systemConfig with
          | Some webhook =>
              if negb (String.eqb (WebhookSettings.url webhook) "")
              then Some (WebhookConfig.mk (WebhookSettings.url webhook)
                                          (WebhookSettings.retryAttempts webhook))
              else None
          | None => None
          end in
        inr (mkScheduler config None false false systemConfig
                         browserPool userAgentRotator proxyRotator webhookClient)
    end.

(** [scheduleNextCheck(delay = this.config.interval)]; the callback it
    registers is [checkCallback] below. *)
Definition scheduleNextCheck (delay : option N) : Prog unit :=
  let* this := perform This in
  let delay := default (SchedulerConfig.interval (config this)) delay in
  if stopped this then Ret tt
  else
    let* id := perform (SetTimeout delay) in
    perform (SetTimerId (Some id)).

Definition start : Prog unit :=
  let* this := perform This in
  match timerId this with
  | Some _ => perform (Log LogLevel.warning "Scheduler already running")
  | None =>
      perform (SetStopped false) ;;;
      perform (Log LogLevel.info "Starting scheduler") ;;;
      (* Execute first check immediately *)
      scheduleNextCheck (Some 0%N)
  end.

Definition stop : Prog unit :=
  let* this := perform This in
  match timerId this with
  | None => perform (Log LogLevel.warning "Scheduler not running")
  | Some _ =>
      perform (Log LogLevel.info "Stopping scheduler") ;;;
      perform (SetStopped true) ;;;
      let* this := perform This in
      match timerId this with
      | Some id => perform (ClearTimeout id) ;;; perform (SetTimerId None)
      | None => Ret tt
      end
  end.

Definition isRunning (this : Scheduler) : bool :=
  match timerId this with Some _ => true | None => false end || checkInProgress this.

(** [session?.proxy] as a condition: a non-empty string. *)
Definition sessionProxy (session : option BrowserSession.t) : option string :=
  match session with
  | Some s =>
      match BrowserSession.proxy s with
      | Some server => if String.eqb server "" then None else Some server
      | None => None
      end
  | None => None
  end.

Definition isRetry (action : ErrorAction) : bool :=
  match action with retry _ => true | _ => false end.

(** The [try] block of [performCheck]. *)
Definition performCheck_try : Prog unit :=
  (* Get next browser and rotation settings *)
  let* browserType := perform GetNextBrowser in
  let* userAgent := perform (GetNextUserAgent browserType) in
  let* proxy := perform GetNextProxy in
  perform (Log LogLevel.info "Starting mutation check") ;;;
  (* Create session *)
  let* session :=
    await (CreateSession (SessionOptions.mk browserType userAgent proxy true)) in
  perform (SetSession (Some session)) ;;;
  (* Login *)
  let* this := perform This in
  await (Login session (Config.credentials (systemConfig this))) ;;;
  (* Create scraper and navigate to mutation page *)
  await (NavigateToMutationPage (BrowserSession.page session)) ;;;
  (* Scrape mutations *)
  let* rawMutations := await (Scrape (BrowserSession.page session)) in
  (* Parse mutations *)
  let* mutations := perform (ParseAll rawMutations) in
  perform (Log LogLevel.info "Mutations retrieved") ;;;
  (* Send to webhook if configured *)
  let* this := perform This in
  match webhookClient this with
  | Some client =>
      if 0 <? length mutations then
        try_catch
          (await_async
             (WebhookClient.send client mutations
                (Credentials.username (Config.credentials (systemConfig this)))))
          (λ error,
             (* Handle webhook error but don't fail the check *)
             let* now := perform Now in
             let errorContext :=
               ErrorContext.mk "webhook-delivery" 1
                 (or_number (Config.webhook (systemConfig this)
                               ≫= WebhookSettings.retryAttempts) 3)
                 now in
             ErrorHandler.handleError error errorContext ;;;
             Ret tt)
      else Ret tt
  | None => Ret tt
  end ;;;
  (* Logout *)
  await_async (SessionManager.logout session).

(** The [catch (error)] block of [performCheck]. *)
Definition performCheck_catch (maxAttempts : N) (error : Error) : Prog unit :=
  (* Handle error with error handler *)
  let* now := perform Now in
  let errorContext := ErrorContext.mk "mutation-check" 1 maxAttempts now in
  let* action := ErrorHandler.handleError error errorContext in
  (* Mark proxy as failed if it was a network error *)
  let* this := perform This in
  let* session := perform GetSession in
  match proxyRotator this, sessionProxy session with
  | Some _, Some server =>
      if isRetry action && includes (toLowerCase (message error)) "network"
      then perform (MarkProxyFailed (ProxyConfig.mk server None None))
      else Ret tt
  | _, _ => Ret tt
  end ;;;
  (* Re-throw for scheduler to handle *)
  Throw error.

(** The [finally] block of [performCheck]. *)
Definition performCheck_finally : Prog unit :=
  (* Always cleanup session *)
  let* session := perform GetSession in
  match session with
  | Some session => await_async (SessionManager.closeSession session)
  | None => Ret tt
  end.

Definition performCheck : Prog unit :=
  perform (SetSession None) ;;;
  let maxAttempts := 3%N in
  try_finally
    (try_catch performCheck_try (performCheck_catch maxAttempts))
    performCheck_finally.

(** What [executeCheck] returns when a check is already running. *)
Definition alreadyInProgress (now : N) : CheckResult.t :=
  CheckResult.mk false now None (Some (newError "Check already in progress")).

(** The [try]/[catch]/[finally] statement of [executeCheck]. *)
Definition executeCheck_guarded (performCheck : Prog unit) (startTime : N)
    : Prog CheckResult.t :=
  try_finally
    (try_catch
       (perform (Log LogLevel.info "Starting mutation check") ;;;
        await_async performCheck ;;;
        let result := CheckResult.mk true startTime None None in
        perform (Log LogLevel.info "Mutation check completed successfully") ;;;
        Ret result)
       (λ error,
          perform (Log LogLevel.error "Mutation check failed") ;;;
          Ret (CheckResult.mk false startTime None (Some error))))
    (perform (SetCheckInProgress false)).

(** [executeCheck], with the cycle body it awaits as a parameter:
    [performCheck] is [protected] and replaced by subclasses and tests. *)
Definition executeCheckWith (performCheck : Prog unit) : Prog CheckResult.t :=
  let* this := perform This in
  (* Check for concurrent execution *)
  if checkInProgress this then
    perform (Log LogLevel.warning "Check already in progress, skipping") ;;;
    let* now := perform Now in
    Ret (alreadyInProgress now)
  else
    perform (SetCheckInProgress true) ;;;
    let* startTime := perform Now in
    executeCheck_guarded performCheck startTime.

Definition executeCheck : Prog CheckResult.t := executeCheckWith performCheck.

(** The callback [scheduleNextCheck] hands to [setTimeout]. *)
Definition checkCallback : Prog unit :=
  await_async executeCheck ;;;
  (* Schedule next check if not stopped *)
  let* this := perform This in
  if negb (stopped this) then scheduleNextCheck None else Ret tt.

End Scheduler.

(** ** The runtime

    [World]: what the outside answers.  The [seq]-th external call
    (counting from 0) settles with [respond seq call]; timers and
    resumptions always resolve.  [parseAll] is the data parser. *)

Record World := mkWorld {
  respond : ∀ R : Type, nat → Call R → Outcome R;
  parseAll : list RawMutationData.t → list MutationRecord.t }.

Inductive AnyCall :=
| anyCall {R : Type} (c : Call R).

(** What synchronous code reads and writes. *)
Record Env := mkEnv {
  this : Scheduler;                       (* the scheduler object *)
  session : option BrowserSession.t;      (* [session] of the running performCheck *)
  clock : N;                              (* current time, ms *)
  timers : list (TimerId * N);            (* pending check timers and when they are due *)
  scheduled : list (TimerId * N);         (* every check timer set so far *)
  log : list (LogLevel.t * string);
  calls : list AnyCall;                   (* external calls issued so far *)
  results : list CheckResult.t }.         (* what callers of executeCheck received *)

Definition set_this (f : Scheduler → Scheduler) (e : Env) : Env :=
  mkEnv (f (this e)) (session e) (clock e) (timers e) (scheduled e) (log e) (calls e) (results e).
Definition set_session (s : option BrowserSession.t) (e : Env) : Env :=
  mkEnv (this e) s (clock e) (timers e) (scheduled e) (log e) (calls e) (results e).
Definition set_clock (t : N) (e : Env) : Env :=
  mkEnv (this e) (session e) t (timers e) (scheduled e) (log e) (calls e) (results e).
Definition set_timers (ts : list (TimerId * N)) (e : Env) : Env :=
  mkEnv (this e) (session e) (clock e) ts (scheduled e) (log e) (calls e) (results e).
Definition add_scheduled (t : TimerId * N) (e : Env) : Env :=
  mkEnv (this e) (session e) (clock e) (timers e ++ [t]) (scheduled e ++ [t])
        (log e) (calls e) (results e).
Definition add_log (l : LogLevel.t * string) (e : Env) : Env :=
  mkEnv (this e) (session e) (clock e) (timers e) (scheduled e) (log e ++ [l]) (calls e) (results e).
Definition add_call (c : AnyCall) (e : Env) : Env :=
  mkEnv (this e) (session e) (clock e) (timers e) (scheduled e) (log e) (calls e ++ [c]) (results e).
Definition add_result (r : CheckResult.t) (e : Env) : Env :=
  mkEnv (this e) (session e) (clock e) (timers e) (scheduled e) (log e) (calls e) (results e ++ [r]).

Definition with_timerId (v : option TimerId) (s : Scheduler) : Scheduler :=
  mkScheduler (config s) v (checkInProgress s) (stopped s) (systemConfig s)
              (browserPool s) (userAgentRotator s) (proxyRotator s) (webhookClient s).
Definition with_checkInProgress (v : bool) (s : Scheduler) : Scheduler :=
  mkScheduler (config s) (timerId s) v (stopped s) (systemConfig s)
              (browserPool s) (userAgentRotator s) (proxyRotator s) (webhookClient s).
Definition with_stopped (v : bool) (s : Scheduler) : Scheduler :=
  mkScheduler (config s) (timerId s) (checkInProgress s) v (systemConfig s)
              (browserPool s) (userAgentRotator s) (proxyRotator s) (webhookClient s).
Definition with_browserPool (v : BrowserPool.t) (s : Scheduler) : Scheduler :=
  mkScheduler (config s) (timerId s) (checkInProgress s) (stopped s) (systemConfig s)
              v (userAgentRotator s) (proxyRotator s) (webhookClient s).
Definition with_userAgentRotator (v : UserAgentRotator.t) (s : Scheduler) : Scheduler :=
  mkScheduler (config s) (timerId s) (checkInProgress s) (stopped s) (systemConfig s)
              (browserPool s) v (proxyRotator s) (webhookClient s).
Definition with_proxyRotator (v : option ProxyRotator.t) (s : Scheduler) : Scheduler :=
  mkScheduler (config s) (timerId s) (checkInProgress s) (stopped s) (systemConfig s)
              (browserPool s) (userAgentRotator s) v (webhookClient s).

(** One synchronous operation. *)
Definition handle (w : World) {R : Type} (op : Op R) (e : Env) : R * Env :=
  match op in Op R return R * Env with
  | This => (this e, e)
  | SetTimerId v => (tt, set_this (with_timerId v) e)
  | SetCheckInProgress v => (tt, set_this (with_checkInProgress v) e)
  | SetStopped v => (tt, set_this (with_stopped v) e)
  | GetNextBrowser =>
      let '(b, pool) := BrowserPool.getNextBrowser (browserPool (this e)) in
      (b, set_this (with_browserPool pool) e)
  | GetNextUserAgent b =>
      let '(ua, r) := UserAgentRotator.getNextUserAgent b (userAgentRotator (this e)) in
      (ua, set_this (with_userAgentRotator r) e)
  | GetNextProxy =>
      match proxyRotator (this e) with
      | Some r =>
          let '(p, r') := ProxyRotator.getNextProxy r in
          (p, set_this (with_proxyRotator (Some r')) e)
      | None => (None, e)
      end
  | MarkProxyFailed p =>
      match proxyRotator (this e) with
      | Some r => (tt, set_this (with_proxyRotator (Some (ProxyRotator.markProxyFailed p r))) e)
      | None => (tt, e)
      end
  | ParseAll raw => (parseAll w raw, e)
  | Log level msg => (tt, add_log (level, msg) e)
  | Now => (clock e, e)
  | SetTimeout delay =>
      let id := N.of_nat (length (scheduled e)) in
      (id, add_scheduled (id, (clock e + delay)%N) e)
  | ClearTimeout id =>
      (tt, set_timers (filter (λ t, t.1 ≠ id) (timers e)) e)
  | GetSession => (session e, e)
  | SetSession s => (tt, set_session s e)
  | Report r => (tt, add_result r e)
  end.

(** Where a program stands when it gives control back. *)
Inductive Status (A : Type) : Type :=
| Done (o : Outcome A)
| Blocked {R : Type} (c : Call R) (k : Outcome R → Prog A).
Arguments Done {A} o.
Arguments Blocked {A R} c k.

(** Run to completion or to the next suspension. *)
Fixpoint run_sync {A : Type} (w : World) (p : Prog A) (e : Env) : Status A * Env :=
  match p with
  | Ret a => (Done (Resolved a), e)
  | Throw err => (Done (Rejected err), e)
  | Do op k => let '(r, e') := handle w op e in run_sync w (k r) e'
  | Await c k => (Blocked c k, e)
  end.

Definition isYield {R : Type} (c : Call R) : bool :=
  match c with Yield => true | _ => false end.

(** Issuing a call records it, except for resumptions. *)
Definition issue {R : Type} (c : Call R) (e : Env) : Env :=
  if isYield c then e else add_call (anyCall c) e.

(** How the call issued as number [seq] settles. *)
Definition answer (w : World) (seq : nat) {R : Type} (c : Call R) : Outcome R :=
  match c in Call R return Outcome R with
  | Sleep _ => Resolved tt
  | Yield => Resolved tt
  | CreateSession o => respond w _ seq (CreateSession o)
  | Login s c => respond w _ seq (Login s c)
  | NavigateToMutationPage p => respond w _ seq (NavigateToMutationPage p)
  | Scrape p => respond w _ seq (Scrape p)
  | PageGoto p u => respond w _ seq (PageGoto p u)
  | PageClose p => respond w _ seq (PageClose p)
  | BrowserClose b => respond w _ seq (BrowserClose b)
  | Fetch u p => respond w _ seq (Fetch u p)
  end.

(** Time a call takes when a single task runs alone: a sleep lasts its
    duration. *)
Definition elapse {R : Type} (c : Call R) (e : Env) : Env :=
  match c with
  | Sleep ms => set_clock (clock e + ms)%N e
  | _ => e
  end.

(** A single task run alone until it settles: each call it awaits is
    answered before anything else happens. *)
Fixpoint run_task {A : Type} (w : World) (p : Prog A) (e : Env) : Outcome A * Env :=
  match p with
  | Ret a => (Resolved a, e)
  | Throw err => (Rejected err, e)
  | Do op k => let '(r, e') := handle w op e in run_task w (k r) e'
  | Await c k =>
      run_task w (k (answer w (length (calls e)) c)) (elapse c (issue c e))
  end.

(** *** The event loop

    A suspended task: its [session] local, the number and time of the
    call it waits for, the call and the continuation. *)
Inductive Task :=
| task (session : option BrowserSession.t) (seq : nat) (issuedAt : N)
       {R : Type} (c : Call R) (k : Outcome R → Prog unit).

Record Machine := mkMachine { env : Env; tasks : list Task }.

Inductive Event :=
| HostStart                (* scheduler.start() *)
| HostStop                 (* scheduler.stop() *)
| HostExecuteCheck         (* scheduler.executeCheck(), result handed to the caller *)
| TimerFires (id : TimerId)
| Settles (i : nat)        (* the call task [i] waits for settles *)
| TimePasses (dt : N).

(** A direct call of [executeCheck] by the host. *)
Definition hostExecuteCheck : Prog unit :=
  let* r := Scheduler.executeCheck in perform (Report r).

(** What is left of a program when it gives control back: nothing if it
    is done, a task waiting for its call otherwise; [place] puts the
    task into the list. *)
Definition park (st : Status unit * Env) (others : list Task)
    (place : Task → list Task) : Machine :=
  match st with
  | (Done _, e) => mkMachine e others
  | (Blocked c k, e) =>
      mkMachine (issue c e) (place (task (session e) (length (calls e)) (clock e) c k))
  end.

(** A fresh invocation starts with its own locals. *)
Definition launch (w : World) (p : Prog unit) (m : Machine) : Machine :=
  park (run_sync w p (set_session None (env m))) (tasks m) (λ t, tasks m ++ [t]).

(** A sleep may settle once its time is up; other calls at any time. *)
Definition ready (now issuedAt : N) {R : Type} (c : Call R) : bool :=
  match c with
  | Sleep ms => (issuedAt + ms <=? now)%N
  | _ => true
  end.

Definition due (now : N) (id : TimerId) (ts : list (TimerId * N)) : bool :=
  existsb (λ t, (t.1 =? id)%N && (t.2 <=? now)%N) ts.

Definition step (w : World) (m : Machine) (ev : Event) : option Machine :=
  match ev with
  | HostStart => Some (launch w Scheduler.start m)
  | HostStop => Some (launch w Scheduler.stop m)
  | HostExecuteCheck => Some (launch w hostExecuteCheck m)
  | TimerFires id =>
      if due (clock (env m)) id (timers (env m)) then
        let e := set_timers (filter (λ t, t.1 ≠ id) (timers (env m))) (env m) in
        Some (launch w Scheduler.checkCallback (mkMachine e (tasks m)))
      else None
  | Settles i =>
      match tasks m !! i with
      | Some (task s seq issuedAt c k) =>
          if ready (clock (env m)) issuedAt c then
            Some (park (run_sync w (k (answer w seq c)) (set_session s (env m)))
                       (delete i (tasks m))
                       (λ t, <[i := t]> (tasks m)))
          else None
      | None => None
      end
  | TimePasses dt => Some (mkMachine (set_clock (clock (env m) + dt)%N (env m)) (tasks m))
  end.

Fixpoint run (w : World) (m : Machine) (evs : list Event) : option Machine :=
  match evs with
  | [] => Some m
  | ev :: evs' => match step w m ev with
                  | Some m' => run w m' evs'
                  | None => None
                  end
  end.

(** The machine right after [new Scheduler(...)] at time [t0]. *)
Definition boot (s : Scheduler) (t0 : N) : Machine :=
  mkMachine (mkEnv s None t0 [] [] [] [] []) [].

(** * Vocabulary of the properties

    ** Rotation *)

(** What the pools without failure tracking do on a call with the
    cursor at [i]: hand out [items[i]] and advance the cursor. *)
Definition select {A : Type} (items : list A) (i : nat) : option A * nat :=
  (items !! i, (i + 1) mod length items).

(** The round-robin contract of a selection method [next] on a pool
    over [items]: call number [k] returns [items[k mod N]], also after
    a [reset]; any [N] calls in a row return a permutation of the
    items; every block of [N] calls returns them in order. *)
Definition round_robin {S A : Type} (next : S → option A * S) (reset : S → S)
    (items : list A) (pool : S) : Prop :=
  (∀ k, nth_call next k pool = items !! (k mod length items)) ∧
  (∀ j k, nth_call next k (reset (consecutive next j pool).2)
          = items !! (k mod length items)) ∧
  (∀ j, (consecutive next (length items) (consecutive next j pool).2).1
        ≡ₚ Some <$> items) ∧
  (∀ blk, (consecutive next (length items)
             (consecutive next (blk * length items) pool).2).1 = Some <$> items).

(** Is this call [resetFailures()]? *)
Definition isResetFailures (c : ProxyRotator.call) : bool :=
  match c with ProxyRotator.ResetFailures => true | _ => false end.

(** The cursor of a rotator is a valid index whenever the pool is not
    empty. *)
Definition cursor_ok (r : ProxyRotator.t) : Prop :=
  length (ProxyRotator.proxies r) = 0 ∨
  ProxyRotator.currentIndex r < length (ProxyRotator.proxies r).

(** Two proxies with different keys. *)
Definition proxyA : ProxyConfig.t := ProxyConfig.mk "10.0.0.1:8080" None None.
Definition proxyB : ProxyConfig.t := ProxyConfig.mk "10.0.0.2:8080" (Some "bob") None.

(** A rotator over both, and calls made after [proxyA] has failed. *)
Definition twoProxies : ProxyRotator.t := ProxyRotator.constructor [proxyA; proxyB].
Definition laterCalls : list ProxyRotator.call :=
  [ProxyRotator.GetNextProxy; ProxyRotator.GetNextProxy; ProxyRotator.Reset;
   ProxyRotator.GetNextProxy].

(** ** Error handling and construction *)

(** Delays are in milliseconds. *)
Definition seconds (n : N) : N := (n * 1000)%N.

(** The context [performCheck] builds: attempt 1 of 3. *)
Definition firstOfThree : ErrorContext.t := ErrorContext.mk "mutation-check" 1 3 0.

(** The minimum the constructor compares the interval with. *)
Definition effectiveMinimum (config : SchedulerConfig.t) : N :=
  or_number (SchedulerConfig.minInterval config) Scheduler.MIN_INTERVAL.

(** Example configurations. *)
Definition fiveMinutes : SchedulerConfig.t := SchedulerConfig.mk 300000 None.
Definition noBrowsers : Config.t :=
  Config.mk (Credentials.mk "test-user" "test-pass") 300000 [] None None None.
Definition oneBrowser : Config.t :=
  Config.mk (Credentials.mk "test-user" "test-pass") 300000 [chromium] None None None.

(** ** Webhook delivery *)

(** The external calls of a delivery, as the steps of the retry
    algorithm. *)
Inductive Step :=
| Attempt             (* one POST to the endpoint *)
| Pause (ms : N)      (* one backoff sleep *)
| OtherCall.          (* anything else *)

Definition stepOf (c : AnyCall) : Step :=
  match c with
  | anyCall (Fetch _ _) => Attempt
  | anyCall (Sleep ms) => Pause ms
  | _ => OtherCall
  end.

Definition isAttempt (s : Step) : bool :=
  match s with Attempt => true | _ => false end.

Definition pauseOf (s : Step) : option N :=
  match s with Pause ms => Some ms | _ => None end.

(** Attempts [first .. first + count - 1] of [limit]: each is a POST,
    followed by a sleep of [2^(attempt-1)] seconds unless it is attempt
    number [limit]. *)
Definition attemptSteps (limit first count : nat) : list Step :=
  flat_map (λ attempt,
              Attempt :: if attempt <? limit
                         then [Pause (2 ^ N.of_nat (attempt - 1) * 1000)%N]
                         else [])
           (seq first count).

(** The error [sendRequest] raises for an outcome of [fetch], if any. *)
Definition requestError (o : Outcome Response.t) : option Error :=
  match o with
  | Rejected e => Some e
  | Resolved response =>
      if negb (Response.ok response) then
        Some (newError ("Webhook request failed with status "
                        +:+ decimal (Response.status response) +:+ ": "
                        +:+ Response.statusText response))
      else None
  end.

(** Two states that differ only in what was logged, called and in the time. *)
Definition same_state (e e' : Env) : Prop :=
  this e' = this e ∧ session e' = session e ∧ timers e' = timers e ∧
  scheduled e' = scheduled e ∧ results e' = results e.

(** The POST of one delivery attempt made in state [e]. *)
Definition post (config : WebhookConfig.t) (mutations : list MutationRecord.t)
    (account : string) (e : Env) : Call Response.t :=
  Fetch (WebhookConfig.url config) (WebhookPayload.mk (clock e) account mutations).

(** The state after a failed attempt: the POST and, unless it was the
    last attempt, the backoff sleep. *)
Definition afterFailure (config : WebhookConfig.t) (mutations : list MutationRecord.t)
    (account : string) (attempts attempt : N) (e : Env) : Env :=
  let e1 := add_log (LogLevel.warning, "Webhook delivery failed")
              (add_call (anyCall (post config mutations account e))
                 (add_log (LogLevel.debug, "Sending webhook request") e)) in
  if (attempt <? attempts)%N then
    set_clock (clock e + WebhookClient.calculateBackoff attempt)%N
      (add_call (anyCall (Sleep (WebhookClient.calculateBackoff attempt)))
         (add_log (LogLevel.debug, "Retrying webhook delivery") e1))
  else e1.

(** The state after a successful attempt. *)
Definition afterSuccess (config : WebhookConfig.t) (mutations : list MutationRecord.t)
    (account : string) (e : Env) : Env :=
  add_log (LogLevel.info, "Webhook delivery successful")
    (add_call (anyCall (post config mutations account e))
       (add_log (LogLevel.debug, "Sending webhook request") e)).

(** ** A check cycle *)

(** A state with its rotation pools and its log blanked. *)
Definition without_pools (e : Env) : Env :=
  mkEnv (mkScheduler (config (this e)) (timerId (this e)) (checkInProgress (this e))
                     (stopped (this e)) (systemConfig (this e))
                     (BrowserPool.mk [] 0) (UserAgentRotator.mk [] 0) None
                     (webhookClient (this e)))
        (session e) (clock e) (timers e) (scheduled e) [] (calls e) (results e).

(** Two states that differ in the rotation pools and the log at most. *)
Definition outside_pools (e e' : Env) : Prop := without_pools e' = without_pools e.

(** The rotation draws and the logger. *)
Definition rotates {R : Type} (op : Op R) : bool :=
  match op with
  | GetNextBrowser | GetNextUserAgent _ | GetNextProxy | MarkProxyFailed _ => true
  | Log _ _ => true
  | _ => false
  end.

(** ** The overlap guard

    [checkInProgress] is a lock held by at most one invocation of
    [executeCheck].  Programs are classified by what they may still do
    to it. *)

(** The assignments to [this.checkInProgress]. *)
Definition writesFlag {R : Type} (op : Op R) : bool :=
  match op with SetCheckInProgress _ => true | _ => false end.

Definition clearsFlag {R : Type} (op : Op R) : bool :=
  match op with SetCheckInProgress false => true | _ => false end.

(** [Quiet p]: [p] never assigns [checkInProgress]. *)
Fixpoint Quiet {A : Type} (p : Prog A) : Prop :=
  match p with
  | Ret _ | Throw _ => True
  | Do op k => writesFlag op = false ∧ ∀ r, Quiet (k r)
  | Await c k => ∀ o, Quiet (k o)
  end.

(** [Idle p]: [p] never assigns [checkInProgress] and awaits nothing
    but resumptions; it is not inside a cycle. *)
Fixpoint Idle {A : Type} (p : Prog A) : Prop :=
  match p with
  | Ret _ | Throw _ => True
  | Do op k => writesFlag op = false ∧ ∀ r, Idle (k r)
  | Await c k => isYield c = true ∧ ∀ o, Idle (k o)
  end.

(** [Holder p]: [p] is inside a cycle it has set [checkInProgress]
    for: whatever happens, it clears the flag once before it ends, and
    is [Idle] from then on. *)
Fixpoint Holder {A : Type} (p : Prog A) : Prop :=
  match p with
  | Ret _ | Throw _ => False
  | Do op k =>
      if clearsFlag op then ∀ r, Idle (k r)
      else writesFlag op = false ∧ ∀ r, Holder (k r)
  | Await c k => ∀ o, Holder (k o)
  end.

(** Suspended tasks that, when resumed, are idle or hold the flag. *)
Definition IdleTask (t : Task) : Prop :=
  match t with task _ _ _ c k => isYield c = true ∧ ∀ o, Idle (k o) end.

Definition HolderTask (t : Task) : Prop :=
  match t with task _ _ _ c k => ∀ o, Holder (k o) end.

(** [TasksOk flag ts]: exactly one of the suspended tasks holds the
    flag when it is set, none when it is clear; all others are idle. *)
Inductive TasksOk : bool → list Task → Prop :=
| TasksOk_nil : TasksOk false []
| TasksOk_idle b t ts : IdleTask t → TasksOk b ts → TasksOk b (t :: ts)
| TasksOk_holder t ts : HolderTask t → TasksOk false ts → TasksOk true (t :: ts).

(** The value of [this.checkInProgress]. *)
Definition flag (m : Machine) : bool := checkInProgress (this (env m)).
Definition flagOf (e : Env) : bool := checkInProgress (this e).

(** What a run leaves behind when it was not holding the flag. *)
Definition parkedIdle {A : Type} (st : Status A) : Prop :=
  match st with
  | Done _ => True
  | Blocked c k => isYield c = true ∧ ∀ o, Idle (k o)
  end.

(** What a run leaves behind when it was holding the flag, started
    with the flag at [b]. *)
Definition parkedHolder {A : Type} (b : bool) (r : Status A * Env) : Prop :=
  match r.1 with
  | Done _ => flagOf r.2 = false
  | Blocked c k =>
      (flagOf r.2 = b ∧ ∀ o, Holder (k o)) ∨
      (flagOf r.2 = false ∧ isYield c = true ∧ ∀ o, Idle (k o))
  end.

(** A task inside a cycle body: it waits for the browser, the network
    or a backoff sleep, not for a promise of this code base. *)
Definition waitsOutside (t : Task) : bool :=
  match t with task _ _ _ c _ => negb (isYield c) end.

(** [Guarded p]: [p] passes through the overlap guard: started while
    the flag is set it leaves it alone; started while it is clear it
    takes it and gives it back. *)
Definition Guarded {A : Type} (p : Prog A) : Prop :=
  ∀ w e,
    if flagOf e
    then flagOf (run_sync w p e).2 = true ∧ parkedIdle (run_sync w p e).1
    else parkedHolder true (run_sync w p e).

(** The invariant of the event loop. *)
Definition Inv (m : Machine) : Prop := TasksOk (flag m) (tasks m).

(** The state after a direct call was turned away. *)
Definition turnedAway (m : Machine) : Machine :=
  mkMachine
    (add_result (Scheduler.alreadyInProgress (clock (env m)))
       (add_log (LogLevel.warning, "Check already in progress, skipping")
          (set_session None (env m))))
    (tasks m).

(** What [k + 2] calls of [executeCheck] in a row lead to. *)
Definition burst_outcome (w : World) (m : Machine) (k : nat) : Prop :=
  ∃ m' options cont,
    run w m (replicate (S (S k)) HostExecuteCheck) = Some m' ∧
    tasks m' = tasks m ++
      [task None (length (calls (env m))) (clock (env m)) (CreateSession options) cont] ∧
    calls (env m') = calls (env m) ++ [anyCall (CreateSession options)] ∧
    results (env m')
    = results (env m) ++ replicate (S k) (Scheduler.alreadyInProgress (clock (env m))) ∧
    flag m' = true.

(** How a call that passes the guard ends when nothing else runs:
    whatever the body does, the flag is clear afterwards. *)
Definition completes (w : World) (body : Prog unit) (e : Env) : Prop :=
  let entered := add_log (LogLevel.info, "Starting mutation check")
                   (set_this (with_checkInProgress true) e) in
  let r := run_task w (Scheduler.executeCheckWith body) e in
  flagOf r.2 = false ∧
  r.1 = Resolved
          match (run_task w body entered).1 with
          | Resolved _ => CheckResult.mk true (clock e) None None
          | Rejected err => CheckResult.mk false (clock e) None (Some err)
          end.

(** ** Scheduling and example runs *)

(** [new Scheduler(fiveMinutes, oneBrowser)] *)
Definition exampleScheduler : Scheduler :=
  mkScheduler fiveMinutes None false false oneBrowser
    (BrowserPool.mk [chromium] 0) (UserAgentRotator.mk [] 0) None None.

(** A world in which no browser can be launched. *)
Definition browserDown : World :=
  mkWorld
    (λ R seq c,
       match c in Call R return Outcome R with
       | CreateSession _ => Rejected (newError "browserType.launch: executable not found")
       | Scrape _ => Resolved []
       | Fetch _ _ => Resolved (Response.mk true 200 "OK")
       | _ => Resolved tt
       end)
    (λ _, []).

(** [start()], the first check fires, fails after 100 ms, and the
    callback goes on to schedule the next one. *)
Definition slowCycle : list Event :=
  [HostStart; TimerFires 0%N; TimePasses 100%N; Settles 0; Settles 0; Settles 0].

(** The timing the specification states: every check timer is due
    [interval] after the one before it was due. *)
Definition spaced_by_interval (interval : N) (sch : list (TimerId * N)) : Prop :=
  ∀ i t t', sch !! i = Some t → sch !! S i = Some t' → t'.2 = (t.2 + interval)%N.

(** What [scheduleNextCheck] does to a running scheduler. *)
Definition timerSet (delay : N) (e : Env) : Env :=
  let id := N.of_nat (length (scheduled e)) in
  set_this (with_timerId (Some id)) (add_scheduled (id, (clock e + delay)%N) e).

(** The statement after the [await] in the timer callback. *)
Definition rescheduled (e : Env) : Env :=
  if stopped (this e) then e
  else timerSet (SchedulerConfig.interval (config (this e))) e.

(** A session, a scraped row and its parsed record. *)
Definition exampleSession : BrowserSession.t :=
  BrowserSession.mk 1%N 2%N (Some chromium) (Some chromeUA) None.
Definition exampleRaw : RawMutationData.t :=
  RawMutationData.mk "01/02" "TRSF E-BANKING" "150,000.00" "CR" "1,150,000.00".
Definition exampleRecord : MutationRecord.t :=
  MutationRecord.mk 1706745600000%N "TRSF E-BANKING" 150000%Z credit 1150000%Z.

(** A world in which the portal works and the webhook endpoint answers
    every POST with 503. *)
Definition endpointDown : World :=
  mkWorld
    (λ R seq c,
       match c in Call R return Outcome R with
       | CreateSession _ => Resolved exampleSession
       | Scrape _ => Resolved [exampleRaw]
       | Fetch _ _ => Resolved (Response.mk false 503%N "Service Unavailable")
       | _ => Resolved tt
       end)
    (λ raw, (λ _, exampleRecord) <$> raw).

(** A world whose very first call fails when it is a POST. *)
Definition endpointFlaky : World :=
  mkWorld
    (λ R seq c,
       match c in Call R return Outcome R with
       | CreateSession _ => Resolved exampleSession
       | Scrape _ => Resolved [exampleRaw]
       | Fetch _ _ =>
           if seq =? 0 then Rejected (newError "fetch failed")
           else Resolved (Response.mk true 200%N "OK")
       | _ => Resolved tt
       end)
    (λ raw, (λ _, exampleRecord) <$> raw).

(** A webhook configured with [retryAttempts: 0], and the scheduler
    built with it. *)
Definition webhookZero : WebhookConfig.t :=
  WebhookConfig.mk "https://hooks.example/bca" (Some 0%N).
Definition withWebhook : Config.t :=
  Config.mk (Credentials.mk "test-user" "test-pass") 300000%N [chromium] None None
    (Some (WebhookSettings.mk "https://hooks.example/bca" (Some 0%N))).
Definition webhookScheduler : Scheduler :=
  mkScheduler fiveMinutes None false false withWebhook
    (BrowserPool.mk [chromium] 0) (UserAgentRotator.mk [] 0) None (Some webhookZero).

(** The state right after construction. *)
Definition freshEnv (s : Scheduler) : Env := env (boot s 0%N).

(** The machine after [slowCycle]: the failed cycle is over and the
    next check is scheduled. *)
Definition afterSlowCycle : Machine :=
  default (boot exampleScheduler 0%N)
          (run browserDown (boot exampleScheduler 0%N) slowCycle).

(** A state in which a check is in progress. *)
Definition busyEnv : Env :=
  set_this (with_checkInProgress true) (freshEnv exampleScheduler).

(** ** Vocabulary of the further properties *)

(** The rotator a client holds after [new ProxyRotator(proxies)] and the
    calls [cs]. *)
Definition rotatorAfter (proxies : list ProxyConfig.t) (cs : list ProxyRotator.call)
    : ProxyRotator.t :=
  (ProxyRotator.run cs (ProxyRotator.constructor proxies)).2.

(** The proxy at offset [d] from the cursor, in cyclic order. *)
Definition proxyAt (r : ProxyRotator.t) (d : nat) : option ProxyConfig.t :=
  ProxyRotator.proxies r !!
    ((ProxyRotator.currentIndex r + d) mod length (ProxyRotator.proxies r)).

(** Calls that exclude [proxyA] and draw once. *)
Definition skipCalls : list ProxyRotator.call :=
  [ProxyRotator.MarkProxyFailed proxyA; ProxyRotator.GetNextProxy].

(** The markers of the first rule of the classifier. *)
Definition authenticationMarkers : list string :=
  ["authentication"; "login"; "credential"; "unauthorized"; "401"].

(** The calls of attempt number [attempt] of a delivery that began at
    time [start] and has failed so far: the POST, stamped with the time
    of the attempt, and the backoff sleep unless it is the last of
    [attempts]. *)
Definition failedAttempt (config : WebhookConfig.t) (mutations : list MutationRecord.t)
    (account : string) (attempts : nat) (start : N) (attempt : nat) : list AnyCall :=
  anyCall (Fetch (WebhookConfig.url config)
             (WebhookPayload.mk (start + (2 ^ N.of_nat (attempt - 1) - 1) * 1000)%N
                account mutations))
  :: (if attempt <? attempts
      then [anyCall (Sleep (2 ^ N.of_nat (attempt - 1) * 1000)%N)]
      else []).

(** ** Disciplines

    A discipline is a set [ok] of permitted operations together with a
    condition [J] on the scheduler object under which it has to be
    kept.  A program that finds the condition false when it reads
    [this] is released from the discipline until it next suspends. *)

Section Discipline.
Context (J : Scheduler → bool) (ok : ∀ R : Type, Op R → bool).

Definition escapes {R : Type} (op : Op R) : R → bool :=
  match op in Op R return R → bool with
  | This => λ this, negb (J this)
  | _ => λ _, false
  end.

(** [Obeys strict p]: every operation [p] performs while bound by the
    discipline is permitted, and whatever [p] leaves suspended is bound
    by it again. *)
Fixpoint Obeys {A : Type} (strict : bool) (p : Prog A) : Prop :=
  match p with
  | Ret _ | Throw _ => True
  | Do op k =>
      (strict = true → ok _ op = true) ∧
      ∀ r, Obeys (strict && negb (escapes op r)) (k r)
  | Await c k => ∀ o, Obeys true (k o)
  end.

Definition TaskObeys (t : Task) : Prop :=
  match t with task _ _ _ c k => ∀ o, Obeys true (k o) end.

Definition TasksObey (m : Machine) : Prop := Forall TaskObeys (tasks m).

End Discipline.

(** Operations that touch neither the scheduler's fields nor the locals
    of a cycle. *)
Definition plain {R : Type} (op : Op R) : bool :=
  match op with
  | This | Log _ _ | Now | ParseAll _ | Report _ => true
  | _ => false
  end.

(** One state is [quieter] than another: the same scheduler object, the
    same timers set so far, no more timers pending. *)
Definition quieter (e e' : Env) : Prop :=
  this e' = this e ∧ scheduled e' = scheduled e ∧ timers e' ⊆ timers e.

(** The discipline of a stopped scheduler: while [stopped] is set, no
    timer is set and [stopped] is not cleared. *)
Definition calm {R : Type} (op : Op R) : bool :=
  match op with
  | SetTimeout _ | SetStopped false => false
  | _ => true
  end.

(** A stopped scheduler with the timers [sch] set so far, of which
    those in [pending] at most have not fired. *)
Definition stoppedWith (sch pending : list (TimerId * N)) (e : Env) : Prop :=
  stopped (this e) = true ∧ scheduled e = sch ∧ timers e ⊆ pending.

Definition isHostStart (ev : Event) : bool :=
  match ev with HostStart => true | _ => false end.

Definition isHostStop (ev : Event) : bool :=
  match ev with HostStop => true | _ => false end.

(** The discipline of a running scheduler: [timerId] is not reset. *)
Definition keepsTimerId {R : Type} (op : Op R) : bool :=
  match op with
  | SetTimerId None => false
  | _ => true
  end.

Definition always (s : Scheduler) : bool := true.

Definition hasTimerId (e : Env) : Prop := is_Some (timerId (this e)).

(** A manual check on a scheduler that was started and stopped at
    once. *)
Definition stoppedAtOnce : Machine :=
  default (boot exampleScheduler 0%N)
          (run browserDown (boot exampleScheduler 0%N) [HostStart; HostStop]).
Definition checkWhileStopped : list Event := [HostExecuteCheck; Settles 0; Settles 0].
Definition afterCheckWhileStopped : Machine :=
  default stoppedAtOnce (run browserDown stoppedAtOnce checkWhileStopped).

(** The discipline of a cycle once its session exists: the [session]
    local is not assigned again and no browser or user agent is drawn. *)
Definition inCycle {R : Type} (op : Op R) : bool :=
  match op with
  | SetSession _ | GetNextBrowser | GetNextUserAgent _ => false
  | _ => true
  end.

(** What it keeps. *)
Definition cycleFrame (session0 : option BrowserSession.t) (pool : BrowserPool.t)
    (agents : UserAgentRotator.t) (e : Env) : Prop :=
  session e = session0 ∧ browserPool (this e) = pool ∧ userAgentRotator (this e) = agents.

(** The options [performCheck] creates its session with in state [e]. *)
Definition sessionOptions (e : Env) : SessionOptions.t :=
  let browserType := (BrowserPool.getNextBrowser (browserPool (this e))).1 in
  let userAgent :=
    (UserAgentRotator.getNextUserAgent browserType (userAgentRotator (this e))).1 in
  let proxy := proxyRotator (this e) ≫= λ r, (ProxyRotator.getNextProxy r).1 in
  SessionOptions.mk browserType userAgent proxy true.

(** The scheduler object after the draws of one cycle. *)
Definition afterDraws (s : Scheduler) : Scheduler :=
  let '(browserType, pool) := BrowserPool.getNextBrowser (browserPool s) in
  let '(_, agents) := UserAgentRotator.getNextUserAgent browserType (userAgentRotator s) in
  with_proxyRotator ((λ r, (ProxyRotator.getNextProxy r).2) <$> proxyRotator s)
    (with_userAgentRotator agents (with_browserPool pool s)).

(** The state after [k] calls of [executeCheck], each awaited before
    the next. *)
Definition cycles (w : World) (k : nat) (e : Env) : Env :=
  Nat.iter k (λ e', (run_task w Scheduler.executeCheck e').2) e.

(** What [closeSession] logs, given how [page.close()] and
    [browser.close()] settle. *)
Definition closeSessionLog (pageClosed browserClosed : Outcome unit)
    : list (LogLevel.t * string) :=
  [(LogLevel.debug, "Closing browser session")] ++
  (if pageClosed is Rejected _ then [(LogLevel.error, "Failed to close page")] else []) ++
  [if browserClosed is Rejected _
   then (LogLevel.error, "Failed to close browser")
   else (LogLevel.info, "Browser session closed")].

(** A configuration with two browsers, three user agents and two
    proxies, and the scheduler built from it. *)
Definition rotatingConfig : Config.t :=
  Config.mk (Credentials.mk "test-user" "test-pass") 300000%N [chromium; edge]
    (Some ["agent-1"; "agent-2"; "agent-3"])
    (Some (ProxySettings.mk true [proxyB; proxyA])) None.
Definition rotatingScheduler : Scheduler :=
  mkScheduler fiveMinutes None false false rotatingConfig
    (BrowserPool.mk [chromium; edge] 0)
    (UserAgentRotator.mk ["agent-1"; "agent-2"; "agent-3"] 0)
    (Some (ProxyRotator.mk [proxyB; proxyA] 0 ∅)) None.

(** [createSession] as the session manager answers it when the browser
    starts: the session records the server of the proxy it was given. *)
Definition sessionFor (options : SessionOptions.t) : BrowserSession.t :=
  BrowserSession.mk 1%N 2%N (SessionOptions.browserType options)
    (SessionOptions.userAgent options)
    (ProxyConfig.server <$> SessionOptions.proxy options).

(** A world in which sessions start and the portal cannot be reached. *)
Definition networkDown : World :=
  mkWorld
    (λ R seq c,
       match c in Call R return Outcome R with
       | CreateSession options => Resolved (sessionFor options)
       | Login _ _ => Rejected (newError "page.goto: net::ERR_NETWORK_CHANGED")
       | Scrape _ => Resolved []
       | Fetch _ _ => Resolved (Response.mk true 200%N "OK")
       | _ => Resolved tt
       end)
    (λ _, []).

(** ** Timer chains *)

(** Operations that leave the timers and [timerId] alone. *)
Definition timerFree {R : Type} (op : Op R) : bool :=
  match op with
  | SetTimeout _ | ClearTimeout _ | SetTimerId _ => false
  | _ => true
  end.

Definition isSetTimeout {R : Type} (op : Op R) : bool :=
  match op with SetTimeout _ => true | _ => false end.

(** The timer an operation has set, given what it returned. *)
Definition timerOf {R : Type} (op : Op R) : R → option TimerId :=
  match op in Op R return R → option TimerId with
  | SetTimeout _ => λ id, Some id
  | _ => λ _, None
  end.

(** [TimerFree p]: [p] leaves the timers and [timerId] alone. *)
Definition TimerFree {A : Type} (p : Prog A) : Prop :=
  Obeys always (@timerFree) true p.

(** [SetsTimer p]: [p] sets at most one timer, stores its id in
    [timerId] at once, and leaves the timers and [timerId] alone
    before and after. *)
Fixpoint SetsTimer {A : Type} (p : Prog A) : Prop :=
  match p with
  | Ret _ | Throw _ => True
  | Do op k =>
      (timerFree op = true ∧ ∀ r, SetsTimer (k r)) ∨
      (isSetTimeout op = true ∧
       ∀ r, ∃ k', k r = Do (SetTimerId (timerOf op r)) k' ∧ ∀ u, TimerFree (k' u))
  | Await c k => ∀ o, SetsTimer (k o)
  end.

Definition TaskTimerFree (t : Task) : Prop :=
  match t with task _ _ _ c k => ∀ o, TimerFree (k o) end.

Definition TaskSetsTimer (t : Task) : Prop :=
  match t with task _ _ _ c k => ∀ o, SetsTimer (k o) end.

(** [Chains n ts]: [n] of the tasks [ts] may still set a timer. *)
Inductive Chains : nat → list Task → Prop :=
| Chains_nil : Chains 0 []
| Chains_free n t ts : TaskTimerFree t → Chains n ts → Chains n (t :: ts)
| Chains_setter n t ts : TaskSetsTimer t → Chains n ts → Chains (S n) (t :: ts).

(** One timer chain: the pending timers and the tasks that may still
    set one are one at most, and a pending timer is the one [timerId]
    names. *)
Definition OneChain (m : Machine) : Prop :=
  ∃ n, Chains n (tasks m) ∧
       n + length (timers (env m)) ≤ 1 ∧
       (∀ t, t ∈ timers (env m) → timerId (this (env m)) = Some t.1) ∧
       (timerId (this (env m)) = None → n = 0).

(** What a timer-free program keeps. *)
Definition timerFrame (ts : list (TimerId * N)) (id : option TimerId) (e : Env) : Prop :=
  timers e = ts ∧ timerId (this e) = id.

(** Restarting a scheduler while a check is in flight: [stop()] and
    [start()] come after the first timer has fired and before its
    cycle is over. *)
Definition restartDuringCheck : list Event :=
  [HostStart; TimerFires 0%N; HostStop; HostStart; Settles 0; Settles 0; Settles 0].

(** ** The calls of a whole cycle *)

(** A call of the delivery: a POST or a backoff sleep. *)
Definition isDeliveryCall (c : AnyCall) : bool :=
  match stepOf c with
  | OtherCall => false
  | _ => true
  end.

(** The first failure among the four portal steps of a cycle started in
    state [e], if any: creating the session, logging in, opening the
    mutation page, scraping it. *)
Definition portalOutcome (w : World) (e : Env) : Outcome unit :=
  let seq := length (calls e) in
  match respond w _ seq (CreateSession (sessionOptions e)) with
  | Rejected err => Rejected err
  | Resolved s =>
      match respond w _ (seq + 1) (Login s (Config.credentials (systemConfig (this e)))) with
      | Rejected err => Rejected err
      | Resolved _ =>
          match respond w _ (seq + 2) (NavigateToMutationPage (BrowserSession.page s)) with
          | Rejected err => Rejected err
          | Resolved _ =>
              match respond w _ (seq + 3) (Scrape (BrowserSession.page s)) with
              | Rejected err => Rejected err
              | Resolved _ => Resolved tt
              end
          end
      end
  end.

(** * Properties

    ** Round-robin selection *)

Section RoundRobin.
Context {A : Type} (items : list A).
Hypothesis nonempty : 0 < length items.

Lemma consecutive_select k : ∀ i, i < length items →
  consecutive (select items) k i =
    ((λ j, items !! ((i + j) mod length items)) <$> seq 0 k, (i + k) mod length items).
Proof.
  induction k as [|k IH]; intros i Hi; simpl.
  - by rewrite Nat.add_0_r, Nat.mod_small.
  - rewrite IH by (apply Nat.mod_upper_bound; lia).
    rewrite Nat.add_0_r, (Nat.mod_small i) by done.
    f_equal; [f_equal|].
    + rewrite <- fmap_S_seq, <- list_fmap_compose.
      apply list_fmap_ext; intros _ j _; simpl.
      by rewrite Nat.Div0.add_mod_idemp_l, <- Nat.add_assoc.
    + rewrite Nat.Div0.add_mod_idemp_l. f_equal; lia.
Qed.

Lemma nth_call_select k : nth_call (select items) k 0 = items !! (k mod length items).
Proof.
  unfold nth_call. rewrite consecutive_select by done. reflexivity.
Qed.

Lemma lookup_rotation i j : i < length items → j < length items →
  (drop i items ++ take i items) !! j = items !! ((i + j) mod length items).
Proof.
  intros Hi Hj. destruct (decide (j < length items - i)) as [Hlt|Hge].
  - rewrite lookup_app_l by (rewrite length_drop; lia).
    rewrite lookup_drop, Nat.mod_small by lia. done.
  - rewrite lookup_app_r by (rewrite length_drop; lia).
    rewrite length_drop, lookup_take_lt by lia.
    f_equal. symmetry.
    replace (i + j) with ((j - (length items - i)) + 1 * length items) by lia.
    rewrite Nat.Div0.mod_add. apply Nat.mod_small. lia.
Qed.

(** A full round from cursor [i] hands out the list rotated by [i]. *)
Lemma round_select i : i < length items →
  consecutive (select items) (length items) i = (Some <$> (drop i items ++ take i items), i).
Proof.
  intros Hi. rewrite consecutive_select by done. f_equal.
  - apply list_eq; intros j.
    rewrite !list_lookup_fmap.
    destruct (decide (j < length items)) as [Hj|Hj].
    + rewrite lookup_seq_lt by done. simpl.
      rewrite lookup_rotation by done.
      destruct (lookup_lt_is_Some_2 items ((i + j) mod length items)) as [x Hx].
      { apply Nat.mod_upper_bound; lia. }
      by rewrite Hx.
    + rewrite lookup_seq_ge by lia. simpl.
      rewrite lookup_ge_None_2; [done|].
      rewrite length_app, length_drop, length_take. lia.
  - replace (i + length items) with (i + 1 * length items) by lia.
    rewrite Nat.Div0.mod_add. by apply Nat.mod_small.
Qed.

Lemma round_select_perm i : i < length items →
  (consecutive (select items) (length items) i).1 ≡ₚ Some <$> items.
Proof.
  intros Hi. rewrite round_select by done. simpl.
  apply fmap_Permutation.
  rewrite Permutation_app_comm. by rewrite take_drop.
Qed.

Lemma consecutive_cursor k i : i < length items →
  (consecutive (select items) k i).2 < length items.
Proof.
  intros Hi. rewrite consecutive_select by done. simpl.
  apply Nat.mod_upper_bound. lia.
Qed.

Lemma block_select blk :
  (consecutive (select items) (length items) (consecutive (select items) (blk * length items) 0).2).1
  = Some <$> items.
Proof.
  rewrite (consecutive_select (blk * _)) by done. simpl.
  rewrite Nat.Div0.mod_mul.
  rewrite round_select by done. simpl. by rewrite drop_0, take_0, app_nil_r.
Qed.

End RoundRobin.

(** Two selection methods that agree step by step agree on every run. *)
Lemma consecutive_sim {S T A : Type} (f : S → A * S) (g : T → A * T) (inj : T → S) :
  (∀ t, f (inj t) = ((g t).1, inj (g t).2)) →
  ∀ k t, consecutive f k (inj t) = ((consecutive g k t).1, inj (consecutive g k t).2).
Proof.
  intros Hsim. induction k as [|k IH]; intros t; simpl; [done|].
  rewrite Hsim. destruct (g t) as [x t']; simpl.
  rewrite IH. by destruct (consecutive g k t').
Qed.

Lemma getNextBrowser_select items i :
  BrowserPool.getNextBrowser (BrowserPool.mk items i)
  = ((select items i).1, BrowserPool.mk items (select items i).2).
Proof. reflexivity. Qed.

Lemma getNextUserAgent_select b items i : 0 < length items →
  UserAgentRotator.getNextUserAgent b (UserAgentRotator.mk items i)
  = ((select items i).1, UserAgentRotator.mk items (select items i).2).
Proof.
  intros H. unfold UserAgentRotator.getNextUserAgent; simpl.
  destruct (Nat.ltb_spec 0 (length items)); [done|lia].
Qed.

(** A pool whose [next] is [select] on its cursor is round-robin. *)
Lemma round_robin_sim {S A : Type} (next : S → option A * S) (reset : S → S)
    (inj : nat → S) (items : list A) :
  0 < length items →
  (∀ i, next (inj i) = ((select items i).1, inj (select items i).2)) →
  (∀ i, reset (inj i) = inj 0) →
  round_robin next reset items (inj 0).
Proof.
  intros Hne Hnext Hreset.
  pose proof (consecutive_sim next (select items) inj Hnext) as Hsim.
  assert (Hnth : ∀ k, nth_call next k (inj 0) = items !! (k mod length items)).
  { intros k. unfold nth_call. rewrite Hsim; simpl. rewrite Hnext; simpl.
    by rewrite consecutive_select. }
  repeat split.
  - exact Hnth.
  - intros j k. rewrite Hsim; simpl. rewrite Hreset. apply Hnth.
  - intros j. rewrite Hsim; simpl. rewrite Hsim; simpl.
    apply round_select_perm; [done|]. apply consecutive_cursor; lia.
  - intros blk. rewrite Hsim; simpl. rewrite Hsim; simpl.
    by apply block_select.
Qed.

(** C3. A browser pool or user-agent rotator built from a non-empty
    list returns [items[k mod N]] on its [k]-th call (counted from the
    construction or from a [reset()]); any [N] consecutive calls return
    a permutation of the items, and every block of [N] calls returns
    the items in order. *)
Theorem round_robin_selection :
  (∀ (b : BrowserType) (bs : list BrowserType),
     ∃ pool, BrowserPool.constructor (b :: bs) = inr pool ∧
       round_robin BrowserPool.getNextBrowser BrowserPool.reset (b :: bs) pool) ∧
  (∀ (u : string) (us : list string) (browserType : option BrowserType),
     round_robin (UserAgentRotator.getNextUserAgent browserType) UserAgentRotator.reset
       (u :: us) (UserAgentRotator.constructor (Some (u :: us)))).
Proof.
  split.
  - intros b bs. eexists; split; [reflexivity|].
    apply (round_robin_sim _ _ (BrowserPool.mk (b :: bs))); simpl; [lia| |done].
    intros i. apply getNextBrowser_select.
  - intros u us bt.
    apply (round_robin_sim _ _ (UserAgentRotator.mk (u :: us))); simpl; [lia| |done].
    intros i. apply getNextUserAgent_select. simpl; lia.
Qed.

(** ** Rotation with failure tracking *)

Module ProxyRotatorFacts.
Import ProxyRotator.

Lemma has_true failed key : has failed key = true ↔ key ∈ failed.
Proof. unfold has. apply bool_decide_eq_true. Qed.

Lemma scan_Some remaining : ∀ r p r',
  scan remaining r = (Some p, r') →
  isProxyFailed p r = false ∧ p ∈ proxies r ∧
  proxies r' = proxies r ∧ failedProxies r' = failedProxies r.
Proof.
  induction remaining as [|n IH]; intros r p r'; simpl; [done|].
  destruct (proxies r !! currentIndex r) as [q|] eqn:Hq; [|done].
  destruct (has (failedProxies r) (getProxyKey q)) eqn:Hf; simpl.
  - intros H. apply IH in H as (?&?&?&?). done.
  - intros [= -> <-]. simpl. repeat split; try done.
    by eapply list_elem_of_lookup_2.
Qed.

Lemma scan_fields remaining : ∀ r,
  proxies (scan remaining r).2 = proxies r ∧
  failedProxies (scan remaining r).2 = failedProxies r.
Proof.
  induction remaining as [|n IH]; intros r; simpl; [done|].
  destruct (proxies r !! currentIndex r) as [q|]; [|done].
  destruct (negb _); [done|].
  match goal with |- context [scan n ?x] => destruct (IH x) as [? ?] end. done.
Qed.

Lemma getNextProxy_Some r p r' :
  getNextProxy r = (Some p, r') →
  isProxyFailed p r = false ∧ p ∈ proxies r.
Proof.
  unfold getNextProxy.
  destruct (length (proxies r) =? 0); [done|].
  destruct (length (filter _ _) =? 0); [done|].
  intros H. apply scan_Some in H. tauto.
Qed.

Lemma getNextProxy_fields r :
  proxies (getNextProxy r).2 = proxies r ∧
  failedProxies (getNextProxy r).2 = failedProxies r.
Proof.
  unfold getNextProxy.
  destruct (length (proxies r) =? 0); [done|].
  destruct (length (filter _ _) =? 0); [done|].
  apply scan_fields.
Qed.

(** Short of [resetFailures], the excluded set only grows. *)
Lemma exec_failed_mono c r key :
  isResetFailures c = false →
  key ∈ failedProxies r → key ∈ failedProxies (exec c r).2.
Proof.
  destruct c; simpl; try done.
  - intros _ H. pose proof (getNextProxy_fields r) as [_ Hf].
    destruct (getNextProxy r); simpl in *. by rewrite Hf.
  - intros _ H. set_solver.
Qed.

(** A key that is excluded is never handed out, short of [resetFailures]. *)
Lemma run_avoids_failed cs : ∀ r key,
  existsb isResetFailures cs = false →
  key ∈ failedProxies r →
  ∀ q, q ∈ (run cs r).1 → getProxyKey q ≠ key.
Proof.
  induction cs as [|c cs IH]; intros r key Hcs Hkey q; simpl.
  - by intros ?%elem_of_nil.
  - simpl in Hcs. apply orb_false_iff in Hcs as [Hc Hcs].
    pose proof (exec_failed_mono c r key Hc Hkey) as Hmono.
    destruct (exec c r) as [o r1] eqn:Hexec; simpl in Hmono.
    specialize (IH r1 key Hcs Hmono q).
    destruct (run cs r1) as [out r2]; simpl in *.
    destruct o as [[p|]|]; try done.
    rewrite elem_of_cons. intros [->|Hin]; [|by apply IH].
    destruct c; simpl in Hexec; try done.
    destruct (getNextProxy r) as [p' r'] eqn:Hnext.
    injection Hexec as -> ->.
    apply getNextProxy_Some in Hnext as [Hnf _].
    intros <-. unfold isProxyFailed in Hnf.
    apply has_true in Hkey. congruence.
Qed.

Lemma getNextProxy_all_failed r :
  forallb (λ p, isProxyFailed p r) (proxies r) = true →
  getNextProxy r = (None, r).
Proof.
  intros Hall. unfold getNextProxy.
  destruct (length (proxies r) =? 0); [done|].
  replace (filter _ (proxies r)) with (@nil ProxyConfig.t); [done|].
  symmetry. rewrite forallb_forall in Hall.
  induction (proxies r) as [|p l IH]; [done|].
  rewrite filter_cons.
  assert (isProxyFailed p r = true) as Hp by (apply Hall; left; done).
  unfold isProxyFailed in Hp. rewrite Hp. simpl.
  destruct (decide (false = true)); [done|].
  apply IH. intros x Hx. apply Hall. by right.
Qed.

(** Liveness: as long as some proxy is not excluded, one is handed out. *)
Lemma scan_finds r :
  currentIndex r < length (proxies r) →
  ∀ remaining i p,
    proxies r !! i = Some p → isProxyFailed p r = false →
    (∃ d, d < remaining ∧ i = (currentIndex r + d) mod length (proxies r)) →
    ∃ q r', scan remaining r = (Some q, r').
Proof.
  intros Hidx remaining. revert r Hidx.
  induction remaining as [|n IH]; intros r Hidx i p Hi Hp (d & Hd & Hid); [lia|].
  simpl.
  destruct (lookup_lt_is_Some_2 (proxies r) (currentIndex r) Hidx) as [q Hq].
  rewrite Hq.
  destruct (has (failedProxies r) (getProxyKey q)) eqn:Hf; simpl; [|by eauto].
  destruct d as [|d].
  { rewrite Nat.add_0_r, Nat.mod_small in Hid by done. subst i.
    rewrite Hq in Hi. injection Hi as ->. unfold isProxyFailed in Hp. congruence. }
  eapply (IH (mk _ _ _)); simpl.
  - apply Nat.mod_upper_bound. lia.
  - exact Hi.
  - exact Hp.
  - exists d. split; [lia|]. rewrite Nat.Div0.add_mod_idemp_l. subst i. f_equal. lia.
Qed.

Lemma getNextProxy_finds r p :
  cursor_ok r → p ∈ proxies r → isProxyFailed p r = false →
  ∃ q r', getNextProxy r = (Some q, r').
Proof.
  intros Hok Hin Hp. unfold getNextProxy.
  apply list_elem_of_lookup in Hin as [i Hi].
  pose proof (lookup_lt_Some _ _ _ Hi) as Hlt.
  destruct Hok as [Hz|Hidx]; [lia|].
  destruct (Nat.eqb_spec (length (proxies r)) 0) as [|_]; [lia|].
  destruct (Nat.eqb_spec (length (filter (λ proxy,
      negb (has (failedProxies r) (getProxyKey proxy)) = true) (proxies r))) 0) as [Hnil|_].
  { apply length_zero_iff_nil in Hnil.
    assert (p ∈ filter (λ proxy,
      negb (has (failedProxies r) (getProxyKey proxy)) = true) (proxies r)) as Hf.
    { apply list_elem_of_filter. split; [|by eapply list_elem_of_lookup_2].
      unfold isProxyFailed in Hp. by rewrite Hp. }
    rewrite Hnil in Hf. by apply elem_of_nil in Hf. }
  eapply (scan_finds r Hidx _ i p Hi Hp).
  exists ((i + length (proxies r) - currentIndex r) mod length (proxies r)).
  split; [apply Nat.mod_upper_bound; lia|].
  rewrite Nat.Div0.add_mod_idemp_r.
  replace (currentIndex r + (i + length (proxies r) - currentIndex r))
    with (i + 1 * length (proxies r)) by lia.
  rewrite Nat.Div0.mod_add. symmetry. by apply Nat.mod_small.
Qed.

Lemma scan_cursor_ok remaining : ∀ r, cursor_ok r → cursor_ok (scan remaining r).2.
Proof.
  unfold cursor_ok.
  induction remaining as [|n IH]; intros r H; simpl; [done|].
  assert (length (proxies r) = 0 ∨
          (currentIndex r + 1) mod length (proxies r) < length (proxies r)) as H'.
  { destruct H as [H|H]; [by left|]. right. apply Nat.mod_upper_bound. lia. }
  destruct (proxies r !! currentIndex r) as [q|]; [|done].
  destruct (negb _); [done|].
  match goal with |- context [scan n ?x] => apply (IH x) end. done.
Qed.

Lemma exec_cursor_ok c r : cursor_ok r → cursor_ok (exec c r).2.
Proof.
  intros H. destruct c; simpl; try done.
  - unfold getNextProxy.
    destruct (length (proxies r) =? 0); [done|].
    destruct (length (filter _ _) =? 0); [done|].
    pose proof (scan_cursor_ok (length (proxies r)) r H).
    by destruct (scan _ r).
  - destruct H as [H|H]; [by left|]. right. simpl. lia.
Qed.

Lemma getNextProxy_consecutive_all_failed r k :
  forallb (λ p, isProxyFailed p r) (proxies r) = true →
  consecutive getNextProxy k r = (replicate k None, r).
Proof.
  intros Hall. induction k as [|k IH]; simpl; [done|].
  rewrite getNextProxy_all_failed by done. by rewrite IH.
Qed.

End ProxyRotatorFacts.

(** C2. Once [markProxyFailed(item)] has been called, no later
    [getNextProxy()] returns a proxy with the key of [item], whatever
    else is called, short of [resetFailures()]; and when every proxy of
    the pool is marked failed (or the pool is empty), every call of
    [getNextProxy()] returns null. *)
Theorem failed_proxy_never_returned :
  (∀ (r : ProxyRotator.t) (item : ProxyConfig.t) (after : list ProxyRotator.call),
     existsb isResetFailures after = false →
     ∀ q, q ∈ (ProxyRotator.run after (ProxyRotator.markProxyFailed item r)).1 →
          ProxyRotator.getProxyKey q ≠ ProxyRotator.getProxyKey item) ∧
  (∀ (r : ProxyRotator.t) (k : nat),
     forallb (λ p, ProxyRotator.isProxyFailed p r) (ProxyRotator.proxies r) = true →
     consecutive ProxyRotator.getNextProxy k r = (replicate k None, r)).
Proof.
  split.
  - intros r item after Hafter q Hq.
    eapply ProxyRotatorFacts.run_avoids_failed; [exact Hafter| |exact Hq].
    simpl. set_solver.
  - intros r k. apply ProxyRotatorFacts.getNextProxy_consecutive_all_failed.
Qed.

Lemma failed_proxy_never_returned_witness :
  (∀ q, q ∈ (ProxyRotator.run laterCalls
               (ProxyRotator.markProxyFailed proxyA twoProxies)).1 →
        ProxyRotator.getProxyKey q ≠ ProxyRotator.getProxyKey proxyA) ∧
  consecutive ProxyRotator.getNextProxy 3
    (ProxyRotator.markProxyFailed proxyB (ProxyRotator.markProxyFailed proxyA twoProxies))
  = (replicate 3 None,
     ProxyRotator.markProxyFailed proxyB (ProxyRotator.markProxyFailed proxyA twoProxies)).
Proof.
  split.
  - apply (proj1 failed_proxy_never_returned). reflexivity.
  - apply (proj2 failed_proxy_never_returned). vm_compute. reflexivity.
Defined.

Example run_after_failure :
  (ProxyRotator.run laterCalls (ProxyRotator.markProxyFailed proxyA twoProxies)).1
  = [proxyB; proxyB; proxyB].
Proof. vm_compute. reflexivity. Qed.

(** ** The error classifier *)

(** C4 (amended). [categorizeError] is the first-match classifier over
    the marker lists [code_rules], applied to the lower-cased message
    and name of the error, with [Browser] as the category when no
    marker matches.  The lists are those of the specification, except
    that the network markers are the error codes "econnrefused" and
    "enotfound" (not the phrases "connection refused" and "not found")
    and a name containing "networkerror", and that "playwright" is a
    browser marker. *)
Theorem categorizeError_first_match (error : Error) :
  ErrorHandler.categorizeError error
  = first_match code_rules ErrorCategory.Browser
      (toLowerCase (message error)) (toLowerCase (name error)).
Proof.
  unfold ErrorHandler.categorizeError, code_rules.
  cbn [first_match existsb matches].
  rewrite !orb_false_r, !orb_assoc.
  reflexivity.
Qed.

(** C4, counterexample: the message "connection refused" matches a
    network marker of the specification and none of the code, which
    falls through to the default category. *)
Lemma connection_refused_not_network :
  ErrorHandler.categorizeError (newError "connection refused") = ErrorCategory.Browser ∧
  spec_categorize (toLowerCase "connection refused") = ErrorCategory.Network.
Proof. split; vm_compute; reflexivity. Qed.

(** Conversely, an error code of Node.js is a network error for the
    code only. *)
Example econnrefused_is_network :
  ErrorHandler.categorizeError (newError "connect ECONNREFUSED 127.0.0.1:3128")
  = ErrorCategory.Network ∧
  spec_categorize (toLowerCase "connect ECONNREFUSED 127.0.0.1:3128") = ErrorCategory.Browser.
Proof. split; vm_compute; reflexivity. Qed.

Example authentication_first :
  ErrorHandler.categorizeError (newError "Authentication failed: bad password")
  = ErrorCategory.Authentication.
Proof. vm_compute; reflexivity. Qed.

Import ErrorHandler.

(** C5. An error is recoverable iff its category is not [Config] and
    [attempt < maxAttempts].  A [Config] error, never recoverable, is
    [fatal] with exit code 1; any other error that is not recoverable
    is [skip]ped.  A recoverable error gets: [Authentication] a retry
    after 30 s whatever the attempt; [Network] a retry after
    [min(2^attempt, 60)] s; [Browser] the fallback to the next browser
    while [attempt < 3] and [skip] from then on; [Parsing] [skip];
    [Webhook] a retry after [min(2^attempt, 30)] s. *)
Theorem prescribed_action (category : ErrorCategory.t) (context : ErrorContext.t) :
  let attempt := ErrorContext.attempt context in
  let maxAttempts := ErrorContext.maxAttempts context in
  let recoverable := isRecoverable category context in
  let action := determineAction category context recoverable in
  (recoverable = true ↔ category ≠ ErrorCategory.Config ∧ (attempt < maxAttempts)%N) ∧
  (recoverable = false →
     action = if isConfig category then fatal 1 else skip) ∧
  (recoverable = true →
     match category with
     | ErrorCategory.Authentication => action = retry (seconds 30)
     | ErrorCategory.Network => action = retry (seconds (N.min (2 ^ attempt) 60))
     | ErrorCategory.Browser =>
         action = if (attempt <? 3)%N then fallback "next-browser" else skip
     | ErrorCategory.Parsing => action = skip
     | ErrorCategory.Webhook => action = retry (seconds (N.min (2 ^ attempt) 30))
     | ErrorCategory.Config => False
     end).
Proof.
  intros attempt maxAttempts recoverable action.
  subst recoverable action attempt maxAttempts.
  unfold isRecoverable, determineAction, seconds.
  destruct context as [op a m ts]; simpl.
  split; [split|split].
  - destruct category; simpl; try done;
      destruct (N.leb_spec m a); try done; intros _; split; (done || lia).
  - intros [Hc Hlt]. destruct category; simpl; try done;
      destruct (N.leb_spec m a); try done; lia.
  - destruct category; simpl; destruct (N.leb_spec m a); simpl; done.
  - destruct category; simpl; destruct (N.leb_spec m a); simpl; try done; intros _;
      f_equal; rewrite <- N.mul_min_distr_r; reflexivity.
Qed.

Lemma prescribed_action_witness :
  determineAction ErrorCategory.Network firstOfThree
    (isRecoverable ErrorCategory.Network firstOfThree) = retry 2000 ∧
  determineAction ErrorCategory.Config firstOfThree
    (isRecoverable ErrorCategory.Config firstOfThree) = fatal 1.
Proof.
  split.
  - apply (proj2 (proj2 (prescribed_action ErrorCategory.Network firstOfThree))).
    reflexivity.
  - apply (proj1 (proj2 (prescribed_action ErrorCategory.Config firstOfThree))).
    reflexivity.
Defined.

(** ** Construction *)

(** C8 (amended). The minimum is [config.minInterval], or 300000 ms
    when that is absent (or 0).  The constructor throws the interval
    error whenever [interval < minimum].  With [interval >= minimum] it
    throws the browser pool's error when the system configuration lists
    no browser, and succeeds otherwise, with a scheduler that has no
    timer, no check in progress and is not stopped. *)
Theorem constructor_validates (schedulerConfig : SchedulerConfig.t)
    (systemConfig : Config.t) :
  let interval := SchedulerConfig.interval schedulerConfig in
  let minimum := effectiveMinimum schedulerConfig in
  (SchedulerConfig.minInterval schedulerConfig = None → minimum = 300000%N) ∧
  ((interval < minimum)%N →
     Scheduler.constructor schedulerConfig systemConfig = inl (IntervalBelowMinimum minimum)) ∧
  ((minimum ≤ interval)%N → Config.browsers systemConfig = [] →
     Scheduler.constructor schedulerConfig systemConfig = inl EmptyBrowserPool) ∧
  ((minimum ≤ interval)%N → Config.browsers systemConfig ≠ [] →
     ∃ s, Scheduler.constructor schedulerConfig systemConfig = inr s ∧
          config s = schedulerConfig ∧ timerId s = None ∧
          checkInProgress s = false ∧ stopped s = false).
Proof.
  intros interval minimum. subst interval minimum.
  unfold Scheduler.constructor, effectiveMinimum.
  set (minimum := or_number _ _).
  repeat split.
  - intros H. subst minimum. by rewrite H.
  - intros H. by destruct (N.ltb_spec (SchedulerConfig.interval schedulerConfig) minimum); [|lia].
  - intros H Hb. destruct (N.ltb_spec (SchedulerConfig.interval schedulerConfig) minimum); [lia|].
    by rewrite Hb.
  - intros H Hb. destruct (N.ltb_spec (SchedulerConfig.interval schedulerConfig) minimum); [lia|].
    destruct (Config.browsers systemConfig) as [|b bs] eqn:Hbs; [done|].
    simpl. eexists. split; [reflexivity|]. done.
Qed.

(** C8, counterexample: the default interval with an empty browser
    list. *)
Lemma constructor_fails_without_browsers :
  (effectiveMinimum fiveMinutes ≤ SchedulerConfig.interval fiveMinutes)%N ∧
  Scheduler.constructor fiveMinutes noBrowsers = inl EmptyBrowserPool.
Proof. split; [vm_compute; discriminate | reflexivity]. Qed.

Lemma constructor_validates_witness :
  Scheduler.constructor (SchedulerConfig.mk 299999 None) oneBrowser
    = inl (IntervalBelowMinimum 300000) ∧
  Scheduler.constructor fiveMinutes noBrowsers = inl EmptyBrowserPool ∧
  ∃ s, Scheduler.constructor fiveMinutes oneBrowser = inr s ∧
       config s = fiveMinutes ∧ timerId s = None ∧
       checkInProgress s = false ∧ stopped s = false.
Proof.
  split; [|split].
  - apply (proj1 (proj2 (constructor_validates (SchedulerConfig.mk 299999 None) oneBrowser))).
    reflexivity.
  - apply (proj1 (proj2 (proj2 (constructor_validates fiveMinutes noBrowsers)))).
    + vm_compute; discriminate.
    + reflexivity.
  - apply (proj2 (proj2 (proj2 (constructor_validates fiveMinutes oneBrowser)))).
    + vm_compute; discriminate.
    + discriminate.
Defined.

Example constructor_exampleScheduler :
  Scheduler.constructor fiveMinutes oneBrowser = inr exampleScheduler.
Proof. reflexivity. Qed.

Example constructor_webhookScheduler :
  Scheduler.constructor fiveMinutes withWebhook = inr webhookScheduler.
Proof. reflexivity. Qed.

(** ** Tasks run alone

    [run_task] commutes with the combinators of [Prog]. *)

Lemma run_task_andThen {A B : Type} w (p : Prog A) (f : Outcome A → Prog B) : ∀ e,
  run_task w (andThen p f) e = run_task w (f (run_task w p e).1) (run_task w p e).2.
Proof.
  induction p as [a|err|R op k IH|R c k IH]; intros e; simpl; [done|done| |apply IH].
  destruct (handle w op e) as [r e']. apply IH.
Qed.

Lemma run_task_bind {A B : Type} w (p : Prog A) (f : A → Prog B) e :
  run_task w (bind p f) e =
    let '(o, e') := run_task w p e in
    match o with
    | Resolved a => run_task w (f a) e'
    | Rejected err => (Rejected err, e')
    end.
Proof. unfold bind. rewrite run_task_andThen. by destruct (run_task w p e) as [[] ?]. Qed.

Lemma run_task_try_catch {A : Type} w (p : Prog A) (h : Error → Prog A) e :
  run_task w (try_catch p h) e =
    let '(o, e') := run_task w p e in
    match o with
    | Resolved a => (Resolved a, e')
    | Rejected err => run_task w (h err) e'
    end.
Proof. unfold try_catch. rewrite run_task_andThen. by destruct (run_task w p e) as [[] ?]. Qed.

Lemma run_task_settle {A : Type} w (o : Outcome A) e : run_task w (settle o) e = (o, e).
Proof. by destruct o. Qed.

Lemma run_task_try_finally {A : Type} w (p : Prog A) (fin : Prog unit) e :
  run_task w (try_finally p fin) e =
    let '(o, e') := run_task w p e in
    let '(o', e'') := run_task w fin e' in
    match o' with
    | Resolved _ => (o, e'')
    | Rejected err => (Rejected err, e'')
    end.
Proof.
  unfold try_finally. rewrite run_task_andThen, run_task_bind.
  destruct (run_task w p e) as [o e']; simpl.
  destruct (run_task w fin e') as [[] e'']; [|done]. by rewrite run_task_settle.
Qed.

Lemma run_task_await_async {A : Type} w (p : Prog A) e :
  run_task w (await_async p) e = run_task w p e.
Proof.
  unfold await_async. rewrite run_task_andThen. simpl.
  rewrite run_task_settle. by destruct (run_task w p e).
Qed.

Lemma same_state_refl e : same_state e e.
Proof. done. Qed.

Lemma same_state_trans e1 e2 e3 : same_state e1 e2 → same_state e2 e3 → same_state e1 e3.
Proof. unfold same_state. intros (?&?&?&?&?) (?&?&?&?&?). repeat split; congruence. Qed.

(** ** Webhook delivery *)

Import WebhookClient.

(** One attempt: the POST, and whether [sendRequest] throws. *)
Lemma run_task_sendRequest w config mutations account e :
  let payload := WebhookPayload.mk (clock e) account mutations in
  let o := respond w _ (length (calls e)) (Fetch (WebhookConfig.url config) payload) in
  let r := run_task w (sendRequest config mutations account) e in
  r.1 = match requestError o with Some err => Rejected err | None => Resolved tt end ∧
  calls r.2 = calls e ++ [anyCall (Fetch (WebhookConfig.url config) payload)] ∧
  clock r.2 = clock e ∧ same_state e r.2.
Proof.
  simpl. destruct (respond w _ _ _) as [response|err]; simpl; [|done].
  destruct (Response.ok response); simpl; done.
Qed.

Section Delivery.
Context (w : World) (config : WebhookConfig.t)
        (mutations : list MutationRecord.t) (account : string).

(** One iteration of the retry loop. *)
Lemma retryLoop_step attempts iterations attempt lastError e :
  run_task w (retryLoop config mutations account attempts (S iterations) attempt lastError) e
  = match requestError (respond w _ (length (calls e)) (post config mutations account e)) with
    | None => (Resolved tt, afterSuccess config mutations account e)
    | Some err =>
        run_task w (retryLoop config mutations account attempts iterations
                              (attempt + 1)%N (Some err))
                 (afterFailure config mutations account attempts attempt e)
    end.
Proof.
  cbn [retryLoop]. rewrite run_task_andThen, run_task_bind, run_task_await_async.
  unfold afterFailure, afterSuccess, post. simpl.
  destruct (respond w _ _ _) as [response|err]; simpl.
  - destruct (Response.ok response); simpl; [done|].
    destruct (N.ltb attempt attempts); simpl; done.
  - destruct (N.ltb attempt attempts); simpl; done.
Qed.

Lemma afterFailure_calls attempts attempt e :
  calls (afterFailure config mutations account attempts attempt e)
  = calls e ++ anyCall (post config mutations account e) ::
      (if (attempt <? attempts)%N then [anyCall (Sleep (calculateBackoff attempt))] else []).
Proof.
  unfold afterFailure. destruct (attempt <? attempts)%N; simpl; [|done].
  by rewrite <- app_assoc.
Qed.

Lemma afterFailure_same_state attempts attempt e :
  same_state e (afterFailure config mutations account attempts attempt e).
Proof. unfold afterFailure. by destruct (attempt <? attempts)%N. Qed.

Lemma calculateBackoff_of_nat a :
  calculateBackoff (N.of_nat a) = (2 ^ N.of_nat (a - 1) * 1000)%N.
Proof.
  unfold calculateBackoff. do 2 f_equal.
  by rewrite Nat2N.inj_sub.
Qed.

Lemma attemptSteps_S limit first count :
  attemptSteps limit first (S count)
  = Attempt :: (if first <? limit then [Pause (2 ^ N.of_nat (first - 1) * 1000)%N] else [])
    ++ attemptSteps limit (S first) count.
Proof. reflexivity. Qed.

Lemma ltb_of_nat a n : (N.of_nat a <? N.of_nat n)%N = (a <? n).
Proof.
  destruct (Nat.ltb_spec a n), (N.ltb_spec (N.of_nat a) (N.of_nat n)); (done || lia).
Qed.

(** When every request fails, the loop makes all the attempts left and
    raises the delivery failure with the last error. *)
Lemma retryLoop_exhausted n :
  (∀ seq url payload, requestError (respond w _ seq (Fetch url payload)) ≠ None) →
  ∀ iterations a lastError e,
    a + iterations = n + 1 →
    let r := run_task w (retryLoop config mutations account (N.of_nat n) iterations
                                   (N.of_nat a) lastError) e in
    ∃ tr last,
      calls r.2 = calls e ++ tr ∧
      stepOf <$> tr = attemptSteps n a iterations ∧
      same_state e r.2 ∧
      r.1 = Rejected (deliveryFailure (N.of_nat n) last) ∧
      (iterations = 0 → last = lastError) ∧
      (0 < iterations →
         ∃ url payload,
           requestError (respond w _ (length (calls e) + 2 * (iterations - 1))
                                 (Fetch url payload)) = last).
Proof.
  intros Hfail. induction iterations as [|it IH]; intros a lastError e Ha r.
  - exists [], lastError. subst r; simpl. rewrite app_nil_r.
    repeat split; (done || lia).
  - subst r. rewrite retryLoop_step.
    destruct (requestError (respond w _ (length (calls e)) (post config mutations account e))) as [err|] eqn:Herr;
      [|by apply Hfail in Herr].
    replace (N.of_nat a + 1)%N with (N.of_nat (S a)) by (by rewrite Nat2N.inj_succ, N.add_1_r).
    destruct (IH (S a) (Some err) (afterFailure config mutations account (N.of_nat n) (N.of_nat a) e))
      as (tr & last & Hcalls & Hsteps & Hsame & Hout & Hlast0 & Hlast); [lia|].
    rewrite afterFailure_calls, ltb_of_nat, calculateBackoff_of_nat in Hcalls.
    eexists _, last. split; [|split; [|split; [|split; [|split]]]].
    + rewrite Hcalls, <- app_assoc. reflexivity.
    + rewrite attemptSteps_S, <- Hsteps.
      destruct (a <? n); simpl; done.
    + eapply same_state_trans; [apply afterFailure_same_state|exact Hsame].
    + exact Hout.
    + done.
    + intros _. destruct it as [|it].
      * rewrite Hlast0 by done. unfold post in Herr.
        eexists _, _. rewrite Nat.add_0_r. exact Herr.
      * destruct Hlast as (url & payload & Hlast); [lia|].
        exists url, payload. rewrite <- Hlast.
        rewrite afterFailure_calls, length_app, ltb_of_nat.
        replace (a <? n) with true by (symmetry; apply Nat.ltb_lt; lia).
        simpl length.
        by replace (length (calls e) + 2 * (S (S it) - 1))
          with (length (calls e) + 2 + 2 * (S it - 1)) by lia.
Qed.

(** When attempt [j] of those left is the first to succeed, the loop stops
    right after its POST. *)
Lemma retryLoop_succeeds n j : ∀ iterations a lastError e,
  1 ≤ j ≤ iterations → a + iterations = n + 1 →
  (∀ i url payload, i < j - 1 →
     requestError (respond w _ (length (calls e) + 2 * i) (Fetch url payload)) ≠ None) →
  (∀ url payload,
     requestError (respond w _ (length (calls e) + 2 * (j - 1)) (Fetch url payload)) = None) →
  let r := run_task w (retryLoop config mutations account (N.of_nat n) iterations
                                 (N.of_nat a) lastError) e in
  ∃ tr, calls r.2 = calls e ++ tr ∧
        stepOf <$> tr = attemptSteps (a + j - 1) a j ∧
        same_state e r.2 ∧ r.1 = Resolved tt.
Proof.
  induction j as [|j IH]; intros iterations a lastError e Hj Ha Hfail Hok r; [lia|].
  destruct iterations as [|it]; [lia|].
  subst r. rewrite retryLoop_step.
  destruct j as [|j].
  - rewrite Nat.add_0_r in Hok. unfold post. rewrite Hok.
    eexists. split; [simpl; reflexivity|].
    split; [|done].
    replace (a + 1 - 1) with a by lia.
    rewrite attemptSteps_S, Nat.ltb_irrefl. reflexivity.
  - destruct (requestError (respond w _ (length (calls e)) (post config mutations account e))) as [err|] eqn:Herr.
    2: { exfalso. eapply (Hfail 0); [lia|]. rewrite Nat.add_0_r. exact Herr. }
    replace (N.of_nat a + 1)%N with (N.of_nat (S a)) by (by rewrite Nat2N.inj_succ, N.add_1_r).
    assert ((a <? n) = true) as Hlt by (apply Nat.ltb_lt; lia).
    assert (length (calls (afterFailure config mutations account (N.of_nat n) (N.of_nat a) e)) = length (calls e) + 2)
      as Hlen.
    { rewrite afterFailure_calls, length_app, ltb_of_nat, Hlt. simpl. lia. }
    destruct (IH it (S a) (Some err) (afterFailure config mutations account (N.of_nat n) (N.of_nat a) e))
      as (tr & Hcalls & Hsteps & Hsame & Hout); [lia|lia| | |].
    + intros i url payload Hi. rewrite Hlen.
      replace (length (calls e) + 2 + 2 * i) with (length (calls e) + 2 * S i) by lia.
      apply Hfail. lia.
    + intros url payload. rewrite Hlen.
      replace (length (calls e) + 2 + 2 * (S j - 1))
        with (length (calls e) + 2 * (S (S j) - 1)) by lia.
      apply Hok.
    + rewrite afterFailure_calls, ltb_of_nat, Hlt, calculateBackoff_of_nat in Hcalls.
      eexists. split; [rewrite Hcalls, <- app_assoc; reflexivity|].
      split; [|split; [|exact Hout]].
      * rewrite fmap_app, Hsteps, (attemptSteps_S _ a).
        replace (a <? a + S (S j) - 1) with true by (symmetry; apply Nat.ltb_lt; lia).
        replace (S a + S j - 1) with (a + S (S j) - 1) by lia.
        reflexivity.
      * eapply same_state_trans; [apply afterFailure_same_state|exact Hsame].
Qed.

End Delivery.

Lemma attemptSteps_app limit first c1 c2 :
  attemptSteps limit first (c1 + c2)
  = attemptSteps limit first c1 ++ attemptSteps limit (first + c1) c2.
Proof. unfold attemptSteps. by rewrite seq_app, flat_map_app. Qed.

Lemma attemptSteps_count limit first count :
  length (List.filter isAttempt (attemptSteps limit first count)) = count.
Proof.
  revert first. induction count as [|c IH]; intros first; [done|].
  rewrite attemptSteps_S. simpl. destruct (first <? limit); simpl; by rewrite IH.
Qed.

Lemma attemptSteps_pauses_below limit first count :
  first + count ≤ limit →
  omap pauseOf (attemptSteps limit first count)
  = (λ attempt, (2 ^ N.of_nat (attempt - 1) * 1000)%N) <$> seq first count.
Proof.
  revert first. induction count as [|c IH]; intros first H; [done|].
  rewrite attemptSteps_S.
  replace (first <? limit) with true by (symmetry; apply Nat.ltb_lt; lia).
  simpl. f_equal. apply IH. lia.
Qed.

Lemma attemptSteps_pauses n :
  omap pauseOf (attemptSteps n 1 n)
  = (λ attempt, (2 ^ N.of_nat (attempt - 1) * 1000)%N) <$> seq 1 (n - 1).
Proof.
  destruct n as [|n]; [done|].
  replace (S n) with (n + 1) at 2 by lia.
  rewrite attemptSteps_app, omap_app, attemptSteps_pauses_below by lia.
  replace (S n - 1) with n by lia.
  unfold attemptSteps. simpl.
  replace (S n <? S n) with false by (symmetry; apply Nat.ltb_irrefl).
  simpl. by rewrite app_nil_r.
Qed.

(** C6. [sendWithRetry] with [A >= 1] attempts.  Against an endpoint
    that fails every request, the calls it makes are exactly attempts
    [1..A], each a POST followed, except for the last, by a sleep of
    [2^(attempt-1)] seconds: [A] POSTs and [A - 1] sleeps of 1, 2, 4,
    ... seconds; it then rejects with the delivery failure that names
    [A] and the error of the last attempt.  If attempt [j] is the first
    to succeed, it makes attempts [1..j] with the [j - 1] sleeps
    between them and resolves: nothing follows the successful POST. *)
Theorem sendWithRetry_attempts (w : World) (config : WebhookConfig.t)
    (mutations : list MutationRecord.t) (account : string) (A : N) (e : Env) :
  (1 ≤ A)%N →
  let n := N.to_nat A in
  let r := run_task w (sendWithRetry config mutations account A) e in
  ((∀ seq url payload, requestError (respond w _ seq (Fetch url payload)) ≠ None) →
     ∃ tr lastError,
       calls r.2 = calls e ++ tr ∧
       stepOf <$> tr = attemptSteps n 1 n ∧
       length (List.filter isAttempt (stepOf <$> tr)) = n ∧
       omap pauseOf (stepOf <$> tr)
         = (λ attempt, (2 ^ N.of_nat (attempt - 1) * 1000)%N) <$> seq 1 (n - 1) ∧
       r.1 = Rejected (deliveryFailure A (Some lastError)) ∧
       ∃ url payload,
         requestError (respond w _ (length (calls e) + 2 * (n - 1)) (Fetch url payload))
         = Some lastError) ∧
  (∀ j, 1 ≤ j ≤ n →
     (∀ i url payload, i < j - 1 →
        requestError (respond w _ (length (calls e) + 2 * i) (Fetch url payload)) ≠ None) →
     (∀ url payload,
        requestError (respond w _ (length (calls e) + 2 * (j - 1)) (Fetch url payload))
        = None) →
     ∃ tr, calls r.2 = calls e ++ tr ∧ stepOf <$> tr = attemptSteps j 1 j ∧
           r.1 = Resolved tt).
Proof.
  intros HA n r. subst r n. unfold sendWithRetry.
  set (n := N.to_nat A).
  assert (A = N.of_nat n) as HAn by (subst n; by rewrite N2Nat.id).
  assert (1 ≤ n) as Hn by (subst n; lia).
  clearbody n. subst A. change 1%N with (N.of_nat 1).
  split.
  - intros Hfail.
    destruct (retryLoop_exhausted w config mutations account n Hfail n 1 None e)
      as (tr & last & Hcalls & Hsteps & _ & Hout & _ & Hlast); [lia|].
    destruct Hlast as (url & payload & Hlast); [lia|].
    destruct last as [lastError|]; [|by apply Hfail in Hlast].
    exists tr, lastError. rewrite Hsteps, attemptSteps_count, attemptSteps_pauses.
    eauto 10.
  - intros j Hj Hfail Hok.
    destruct (retryLoop_succeeds w config mutations account n j n 1 None e)
      as (tr & Hcalls & Hsteps & _ & Hout); [lia|lia|done|done|].
    exists tr. replace (1 + j - 1) with j in Hsteps by lia. done.
Qed.

Lemma sendWithRetry_attempts_witness :
  (∃ tr lastError,
     calls (run_task endpointDown
              (WebhookClient.sendWithRetry webhookZero [exampleRecord] "test-user" 3%N)
              (freshEnv webhookScheduler)).2
       = calls (freshEnv webhookScheduler) ++ tr ∧
     stepOf <$> tr = attemptSteps 3 1 3 ∧
     length (List.filter isAttempt (stepOf <$> tr)) = 3 ∧
     omap pauseOf (stepOf <$> tr)
       = (λ attempt, (2 ^ N.of_nat (attempt - 1) * 1000)%N) <$> seq 1 2 ∧
     (run_task endpointDown
        (WebhookClient.sendWithRetry webhookZero [exampleRecord] "test-user" 3%N)
        (freshEnv webhookScheduler)).1
       = Rejected (WebhookClient.deliveryFailure 3%N (Some lastError)) ∧
     ∃ url payload,
       requestError (respond endpointDown _
                       (length (calls (freshEnv webhookScheduler)) + 2 * 2)
                       (Fetch url payload))
       = Some lastError) ∧
  (∃ tr,
     calls (run_task endpointFlaky
              (WebhookClient.sendWithRetry webhookZero [exampleRecord] "test-user" 3%N)
              (freshEnv webhookScheduler)).2
       = calls (freshEnv webhookScheduler) ++ tr ∧
     stepOf <$> tr = attemptSteps 2 1 2 ∧
     (run_task endpointFlaky
        (WebhookClient.sendWithRetry webhookZero [exampleRecord] "test-user" 3%N)
        (freshEnv webhookScheduler)).1 = Resolved tt).
Proof.
  split.
  - apply (proj1 (sendWithRetry_attempts endpointDown webhookZero [exampleRecord]
                    "test-user" 3%N (freshEnv webhookScheduler) ltac:(lia))).
    intros seq url payload. discriminate.
  - apply (proj2 (sendWithRetry_attempts endpointFlaky webhookZero [exampleRecord]
                    "test-user" 3%N (freshEnv webhookScheduler) ltac:(lia)) 2).
    + simpl. lia.
    + intros i url payload Hi. assert (i = 0) as -> by lia. discriminate.
    + intros url payload. reflexivity.
Defined.

Example sendWithRetry_trace :
  stepOf <$> calls (run_task endpointDown
                      (WebhookClient.sendWithRetry webhookZero [exampleRecord] "test-user" 3%N)
                      (freshEnv webhookScheduler)).2
  = [Attempt; Pause 1000%N; Attempt; Pause 2000%N; Attempt].
Proof. vm_compute. reflexivity. Qed.

Lemma or_number_pos a b : (1 ≤ b)%N → (1 ≤ or_number a b)%N.
Proof.
  intros Hb. unfold or_number. destruct a as [n|]; [|done].
  destruct (N.eqb_spec n 0); lia.
Qed.

Lemma run_task_send_fails w config mutations account e :
  (∀ seq url payload, requestError (respond w _ seq (Fetch url payload)) ≠ None) →
  let A := or_number (WebhookConfig.retryAttempts config) 3 in
  let r := run_task w (send config mutations account) e in
  ∃ tr lastError,
    calls r.2 = calls e ++ tr ∧
    stepOf <$> tr = attemptSteps (N.to_nat A) 1 (N.to_nat A) ∧
    same_state e r.2 ∧
    r.1 = Rejected (deliveryFailure A (Some lastError)).
Proof.
  intros Hfail A r. subst r. unfold send. rewrite run_task_await_async.
  fold A. unfold sendWithRetry.
  assert (1 ≤ A)%N as HA by (apply or_number_pos; lia).
  set (n := N.to_nat A).
  assert (A = N.of_nat n) as HAn by (subst n; by rewrite N2Nat.id).
  assert (1 ≤ n) as Hn by (subst n; lia).
  clearbody n. rewrite HAn. change 1%N with (N.of_nat 1).
  destruct (retryLoop_exhausted w config mutations account n Hfail n 1 None e)
    as (tr & last & Hcalls & Hsteps & Hsame & Hout & _ & Hlast); [lia|].
  destruct Hlast as (url & payload & Hlast); [lia|].
  destruct last as [lastError|]; [|by apply Hfail in Hlast].
  exists tr, lastError. eauto.
Qed.

(** C10. With [retryAttempts] absent or 0, [send] runs
    [sendWithRetry] with 3 attempts: against an endpoint that fails
    every request it makes 3 POSTs with sleeps of 1 s and 2 s between
    them and reports the failure after 3 attempts.  The error context
    [performCheck] builds for a delivery failure has [maxAttempts] 3 as
    well. *)
Theorem zero_retryAttempts_defaults_to_three (w : World) (config : WebhookConfig.t)
    (mutations : list MutationRecord.t) (account : string) (e : Env) :
  WebhookConfig.retryAttempts config = None ∨
  WebhookConfig.retryAttempts config = Some 0%N →
  let r := run_task w (WebhookClient.send config mutations account) e in
  WebhookClient.send config mutations account
  = await_async (WebhookClient.sendWithRetry config mutations account 3%N) ∧
  ((∀ seq url payload, requestError (respond w _ seq (Fetch url payload)) ≠ None) →
     ∃ tr lastError,
       calls r.2 = calls e ++ tr ∧
       stepOf <$> tr = [Attempt; Pause 1000%N; Attempt; Pause 2000%N; Attempt] ∧
       r.1 = Rejected (WebhookClient.deliveryFailure 3%N (Some lastError))) ∧
  (∀ url, or_number (Some (WebhookSettings.mk url (WebhookConfig.retryAttempts config))
                       ≫= WebhookSettings.retryAttempts) 3%N = 3%N).
Proof.
  intros Hzero r. subst r.
  assert (or_number (WebhookConfig.retryAttempts config) 3%N = 3%N) as Hthree.
  { by destruct Hzero as [-> | ->]. }
  split; [|split].
  - unfold WebhookClient.send. by rewrite Hthree.
  - intros Hfail.
    destruct (run_task_send_fails w config mutations account e Hfail)
      as (tr & lastError & Hcalls & Hsteps & _ & Hout).
    rewrite Hthree in Hsteps, Hout. eauto.
  - intros url. exact Hthree.
Qed.

Lemma zero_retryAttempts_defaults_to_three_witness :
  WebhookClient.send webhookZero [exampleRecord] "test-user"
  = await_async (WebhookClient.sendWithRetry webhookZero [exampleRecord] "test-user" 3%N) ∧
  ∃ tr lastError,
    calls (run_task endpointDown (WebhookClient.send webhookZero [exampleRecord] "test-user")
             (freshEnv webhookScheduler)).2
      = calls (freshEnv webhookScheduler) ++ tr ∧
    stepOf <$> tr = [Attempt; Pause 1000%N; Attempt; Pause 2000%N; Attempt] ∧
    (run_task endpointDown (WebhookClient.send webhookZero [exampleRecord] "test-user")
       (freshEnv webhookScheduler)).1
      = Rejected (WebhookClient.deliveryFailure 3%N (Some lastError)).
Proof.
  split.
  - apply (zero_retryAttempts_defaults_to_three endpointDown webhookZero [exampleRecord]
             "test-user" (freshEnv webhookScheduler)).
    right. reflexivity.
  - apply (zero_retryAttempts_defaults_to_three endpointDown webhookZero [exampleRecord]
             "test-user" (freshEnv webhookScheduler)).
    + right. reflexivity.
    + intros seq url payload. discriminate.
Defined.

(** ** The steps of a check cycle *)

Lemma run_task_perform {R B : Type} w (op : Op R) (f : R → Prog B) e :
  run_task w (bind (perform op) f) e = run_task w (f (handle w op e).1) (handle w op e).2.
Proof. simpl. by destruct (handle w op e). Qed.

Lemma run_task_await {R B : Type} w (c : Call R) (f : R → Prog B) e :
  run_task w (bind (await c) f) e =
    match answer w (length (calls e)) c with
    | Resolved a => run_task w (f a) (elapse c (issue c e))
    | Rejected err => (Rejected err, elapse c (issue c e))
    end.
Proof. simpl. by destruct (answer w (length (calls e)) c). Qed.

Lemma run_task_handleError w error context e :
  let r := run_task w (ErrorHandler.handleError error context) e in
  r.1 = Resolved (ErrorHandler.determineAction (ErrorHandler.categorizeError error) context
                    (ErrorHandler.isRecoverable (ErrorHandler.categorizeError error) context)) ∧
  calls r.2 = calls e ∧ same_state e r.2.
Proof.
  unfold ErrorHandler.handleError, ErrorHandler.logError.
  destruct (ErrorHandler.isRecoverable _ _); simpl; done.
Qed.

Lemma run_task_logout w session e :
  let r := run_task w (SessionManager.logout session) e in
  r.1 = Resolved tt ∧
  calls r.2 = calls e ++
    [anyCall (PageGoto (BrowserSession.page session) SessionManager.BCA_LOGOUT_URL)] ∧
  same_state e r.2.
Proof.
  unfold SessionManager.logout. simpl.
  destruct (respond w _ _ _) as [[]|err]; simpl; done.
Qed.

Lemma run_task_closeSession w session e :
  let r := run_task w (SessionManager.closeSession session) e in
  r.1 = Resolved tt ∧
  calls r.2 = calls e ++
    [anyCall (PageClose (BrowserSession.page session));
     anyCall (BrowserClose (BrowserSession.browser session))] ∧
  same_state e r.2.
Proof.
  unfold SessionManager.closeSession. simpl.
  destruct (respond w _ _ (PageClose _)) as [[]|err1]; simpl;
    destruct (respond w _ _ (BrowserClose _)) as [[]|err2]; simpl;
    rewrite <- app_assoc; done.
Qed.

(** Rotation draws and logging leave the rest of the state alone. *)
Lemma handle_rotates w {R : Type} (op : Op R) e :
  rotates op = true → outside_pools e (handle w op e).2.
Proof.
  unfold outside_pools.
  destruct op; simpl; try done; intros _.
  - by destruct (UserAgentRotator.getNextUserAgent _ _).
  - destruct (proxyRotator (this e)); [|done].
    by destruct (ProxyRotator.getNextProxy _).
  - by destruct (proxyRotator (this e)).
Qed.

Lemma outside_pools_trans e1 e2 e3 :
  outside_pools e1 e2 → outside_pools e2 e3 → outside_pools e1 e3.
Proof. unfold outside_pools. congruence. Qed.

Lemma outside_pools_fields e e' :
  outside_pools e e' →
  session e' = session e ∧ calls e' = calls e ∧ clock e' = clock e ∧
  checkInProgress (this e') = checkInProgress (this e) ∧
  webhookClient (this e') = webhookClient (this e) ∧
  systemConfig (this e') = systemConfig (this e) ∧
  results e' = results e ∧ timers e' = timers e ∧ scheduled e' = scheduled e.
Proof.
  unfold outside_pools, without_pools. intros [=]. repeat split; congruence.
Qed.

(** ** A cycle whose delivery fails *)

Section DeliveryFailure.
Context (w : World) (client : WebhookConfig.t)
        (session0 : BrowserSession.t) (raw : list RawMutationData.t).
Hypothesis createSession_ok : ∀ seq options,
  respond w _ seq (CreateSession options) = Resolved session0.
Hypothesis login_ok : ∀ seq s c, respond w _ seq (Login s c) = Resolved tt.
Hypothesis navigate_ok : ∀ seq p, respond w _ seq (NavigateToMutationPage p) = Resolved tt.
Hypothesis scrape_ok : ∀ seq p, respond w _ seq (Scrape p) = Resolved raw.
Hypothesis parsed : 0 < length (parseAll w raw).
Hypothesis delivery_fails : ∀ seq url payload,
  requestError (respond w _ seq (Fetch url payload)) ≠ None.

(** The [try] block resolves although the delivery failed, and goes on to
    log out. *)
Lemma performCheck_try_delivery_failure e :
  webhookClient (this e) = Some client →
  let r := run_task w Scheduler.performCheck_try e in
  let n := N.to_nat (or_number (WebhookConfig.retryAttempts client) 3) in
  r.1 = Resolved tt ∧
  session r.2 = Some session0 ∧
  checkInProgress (this r.2) = checkInProgress (this e) ∧
  ∃ before delivery,
    calls r.2 = calls e ++ before ++ delivery ++
      [anyCall (PageGoto (BrowserSession.page session0) SessionManager.BCA_LOGOUT_URL)] ∧
    stepOf <$> delivery = attemptSteps n 1 n.
Proof.
  intros configured r n. subst r.
  destruct (run_task w Scheduler.performCheck_try e) as [o ef] eqn:Hrun.
  unfold Scheduler.performCheck_try in Hrun.
  rewrite run_task_perform in Hrun.
  pose proof (handle_rotates w GetNextBrowser e eq_refl) as H1.
  set (b := (handle w GetNextBrowser e).1) in *.
  set (e1 := (handle w GetNextBrowser e).2) in *.
  clearbody b e1. rewrite run_task_perform in Hrun.
  pose proof (handle_rotates w (GetNextUserAgent b) e1 eq_refl) as H2.
  set (ua := (handle w (GetNextUserAgent b) e1).1) in *.
  set (e2 := (handle w (GetNextUserAgent b) e1).2) in *.
  clearbody ua e2. rewrite run_task_perform in Hrun.
  pose proof (handle_rotates w GetNextProxy e2 eq_refl) as H3.
  set (px := (handle w GetNextProxy e2).1) in *.
  set (e3 := (handle w GetNextProxy e2).2) in *.
  clearbody px e3.
  pose proof (outside_pools_fields _ _
                (outside_pools_trans _ _ _ (outside_pools_trans _ _ _ H1 H2) H3))
    as (Hsess & Hcalls & Hclock & Hflag & Hclient & Hsys & _).
  clear H1 H2 H3 e1 e2.
  rewrite run_task_perform in Hrun. cbn [handle fst snd] in Hrun.
  rewrite run_task_await in Hrun. cbn [answer] in Hrun. rewrite createSession_ok in Hrun.
  rewrite run_task_perform in Hrun. cbn [handle fst snd] in Hrun.
  rewrite run_task_perform in Hrun. cbn [handle fst snd] in Hrun.
  rewrite run_task_await in Hrun. cbn [answer] in Hrun. rewrite login_ok in Hrun.
  rewrite run_task_await in Hrun. cbn [answer] in Hrun. rewrite navigate_ok in Hrun.
  rewrite run_task_await in Hrun. cbn [answer] in Hrun. rewrite scrape_ok in Hrun.
  rewrite run_task_perform in Hrun. cbn [handle fst snd] in Hrun.
  rewrite run_task_perform in Hrun. cbn [handle fst snd] in Hrun.
  rewrite run_task_perform in Hrun. cbn [handle fst snd] in Hrun.
  simpl this in Hrun. rewrite Hclient, configured in Hrun.
  replace (0 <? length (parseAll w raw)) with true in Hrun
    by (symmetry; by apply Nat.ltb_lt).
  rewrite run_task_bind, run_task_try_catch, run_task_await_async in Hrun.
  match type of Hrun with context [run_task w (WebhookClient.send ?c ?m ?a) ?e0] =>
    destruct (run_task_send_fails w c m a e0 delivery_fails)
      as (tr & lastError & Hcalls4 & Hsteps & Hsame4 & Hout4);
    destruct (run_task w (WebhookClient.send c m a) e0) as [o4 e4]
  end.
  simpl in Hout4, Hcalls4, Hsame4. subst o4.
  rewrite run_task_perform in Hrun. cbn [handle fst snd] in Hrun.
  rewrite run_task_bind in Hrun.
  match type of Hrun with context [run_task w (ErrorHandler.handleError ?err ?ctx) ?e0] =>
    destruct (run_task_handleError w err ctx e0) as (Hout5 & Hcalls5 & Hsame5);
    destruct (run_task w (ErrorHandler.handleError err ctx) e0) as [o5 e5]
  end.
  simpl in Hout5, Hcalls5, Hsame5. subst o5.
  cbn [run_task] in Hrun.
  rewrite run_task_await_async in Hrun.
  destruct (run_task_logout w session0 e5) as (Hout6 & Hcalls6 & Hsame6).
  rewrite Hrun in Hout6, Hcalls6, Hsame6. simpl in Hout6, Hcalls6, Hsame6. subst o.
  destruct Hsame4 as (Hthis4 & Hsess4 & _), Hsame5 as (Hthis5 & Hsess5 & _),
           Hsame6 as (Hthis6 & Hsess6 & _).
  simpl. split; [done|]. split; [|split].
  - rewrite Hsess6, Hsess5, Hsess4. done.
  - rewrite Hthis6, Hthis5, Hthis4. simpl. done.
  - rewrite Hcalls6, Hcalls5, Hcalls4. simpl. rewrite Hcalls.
    rewrite <- !app_assoc. simpl.
    eexists [_; _; _; _], tr. split; [reflexivity|exact Hsteps].
Qed.

(** So does [performCheck], which then releases the session. *)
Lemma performCheck_delivery_failure e :
  webhookClient (this e) = Some client →
  let r := run_task w Scheduler.performCheck e in
  let n := N.to_nat (or_number (WebhookConfig.retryAttempts client) 3) in
  r.1 = Resolved tt ∧
  checkInProgress (this r.2) = checkInProgress (this e) ∧
  ∃ before delivery,
    calls r.2 = calls e ++ before ++ delivery ++
      [anyCall (PageGoto (BrowserSession.page session0) SessionManager.BCA_LOGOUT_URL);
       anyCall (PageClose (BrowserSession.page session0));
       anyCall (BrowserClose (BrowserSession.browser session0))] ∧
    stepOf <$> delivery = attemptSteps n 1 n.
Proof.
  intros configured r n. subst r.
  destruct (run_task w Scheduler.performCheck e) as [o ef] eqn:Hrun.
  unfold Scheduler.performCheck in Hrun.
  rewrite run_task_perform in Hrun. cbn [handle fst snd] in Hrun.
  rewrite run_task_try_finally, run_task_try_catch in Hrun.
  destruct (performCheck_try_delivery_failure (set_session None e) configured)
    as (Hout1 & Hsess1 & Hflag1 & before & delivery & Hcalls1 & Hsteps).
  destruct (run_task w Scheduler.performCheck_try (set_session None e)) as [o1 e1].
  simpl in Hout1, Hsess1, Hflag1, Hcalls1. subst o1.
  unfold Scheduler.performCheck_finally in Hrun.
  rewrite run_task_perform in Hrun. cbn [handle fst snd] in Hrun.
  rewrite Hsess1, run_task_await_async in Hrun.
  destruct (run_task_closeSession w session0 e1) as (Hout2 & Hcalls2 & Hsame2).
  destruct (run_task w (SessionManager.closeSession session0) e1) as [o2 e2].
  simpl in Hout2, Hcalls2, Hsame2. subst o2. injection Hrun as <- <-.
  destruct Hsame2 as (Hthis2 & _).
  simpl. split; [done|]. split; [by rewrite Hthis2|].
  exists before, delivery. split; [|exact Hsteps].
  rewrite Hcalls2, Hcalls1. by rewrite <- !app_assoc.
Qed.

(** And the cycle is reported as a success. *)
Lemma executeCheck_delivery_failure e :
  webhookClient (this e) = Some client →
  checkInProgress (this e) = false →
  let r := run_task w Scheduler.executeCheck e in
  r.1 = Resolved (CheckResult.mk true (clock e) None None) ∧
  checkInProgress (this r.2) = false.
Proof.
  intros configured idle r. subst r.
  destruct (run_task w Scheduler.executeCheck e) as [o ef] eqn:Hrun.
  unfold Scheduler.executeCheck, Scheduler.executeCheckWith in Hrun.
  rewrite run_task_perform in Hrun. cbn [handle fst snd] in Hrun.
  rewrite idle in Hrun.
  rewrite run_task_perform in Hrun. cbn [handle fst snd] in Hrun.
  rewrite run_task_perform in Hrun. cbn [handle fst snd] in Hrun.
  unfold Scheduler.executeCheck_guarded in Hrun.
  rewrite run_task_try_finally, run_task_try_catch in Hrun.
  rewrite run_task_perform in Hrun. cbn [handle fst snd] in Hrun.
  rewrite run_task_bind, run_task_await_async in Hrun.
  match type of Hrun with context [run_task w Scheduler.performCheck ?e0] =>
    destruct (performCheck_delivery_failure e0) as (Hout1 & Hflag1 & _); [done|];
    destruct (run_task w Scheduler.performCheck e0) as [o1 e1]
  end.
  simpl in Hout1, Hflag1. subst o1.
  simpl in Hrun. injection Hrun as <- <-. done.
Qed.

End DeliveryFailure.

(** C7. A cycle in which the portal works, the parser yields at least
    one record and every webhook request fails.  [performCheck]
    resolves: the delivery failure, raised after the client's own
    retries, is not re-raised.  After the delivery attempts the cycle
    still logs out and closes the page and the browser.  And
    [executeCheck] reports [success: true]. *)
Theorem delivery_failure_absorbed (w : World) (e : Env) (client : WebhookConfig.t)
    (session0 : BrowserSession.t) (raw : list RawMutationData.t) :
  (∀ seq options, respond w _ seq (CreateSession options) = Resolved session0) →
  (∀ seq s c, respond w _ seq (Login s c) = Resolved tt) →
  (∀ seq p, respond w _ seq (NavigateToMutationPage p) = Resolved tt) →
  (∀ seq p, respond w _ seq (Scrape p) = Resolved raw) →
  0 < length (parseAll w raw) →
  webhookClient (this e) = Some client →
  (∀ seq url payload, requestError (respond w _ seq (Fetch url payload)) ≠ None) →
  let r := run_task w Scheduler.performCheck e in
  let n := N.to_nat (or_number (WebhookConfig.retryAttempts client) 3%N) in
  r.1 = Resolved tt ∧
  (∃ before delivery,
     calls r.2 = calls e ++ before ++ delivery ++
       [anyCall (PageGoto (BrowserSession.page session0) SessionManager.BCA_LOGOUT_URL);
        anyCall (PageClose (BrowserSession.page session0));
        anyCall (BrowserClose (BrowserSession.browser session0))] ∧
     stepOf <$> delivery = attemptSteps n 1 n) ∧
  (checkInProgress (this e) = false →
     (run_task w Scheduler.executeCheck e).1
     = Resolved (CheckResult.mk true (clock e) None None)).
Proof.
  intros H1 H2 H3 H4 H5 H6 H7 r n.
  destruct (performCheck_delivery_failure w client session0 raw H1 H2 H3 H4 H5 H7 e H6)
    as (Hout & _ & Hcalls).
  split; [exact Hout|]. split; [exact Hcalls|].
  intros Hidle.
  by destruct (executeCheck_delivery_failure w client session0 raw H1 H2 H3 H4 H5 H7 e H6 Hidle).
Qed.

Lemma delivery_failure_absorbed_witness :
  (run_task endpointDown Scheduler.performCheck (freshEnv webhookScheduler)).1 = Resolved tt ∧
  (∃ before delivery,
     calls (run_task endpointDown Scheduler.performCheck (freshEnv webhookScheduler)).2
     = calls (freshEnv webhookScheduler) ++ before ++ delivery ++
       [anyCall (PageGoto 2%N SessionManager.BCA_LOGOUT_URL);
        anyCall (PageClose 2%N); anyCall (BrowserClose 1%N)] ∧
     stepOf <$> delivery = attemptSteps 3 1 3) ∧
  (run_task endpointDown Scheduler.executeCheck (freshEnv webhookScheduler)).1
  = Resolved (CheckResult.mk true 0%N None None).
Proof.
  destruct (delivery_failure_absorbed endpointDown (freshEnv webhookScheduler) webhookZero
              exampleSession [exampleRaw]) as (Hout & Hcalls & Hcycle).
  - reflexivity.
  - reflexivity.
  - reflexivity.
  - reflexivity.
  - simpl. lia.
  - reflexivity.
  - intros seq url payload. discriminate.
  - split; [exact Hout|]. split; [exact Hcalls|]. apply Hcycle. reflexivity.
Defined.

Example delivery_failure_cycle :
  (run_task endpointDown Scheduler.executeCheck (freshEnv webhookScheduler)).1
  = Resolved (CheckResult.mk true 0%N None None) ∧
  stepOf <$> calls (run_task endpointDown Scheduler.executeCheck (freshEnv webhookScheduler)).2
  = [OtherCall; OtherCall; OtherCall; OtherCall;
     Attempt; Pause 1000; Attempt; Pause 2000; Attempt;
     OtherCall; OtherCall; OtherCall].
Proof. split; vm_compute; reflexivity. Qed.

(** ** The overlap guard

    The classes [Quiet], [Idle] and [Holder] are closed under the
    combinators of [Prog]. *)

Lemma Idle_Quiet {A : Type} (p : Prog A) : Idle p → Quiet p.
Proof.
  induction p as [a|err|R op k IH|R c k IH]; simpl; [done|done| |].
  - intros [Hop Hk]. split; [done|]. intros r. by apply IH.
  - intros [_ Hk] o. by apply IH.
Qed.

Lemma Quiet_andThen {A B : Type} (p : Prog A) (f : Outcome A → Prog B) :
  Quiet p → (∀ o, Quiet (f o)) → Quiet (andThen p f).
Proof.
  induction p as [a|err|R op k IH|R c k IH]; simpl; [by auto|by auto| |].
  - intros [Hop Hk] Hf. split; [done|]. intros r. by apply IH.
  - intros Hk Hf o. by apply IH.
Qed.

Lemma Idle_andThen {A B : Type} (p : Prog A) (f : Outcome A → Prog B) :
  Idle p → (∀ o, Idle (f o)) → Idle (andThen p f).
Proof.
  induction p as [a|err|R op k IH|R c k IH]; simpl; [by auto|by auto| |].
  - intros [Hop Hk] Hf. split; [done|]. intros r. by apply IH.
  - intros [Hc Hk] Hf. split; [done|]. intros o. by apply IH.
Qed.

Lemma Holder_andThen {A B : Type} (p : Prog A) (f : Outcome A → Prog B) :
  Holder p → (∀ o, Idle (f o)) → Holder (andThen p f).
Proof.
  induction p as [| |R op k IH|R c k IH]; simpl; try done.
  - intros Hp Hf. destruct (clearsFlag op).
    + intros r. by apply Idle_andThen.
    + destruct Hp as [Hop Hk]. split; [done|]. intros r. by apply IH.
  - intros Hk Hf o. by apply IH.
Qed.

Lemma Quiet_then_Holder {A B : Type} (p : Prog A) (f : Outcome A → Prog B) :
  Quiet p → (∀ o, Holder (f o)) → Holder (andThen p f).
Proof.
  induction p as [| |R op k IH|R c k IH]; simpl; [by auto|by auto| |].
  - intros [Hop Hk] Hf.
    replace (clearsFlag op) with false by (by destruct op).
    split; [done|]. intros r. by apply IH.
  - intros Hk Hf o. by apply IH.
Qed.

Lemma Idle_settle {A : Type} (o : Outcome A) : Idle (settle o).
Proof. by destruct o. Qed.

Lemma Quiet_settle {A : Type} (o : Outcome A) : Quiet (settle o).
Proof. by destruct o. Qed.

Lemma Quiet_bind {A B : Type} (p : Prog A) (f : A → Prog B) :
  Quiet p → (∀ a, Quiet (f a)) → Quiet (bind p f).
Proof. intros Hp Hf. apply Quiet_andThen; [done|]. by intros []. Qed.

Lemma Quiet_try_catch {A : Type} (p : Prog A) (h : Error → Prog A) :
  Quiet p → (∀ e, Quiet (h e)) → Quiet (try_catch p h).
Proof. intros Hp Hf. apply Quiet_andThen; [done|]. by intros []. Qed.

Lemma Quiet_try_finally {A : Type} (p : Prog A) (fin : Prog unit) :
  Quiet p → Quiet fin → Quiet (try_finally p fin).
Proof.
  intros Hp Hf. apply Quiet_andThen; [done|]. intros o.
  apply Quiet_bind; [done|]. intros _. apply Quiet_settle.
Qed.

Lemma Quiet_await_async {A : Type} (p : Prog A) : Quiet p → Quiet (await_async p).
Proof. intros Hp. apply Quiet_andThen; [done|]. intros o o'. apply Quiet_settle. Qed.

Lemma Quiet_perform {R : Type} (op : Op R) : writesFlag op = false → Quiet (perform op).
Proof. by intros H. Qed.

Lemma Quiet_await {R : Type} (c : Call R) : Quiet (await c).
Proof. intros o. apply Quiet_settle. Qed.

Lemma Idle_bind {A B : Type} (p : Prog A) (f : A → Prog B) :
  Idle p → (∀ a, Idle (f a)) → Idle (bind p f).
Proof. intros Hp Hf. apply Idle_andThen; [done|]. by intros []. Qed.

Lemma Idle_perform {R : Type} (op : Op R) : writesFlag op = false → Idle (perform op).
Proof. by intros H. Qed.

Create HintDb quiet.
#[local] Hint Resolve Quiet_bind Quiet_try_catch Quiet_try_finally Quiet_await_async
  Quiet_perform Quiet_await Quiet_settle Quiet_andThen : quiet.
#[local] Hint Resolve Idle_bind Idle_perform Idle_settle : quiet.
#[local] Hint Extern 1 (writesFlag _ = false) => reflexivity : quiet.
#[local] Hint Extern 1 (Quiet (Ret _)) => exact I : quiet.
#[local] Hint Extern 1 (Quiet (Throw _)) => exact I : quiet.
#[local] Hint Extern 1 (Idle (Ret _)) => exact I : quiet.

Ltac quiet_step :=
  match goal with
  | |- ∀ _, _ => intro
  | |- Quiet (bind _ _) => apply Quiet_bind
  | |- Quiet (try_finally _ _) => apply Quiet_try_finally
  | |- Quiet (try_catch _ _) => apply Quiet_try_catch
  | |- Quiet (await_async _) => apply Quiet_await_async
  | |- Quiet (perform _) => apply Quiet_perform; reflexivity
  | |- Quiet (await _) => apply Quiet_await
  | |- Quiet (Ret _) => exact I
  | |- Quiet (Throw _) => exact I
  | |- Quiet (match ?x with _ => _ end) => destruct x
  | |- Quiet _ => solve [eauto with quiet]
  | |- Idle (bind _ _) => apply Idle_bind
  | |- Idle (perform _) => apply Idle_perform; reflexivity
  | |- Idle (Ret _) => exact I
  | |- Idle (match ?x with _ => _ end) => destruct x
  end.
Ltac quiet := repeat quiet_step.

Lemma Quiet_sendRequest config mutations account :
  Quiet (WebhookClient.sendRequest config mutations account).
Proof. unfold WebhookClient.sendRequest. quiet. Qed.

Lemma Quiet_retryLoop config mutations account attempts iterations :
  ∀ attempt lastError,
    Quiet (WebhookClient.retryLoop config mutations account attempts iterations
             attempt lastError).
Proof.
  induction iterations as [|n IH]; intros attempt lastError; cbn [WebhookClient.retryLoop].
  - quiet.
  - apply Quiet_andThen.
    + pose proof (Quiet_sendRequest config mutations account). quiet.
    + intros [|err]; [done|]. unfold WebhookClient.sleep. quiet.
Qed.

Lemma Quiet_send config mutations account :
  Quiet (WebhookClient.send config mutations account).
Proof.
  unfold WebhookClient.send, WebhookClient.sendWithRetry.
  apply Quiet_await_async, Quiet_retryLoop.
Qed.

Lemma Quiet_handleError error context : Quiet (ErrorHandler.handleError error context).
Proof. unfold ErrorHandler.handleError, ErrorHandler.logError. quiet. Qed.

Lemma Quiet_logout session : Quiet (SessionManager.logout session).
Proof. unfold SessionManager.logout. quiet. Qed.

Lemma Quiet_closeSession session : Quiet (SessionManager.closeSession session).
Proof. unfold SessionManager.closeSession. quiet. Qed.

#[local] Hint Resolve Quiet_send Quiet_handleError Quiet_logout Quiet_closeSession : quiet.

Lemma Quiet_performCheck : Quiet Scheduler.performCheck.
Proof.
  unfold Scheduler.performCheck, Scheduler.performCheck_try,
    Scheduler.performCheck_catch, Scheduler.performCheck_finally.
  quiet.
Qed.

(** *** The flag under synchronous runs *)

Lemma handle_flag w {R : Type} (op : Op R) e :
  writesFlag op = false → flagOf (handle w op e).2 = flagOf e.
Proof.
  unfold flagOf. destruct op; simpl; try done; intros _.
  - by destruct (UserAgentRotator.getNextUserAgent _ _).
  - destruct (proxyRotator (this e)); [|done].
    by destruct (ProxyRotator.getNextProxy _).
  - by destruct (proxyRotator (this e)).
Qed.

Lemma handle_clears w {R : Type} (op : Op R) e :
  clearsFlag op = true → flagOf (handle w op e).2 = false.
Proof. destruct op; try done. by destruct v. Qed.

(** An idle program leaves the flag as it is and stays idle. *)
Lemma run_sync_Idle w {A : Type} (p : Prog A) : Idle p → ∀ e,
  flagOf (run_sync w p e).2 = flagOf e ∧ parkedIdle (run_sync w p e).1.
Proof.
  induction p as [a|err|R op k IH|R c k IH]; simpl; [done|done| |done].
  intros [Hop Hk] e. pose proof (handle_flag w op e Hop) as Hflag.
  destruct (handle w op e) as [r e']. simpl in Hflag.
  rewrite <- Hflag. by apply IH.
Qed.

(** A holder keeps the flag until it clears it, and is idle afterwards. *)
Lemma run_sync_Holder w {A : Type} (p : Prog A) : Holder p → ∀ e,
  parkedHolder (flagOf e) (run_sync w p e).
Proof.
  unfold parkedHolder.
  induction p as [a|err|R op k IH|R c k IH]; simpl; [done|done| |by left].
  intros Hp e. destruct (clearsFlag op) eqn:Hclears.
  - pose proof (handle_clears w op e Hclears) as Hflag.
    destruct (handle w op e) as [r e']. simpl in Hflag.
    destruct (run_sync_Idle w (k r) (Hp r) e') as [Hsame Hidle].
    rewrite Hflag in Hsame.
    destruct (run_sync w (k r) e') as [[o|R' c k'] e'']; simpl in *; [done|].
    right. tauto.
  - destruct Hp as [Hop Hk]. pose proof (handle_flag w op e Hop) as Hflag.
    destruct (handle w op e) as [r e']. simpl in Hflag.
    rewrite <- Hflag. by apply IH.
Qed.

(** *** Suspended tasks *)

Lemma TasksOk_snoc_idle b ts t : TasksOk b ts → IdleTask t → TasksOk b (ts ++ [t]).
Proof.
  intros Hts Ht. induction Hts; simpl.
  - by repeat constructor.
  - by constructor.
  - by constructor.
Qed.

Lemma TasksOk_snoc_holder ts t : TasksOk false ts → HolderTask t → TasksOk true (ts ++ [t]).
Proof.
  intros Hts Ht. remember false as b eqn:Hb.
  induction Hts; simpl; subst.
  - by repeat constructor.
  - constructor; [done|]. by apply IHHts.
  - done.
Qed.

Lemma TasksOk_lookup b ts : TasksOk b ts → ∀ i t, ts !! i = Some t →
  (IdleTask t ∧ TasksOk b (delete i ts) ∧
   ∀ t', IdleTask t' → TasksOk b (<[i:=t']> ts)) ∨
  (b = true ∧ HolderTask t ∧ TasksOk false (delete i ts) ∧
   (∀ t', HolderTask t' → TasksOk true (<[i:=t']> ts)) ∧
   (∀ t', IdleTask t' → TasksOk false (<[i:=t']> ts))).
Proof.
  induction 1 as [|b t0 ts Ht0 Hts IH|t0 ts Ht0 Hts IH]; intros i t Hi; [done| |].
  - destruct i as [|i]; simpl in *.
    + injection Hi as ->. left. split; [done|]. split; [done|].
      intros t' Ht'. by constructor.
    + destruct (IH i t Hi) as [(Ht & Hdel & Hins)|(-> & Ht & Hdel & Hins & Hins')].
      * left. split; [done|]. split; [by constructor|].
        intros t' Ht'. constructor; [done|]. by apply Hins.
      * right. split; [done|]. split; [done|]. split; [by constructor|].
        split; intros t' Ht'; (constructor; [done|]); auto.
  - destruct i as [|i]; simpl in *.
    + injection Hi as ->. right. split; [done|]. split; [done|]. split; [done|].
      split; intros t' Ht'; by constructor.
    + destruct (IH i t Hi) as [(Ht & Hdel & Hins)|(? & _)]; [|done].
      left. split; [done|]. split; [by constructor|].
      intros t' Ht'. constructor; [done|]. by apply Hins.
Qed.

(** At most the holder waits inside a cycle body. *)
Lemma TasksOk_outside b ts :
  TasksOk b ts → length (List.filter waitsOutside ts) ≤ (if b then 1 else 0).
Proof.
  induction 1 as [|b t ts Ht Hts IH|t ts Ht Hts IH]; simpl; [done| |].
  - destruct t as [s seq at_ R c k]. destruct Ht as [Hy _]. simpl. by rewrite Hy.
  - destruct (waitsOutside t); simpl in *; lia.
Qed.

Lemma run_sync_andThen w {A B : Type} (p : Prog A) (f : Outcome A → Prog B) : ∀ e,
  run_sync w (andThen p f) e =
    match run_sync w p e with
    | (Done o, e') => run_sync w (f o) e'
    | (Blocked c k, e') => (Blocked c (λ o, andThen (k o) f), e')
    end.
Proof.
  induction p as [a|err|R op k IH|R c k IH]; intros e; simpl; [done|done| |done].
  destruct (handle w op e) as [r e']. apply IH.
Qed.

Lemma run_sync_perform w {R B : Type} (op : Op R) (f : R → Prog B) e :
  run_sync w (bind (perform op) f) e = run_sync w (f (handle w op e).1) (handle w op e).2.
Proof. simpl. by destruct (handle w op e). Qed.

Lemma Holder_executeCheck_guarded body startTime :
  Quiet body → Holder (Scheduler.executeCheck_guarded body startTime).
Proof.
  intros Hbody. unfold Scheduler.executeCheck_guarded, try_finally.
  apply Quiet_then_Holder; [quiet|].
  intros o. simpl. intros []. apply Idle_settle.
Qed.

(** [executeCheck] passes through the guard, whatever quiet body it runs. *)
Lemma Guarded_executeCheckWith body : Quiet body → Guarded (Scheduler.executeCheckWith body).
Proof.
  intros Hbody w e. unfold Scheduler.executeCheckWith.
  rewrite run_sync_perform. cbn [handle fst snd]. fold (flagOf e).
  destruct (flagOf e) eqn:Hflag.
  - match goal with |- flagOf (run_sync w ?p e).2 = true ∧ _ =>
      assert (Idle p) as Hp by quiet;
      destruct (run_sync_Idle w p Hp e) as [H1 H2]
    end.
    by rewrite H1.
  - rewrite !run_sync_perform. cbn [handle fst snd].
    apply (run_sync_Holder w _ (Holder_executeCheck_guarded body _ Hbody)
             (set_this (with_checkInProgress true) e)).
Qed.

Lemma Guarded_andThen {A B : Type} (p : Prog A) (f : Outcome A → Prog B) :
  Guarded p → (∀ o, Idle (f o)) → Guarded (andThen p f).
Proof.
  intros Hp Hf w e. specialize (Hp w e). rewrite run_sync_andThen.
  unfold parkedHolder in *.
  destruct (flagOf e), (run_sync w p e) as [[o|R c k] e']; simpl in *.
  - destruct Hp as [Hflag _]. rewrite <- Hflag. apply run_sync_Idle, Hf.
  - destruct Hp as [Hflag [Hy Hk]]. split; [done|]. split; [done|].
    intros o. apply Idle_andThen; auto.
  - destruct (run_sync_Idle w (f o) (Hf o) e') as [Hsame Hidle].
    rewrite Hp in Hsame.
    destruct (run_sync w (f o) e') as [[o'|R c k] e'']; simpl in *; [done|].
    right. tauto.
  - destruct Hp as [[Hflag Hk]|(Hflag & Hy & Hk)].
    + left. split; [done|]. intros o. apply Holder_andThen; auto.
    + right. split; [done|]. split; [done|]. intros o. apply Idle_andThen; auto.
Qed.

Lemma Idle_scheduleNextCheck delay : Idle (Scheduler.scheduleNextCheck delay).
Proof. unfold Scheduler.scheduleNextCheck. quiet. Qed.

Lemma Idle_start : Idle Scheduler.start.
Proof. pose proof Idle_scheduleNextCheck. unfold Scheduler.start. quiet; auto. Qed.

Lemma Idle_stop : Idle Scheduler.stop.
Proof. unfold Scheduler.stop. quiet. Qed.

Lemma Guarded_hostExecuteCheck : Guarded hostExecuteCheck.
Proof.
  unfold hostExecuteCheck, bind. apply Guarded_andThen.
  - apply Guarded_executeCheckWith, Quiet_performCheck.
  - intros [r|err]; [|done]. quiet.
Qed.

Lemma Guarded_checkCallback : Guarded Scheduler.checkCallback.
Proof.
  unfold Scheduler.checkCallback, bind, await_async.
  apply Guarded_andThen; [apply Guarded_andThen|].
  - apply Guarded_executeCheckWith, Quiet_performCheck.
  - intros o. split; [done|]. intros _. apply Idle_settle.
  - intros [r|err]; [|done].
    apply (Idle_bind (perform This)); [done|]. intros this.
    destruct (negb _); [apply Idle_scheduleNextCheck|done].
Qed.

(** *** The invariant of the event loop *)

Lemma this_issue {R : Type} (c : Call R) e : this (issue c e) = this e.
Proof. unfold issue. by destruct (isYield c). Qed.

Lemma park_idle st e others place :
  parkedIdle st → TasksOk (flagOf e) others →
  (∀ t, IdleTask t → TasksOk (flagOf e) (place t)) →
  Inv (park (st, e) others place).
Proof.
  unfold Inv, flag. destruct st as [o|R c k]; simpl; [done|].
  intros Hidle _ Hplace. rewrite this_issue. by apply Hplace.
Qed.

Lemma park_holder st e others place :
  parkedHolder true (st, e) → TasksOk false others →
  (∀ t, HolderTask t → TasksOk true (place t)) →
  (∀ t, IdleTask t → TasksOk false (place t)) →
  Inv (park (st, e) others place).
Proof.
  unfold Inv, flag, parkedHolder. destruct st as [o|R c k]; simpl.
  - intros Hflag Hothers _ _. unfold flagOf in Hflag. by rewrite Hflag.
  - intros [[Hflag Hk]|(Hflag & Hy & Hk)] _ Hholder Hidle;
      rewrite this_issue; fold (flagOf e); rewrite Hflag; auto.
    by apply Hidle.
Qed.

Lemma launch_idle w p m : Idle p → Inv m → Inv (launch w p m).
Proof.
  intros Hp Hm. unfold launch.
  destruct (run_sync_Idle w p Hp (set_session None (env m))) as [Hflag Hidle].
  destruct (run_sync w p (set_session None (env m))) as [st e].
  simpl in Hflag, Hidle.
  change (flagOf (set_session None (env m))) with (flag m) in Hflag.
  apply park_idle; rewrite ?Hflag; [done|done|].
  intros t Ht. by apply TasksOk_snoc_idle.
Qed.

(** Starting a guarded program preserves the invariant. *)
Lemma launch_guarded w p m : Guarded p → Inv m → Inv (launch w p m).
Proof.
  intros Hp Hm. unfold launch. specialize (Hp w (set_session None (env m))).
  change (flagOf (set_session None (env m))) with (flag m) in Hp.
  destruct (run_sync w p (set_session None (env m))) as [st e].
  unfold Inv in Hm. destruct (flag m).
  - destruct Hp as [Hflag Hidle]. simpl in Hflag, Hidle.
    apply park_idle; rewrite ?Hflag; [done|done|].
    intros t Ht. by apply TasksOk_snoc_idle.
  - apply park_holder; [done|done| |].
    + intros t Ht. by apply TasksOk_snoc_holder.
    + intros t Ht. by apply TasksOk_snoc_idle.
Qed.

(** Every event preserves the invariant. *)
Lemma step_Inv w m ev m' : Inv m → step w m ev = Some m' → Inv m'.
Proof.
  intros Hm. destruct ev as [| | |id|i|dt]; simpl.
  - intros [= <-]. apply launch_idle; [apply Idle_start|done].
  - intros [= <-]. apply launch_idle; [apply Idle_stop|done].
  - intros [= <-]. apply launch_guarded; [apply Guarded_hostExecuteCheck|done].
  - destruct (due _ _ _); [|done]. intros [= <-].
    apply launch_guarded; [apply Guarded_checkCallback|done].
  - destruct (tasks m !! i) as [[s seq at_ R c k]|] eqn:Hi; [|done].
    destruct (ready _ _ _); [|done]. intros [= <-].
    destruct (TasksOk_lookup _ _ Hm i _ Hi)
      as [([Hy Hk] & Hdel & Hins)|(Hflag & Hk & Hdel & Hins & Hins')].
    + destruct (run_sync_Idle w _ (Hk (answer w seq c)) (set_session s (env m)))
        as [Hflag Hidle].
      destruct (run_sync w _ (set_session s (env m))) as [st e].
      simpl in Hflag, Hidle.
      change (flagOf (set_session s (env m))) with (flag m) in Hflag.
      apply park_idle; rewrite ?Hflag; done.
    + pose proof (run_sync_Holder w _ (Hk (answer w seq c)) (set_session s (env m)))
        as Hrun.
      change (flagOf (set_session s (env m))) with (flag m) in Hrun.
      rewrite Hflag in Hrun.
      destruct (run_sync w _ (set_session s (env m))) as [st e].
      by apply park_holder.
  - intros [= <-]. done.
Qed.

Lemma run_Inv w evs : ∀ m m', Inv m → run w m evs = Some m' → Inv m'.
Proof.
  induction evs as [|ev evs IH]; intros m m' Hm; simpl.
  - by intros [= <-].
  - destruct (step w m ev) as [m1|] eqn:Hstep; [|done].
    apply IH. by eapply step_Inv.
Qed.

Lemma boot_Inv config systemConfig s t0 :
  Scheduler.constructor config systemConfig = inr s → Inv (boot s t0).
Proof.
  unfold Scheduler.constructor, Inv, flag.
  destruct (_ <? _)%N; [done|].
  destruct (BrowserPool.constructor _); [done|].
  intros [= <-]. simpl. constructor.
Qed.

(** ** Calls of [executeCheck] *)

Lemma run_sync_blocked_andThen w {A B R : Type} (p : Prog A) (f : Outcome A → Prog B)
    e (c : Call R) k e' :
  run_sync w p e = (Blocked c k, e') →
  run_sync w (andThen p f) e = (Blocked c (λ o, andThen (k o) f), e').
Proof. intros H. by rewrite run_sync_andThen, H. Qed.

Lemma run_sync_done_andThen w {A B : Type} (p : Prog A) (f : Outcome A → Prog B) e o e' :
  run_sync w p e = (Done o, e') →
  run_sync w (andThen p f) e = run_sync w (f o) e'.
Proof. intros H. by rewrite run_sync_andThen, H. Qed.

(** A cycle runs up to the creation of its session before it first
    gives control back. *)
Lemma run_sync_performCheck_try w e :
  ∃ options k e',
    run_sync w Scheduler.performCheck_try e = (Blocked (CreateSession options) k, e') ∧
    outside_pools e e'.
Proof.
  unfold Scheduler.performCheck_try.
  rewrite run_sync_perform.
  pose proof (handle_rotates w GetNextBrowser e eq_refl) as H1.
  set (b := (handle w GetNextBrowser e).1) in *.
  set (e1 := (handle w GetNextBrowser e).2) in *.
  clearbody b e1. rewrite run_sync_perform.
  pose proof (handle_rotates w (GetNextUserAgent b) e1 eq_refl) as H2.
  set (ua := (handle w (GetNextUserAgent b) e1).1) in *.
  set (e2 := (handle w (GetNextUserAgent b) e1).2) in *.
  clearbody ua e2. rewrite run_sync_perform.
  pose proof (handle_rotates w GetNextProxy e2 eq_refl) as H3.
  set (px := (handle w GetNextProxy e2).1) in *.
  set (e3 := (handle w GetNextProxy e2).2) in *.
  clearbody px e3. rewrite run_sync_perform.
  pose proof (handle_rotates w (Log LogLevel.info "Starting mutation check") e3 eq_refl)
    as H4.
  set (e4 := (handle w (Log LogLevel.info "Starting mutation check") e3).2) in *.
  clearbody e4. cbn [handle fst].
  eexists _, _, e4. split; [reflexivity|].
  eauto using outside_pools_trans.
Qed.

Lemma run_sync_performCheck w e :
  ∃ options k e',
    run_sync w Scheduler.performCheck e = (Blocked (CreateSession options) k, e') ∧
    outside_pools (set_session None e) e'.
Proof.
  destruct (run_sync_performCheck_try w (set_session None e))
    as (options & k & e' & Hrun & Hout).
  unfold Scheduler.performCheck. rewrite run_sync_perform. cbn [handle fst snd].
  unfold try_finally, try_catch.
  erewrite run_sync_blocked_andThen;
    [|erewrite run_sync_blocked_andThen; [reflexivity|exact Hrun]].
  eauto.
Qed.

Lemma run_sync_executeCheck_starts w e :
  flagOf e = false →
  ∃ options k e',
    run_sync w Scheduler.executeCheck e = (Blocked (CreateSession options) k, e') ∧
    outside_pools (set_session None (set_this (with_checkInProgress true) e)) e'.
Proof.
  intros Hflag. unfold Scheduler.executeCheck, Scheduler.executeCheckWith.
  rewrite run_sync_perform. cbn [handle fst snd]. fold (flagOf e). rewrite Hflag.
  rewrite !run_sync_perform. cbn [handle fst snd].
  unfold Scheduler.executeCheck_guarded, try_finally, try_catch.
  set (e1 := set_this (with_checkInProgress true) e).
  destruct (run_sync_performCheck w (add_log (LogLevel.info, "Starting mutation check") e1))
    as (options & k & e' & Hrun & Hout).
  eexists options, _, e'. split.
  - erewrite run_sync_blocked_andThen; [reflexivity|].
    erewrite run_sync_blocked_andThen; [reflexivity|].
    rewrite run_sync_perform. cbn [handle fst snd].
    unfold bind, await_async.
    erewrite run_sync_blocked_andThen; [reflexivity|].
    erewrite run_sync_blocked_andThen; [reflexivity|].
    exact Hrun.
  - exact Hout.
Qed.

(** A call while a check is in progress: one log line, one result. *)
Lemma executeCheck_rejects w body e :
  flagOf e = true →
  run_sync w (Scheduler.executeCheckWith body) e
  = (Done (Resolved (Scheduler.alreadyInProgress (clock e))),
     add_log (LogLevel.warning, "Check already in progress, skipping") e).
Proof.
  intros Hflag. unfold Scheduler.executeCheckWith.
  rewrite run_sync_perform. cbn [handle fst snd]. fold (flagOf e). rewrite Hflag.
  reflexivity.
Qed.

Lemma step_turned_away w m :
  flag m = true → step w m HostExecuteCheck = Some (turnedAway m).
Proof.
  intros Hflag. unfold step, launch, hostExecuteCheck, bind.
  erewrite run_sync_done_andThen; [|by apply executeCheck_rejects].
  reflexivity.
Qed.

(** Any number of calls in a row are turned away while the flag is set. *)
Lemma run_turned_away w n : ∀ m,
  flag m = true →
  ∃ m', run w m (replicate n HostExecuteCheck) = Some m' ∧
        tasks m' = tasks m ∧ flag m' = true ∧
        calls (env m') = calls (env m) ∧ clock (env m') = clock (env m) ∧
        results (env m')
        = results (env m) ++ replicate n (Scheduler.alreadyInProgress (clock (env m))).
Proof.
  induction n as [|n IH]; intros m Hflag; cbn [run replicate].
  - exists m. by rewrite app_nil_r.
  - rewrite step_turned_away by done.
    destruct (IH (turnedAway m) Hflag) as (m' & Hrun & Htasks & Hflag' & Hcalls & Hclock & Hres).
    exists m'. simpl in *. rewrite Hres, <- app_assoc. done.
Qed.

(** The first call on an idle scheduler takes the flag and is suspended
    at the creation of its session. *)
Lemma step_first_call w m :
  flag m = false →
  ∃ options k m',
    step w m HostExecuteCheck = Some m' ∧
    tasks m' = tasks m ++
      [task None (length (calls (env m))) (clock (env m)) (CreateSession options) k] ∧
    flag m' = true ∧
    calls (env m') = calls (env m) ++ [anyCall (CreateSession options)] ∧
    clock (env m') = clock (env m) ∧ results (env m') = results (env m).
Proof.
  intros Hflag.
  destruct (run_sync_executeCheck_starts w (set_session None (env m)) Hflag)
    as (options & k & e' & Hrun & Hout).
  apply outside_pools_fields in Hout
    as (Hsess & Hcalls & Hclock & Hflag' & _ & _ & Hres & _).
  simpl in Hsess, Hcalls, Hclock, Hflag', Hres.
  eexists options, _, _. split.
  - unfold step, launch, hostExecuteCheck, bind.
    erewrite run_sync_blocked_andThen; [reflexivity|exact Hrun].
  - simpl. rewrite Hsess, Hcalls, Hclock, Hres. unfold flag. simpl.
    by rewrite Hflag'.
Qed.

Lemma burst w m k : flag m = false → burst_outcome w m k.
Proof.
  intros Hflag.
  destruct (step_first_call w m Hflag)
    as (options & cont & m1 & Hstep & Htasks & Hflag1 & Hcalls & Hclock & Hres).
  destruct (run_turned_away w (S k) m1 Hflag1)
    as (m' & Hrun & Htasks' & Hflag' & Hcalls' & Hclock' & Hres').
  exists m', options, cont.
  change (replicate (S (S k)) HostExecuteCheck)
    with (HostExecuteCheck :: replicate (S k) HostExecuteCheck).
  cbn [run]. rewrite Hstep. split; [exact Hrun|].
  rewrite Htasks', Hcalls', Hres', Hclock, Hres. done.
Qed.

(** A call that passes the guard gives the flag back, however the body
    ends. *)
Lemma executeCheckWith_completes w body e : flagOf e = false → completes w body e.
Proof.
  intros Hflag. unfold completes.
  destruct (run_task w (Scheduler.executeCheckWith body) e) as [o ef] eqn:Hrun.
  unfold Scheduler.executeCheckWith in Hrun.
  rewrite run_task_perform in Hrun. cbn [handle fst snd] in Hrun.
  fold (flagOf e) in Hrun. rewrite Hflag in Hrun.
  rewrite !run_task_perform in Hrun. cbn [handle fst snd] in Hrun.
  unfold Scheduler.executeCheck_guarded in Hrun.
  rewrite run_task_try_finally, run_task_try_catch in Hrun.
  rewrite run_task_perform in Hrun. cbn [handle fst snd] in Hrun.
  rewrite run_task_bind, run_task_await_async in Hrun.
  destruct (run_task w body _) as [[[]|err] e1]; simpl in Hrun;
    injection Hrun as <- <-; done.
Qed.

(** C1. A call of [executeCheck] made while a check is in progress
    returns at once, without suspending, the result
    [{success: false, error: Error("Check already in progress")}] and
    touches nothing but the log: the cycle body is not run.  Of [k + 2]
    calls made in a row on an idle scheduler, the first enters the body
    (it is suspended at the creation of its session) and each of the
    other [k + 1] returns the already-in-progress failure.  A call that
    passes the guard ends with [checkInProgress] cleared, whether the
    body resolves or rejects, so that the next call passes the guard
    again.  In every state the event loop reaches from a constructed
    scheduler, at most one task is inside a cycle body, and none when
    the flag is clear. *)
Theorem overlap_guard :
  (∀ w body e,
     flagOf e = true →
     run_sync w (Scheduler.executeCheckWith body) e
     = (Done (Resolved (Scheduler.alreadyInProgress (clock e))),
        add_log (LogLevel.warning, "Check already in progress, skipping") e)) ∧
  (∀ w m k, flag m = false → burst_outcome w m k) ∧
  (∀ w body e,
     flagOf e = false →
     completes w body e ∧
     completes w body (run_task w (Scheduler.executeCheckWith body) e).2) ∧
  (∀ w config systemConfig s t0 evs m,
     Scheduler.constructor config systemConfig = inr s →
     run w (boot s t0) evs = Some m →
     Inv m ∧ length (List.filter waitsOutside (tasks m)) ≤ (if flag m then 1 else 0)).
Proof.
  split; [|split; [|split]].
  - intros w body e. apply executeCheck_rejects.
  - intros w m k. apply burst.
  - intros w body e Hflag.
    pose proof (executeCheckWith_completes w body e Hflag) as Hfirst.
    split; [exact Hfirst|].
    apply executeCheckWith_completes. apply Hfirst.
  - intros w config systemConfig s t0 evs m Hnew Hrun.
    assert (Inv m) as Hm.
    { eapply run_Inv; [|exact Hrun]. by eapply boot_Inv. }
    split; [exact Hm|]. by apply TasksOk_outside.
Qed.

Lemma overlap_guard_witness :
  run_sync endpointDown (Scheduler.executeCheckWith Scheduler.performCheck) busyEnv
  = (Done (Resolved (Scheduler.alreadyInProgress 0)),
     add_log (LogLevel.warning, "Check already in progress, skipping") busyEnv) ∧
  burst_outcome endpointDown (boot exampleScheduler 0) 3 ∧
  (completes endpointDown Scheduler.performCheck (freshEnv exampleScheduler) ∧
   completes endpointDown Scheduler.performCheck
     (run_task endpointDown (Scheduler.executeCheckWith Scheduler.performCheck)
        (freshEnv exampleScheduler)).2) ∧
  (Inv afterSlowCycle ∧
   length (List.filter waitsOutside (tasks afterSlowCycle))
   ≤ (if flag afterSlowCycle then 1 else 0)).
Proof.
  split; [|split; [|split]].
  - apply (proj1 overlap_guard endpointDown Scheduler.performCheck busyEnv). reflexivity.
  - apply (proj1 (proj2 overlap_guard) endpointDown (boot exampleScheduler 0) 3).
    reflexivity.
  - apply (proj1 (proj2 (proj2 overlap_guard)) endpointDown Scheduler.performCheck
             (freshEnv exampleScheduler)).
    reflexivity.
  - apply (proj2 (proj2 (proj2 overlap_guard)) browserDown fiveMinutes oneBrowser
             exampleScheduler 0%N slowCycle afterSlowCycle).
    + reflexivity.
    + vm_compute. reflexivity.
Defined.

Example burst_of_four :
  (λ m, (length (tasks m), flag m,
         CheckResult.success <$> results (env m),
         length (calls (env m)))) <$>
    run endpointDown (boot exampleScheduler 0)
        [HostExecuteCheck; HostExecuteCheck; HostExecuteCheck; HostExecuteCheck]
  = Some (1, true, [false; false; false], 1).
Proof. vm_compute. reflexivity. Qed.

Example sequential_calls :
  (λ m, (length (tasks m), flag m, CheckResult.success <$> results (env m))) <$>
    run endpointDown (boot exampleScheduler 0)
        ([HostExecuteCheck] ++ replicate 10 (Settles 0) ++
         [HostExecuteCheck] ++ replicate 10 (Settles 0))
  = Some (0, false, [true; true]).
Proof. vm_compute. reflexivity. Qed.

(** ** Scheduling *)

(** C9, counterexample: the first check is due at 0 and takes 100 ms;
    the second one is then due at 300100, not at 300000. *)
Lemma spacing_counterexample :
  (scheduled ∘ env) <$> run browserDown (boot exampleScheduler 0%N) slowCycle
    = Some [(0%N, 0%N); (1%N, 300100%N)] ∧
  ¬ spaced_by_interval (SchedulerConfig.interval (config exampleScheduler))
      [(0%N, 0%N); (1%N, 300100%N)].
Proof.
  split; [vm_compute; reflexivity|].
  intros H. specialize (H 0 (0%N, 0%N) (1%N, 300100%N) eq_refl eq_refl).
  discriminate H.
Qed.

Lemma run_sync_scheduleNextCheck w delay e :
  run_sync w (Scheduler.scheduleNextCheck delay) e
  = (Done (Resolved tt),
     if stopped (this e) then e
     else timerSet (default (SchedulerConfig.interval (config (this e))) delay) e).
Proof.
  unfold Scheduler.scheduleNextCheck. rewrite run_sync_perform. cbn [handle fst snd].
  destruct (stopped (this e)); reflexivity.
Qed.

Lemma run_sync_start w e :
  timerId (this e) = None →
  run_sync w Scheduler.start e
  = (Done (Resolved tt),
     timerSet 0 (add_log (LogLevel.info, "Starting scheduler")
                   (set_this (with_stopped false) e))).
Proof.
  intros Hid. unfold Scheduler.start. rewrite run_sync_perform. cbn [handle fst snd].
  rewrite Hid. rewrite !run_sync_perform. cbn [handle fst snd].
  rewrite run_sync_scheduleNextCheck. reflexivity.
Qed.

Lemma run_task_done w {A : Type} (p : Prog A) e o e' :
  run_sync w p e = (Done o, e') → run_task w p e = (o, e').
Proof.
  revert e. induction p as [a|err|R op k IH|R c k IH]; simpl; intros e.
  - by intros [= <- <-].
  - by intros [= <- <-].
  - destruct (handle w op e) as [r e1]. apply IH.
  - done.
Qed.

Lemma executeCheckWith_resolves w body e :
  ∃ result, (run_task w (Scheduler.executeCheckWith body) e).1 = Resolved result.
Proof.
  destruct (flagOf e) eqn:Hflag.
  - erewrite run_task_done; [|by apply executeCheck_rejects]. eauto.
  - destruct (executeCheckWith_completes w body e Hflag) as [_ ->]. eauto.
Qed.

Lemma run_task_checkCallback w e :
  run_task w Scheduler.checkCallback e
  = (Resolved tt, rescheduled (run_task w Scheduler.executeCheck e).2).
Proof.
  unfold Scheduler.checkCallback.
  rewrite run_task_bind, run_task_await_async.
  destruct (executeCheckWith_resolves w Scheduler.performCheck e) as [result Hres].
  fold Scheduler.executeCheck in Hres.
  destruct (run_task w Scheduler.executeCheck e) as [o e1]. simpl in Hres. subst o.
  rewrite run_task_perform. cbn [handle fst snd]. unfold rescheduled.
  destruct (stopped (this e1)) eqn:Hs; cbn [negb]; [done|].
  erewrite run_task_done; [|apply run_sync_scheduleNextCheck].
  by rewrite Hs.
Qed.

(** C9 (amended). [start()] on a scheduler without a timer clears
    [stopped] and sets the first timer with zero delay.  The timer
    callback sets the next timer only once [executeCheck] has
    completed, due [interval] after the time of completion, and sets
    none if [stopped] is set by then.  While [stopped] is set,
    [scheduleNextCheck] does nothing. *)
Theorem check_scheduling (w : World) (e : Env) :
  (timerId (this e) = None →
     ∃ e', run_sync w Scheduler.start e = (Done (Resolved tt), e') ∧
           stopped (this e') = false ∧
           scheduled e' = scheduled e ++ [(N.of_nat (length (scheduled e)), clock e)]) ∧
  (let completed := (run_task w Scheduler.executeCheck e).2 in
   ∃ e', run_task w Scheduler.checkCallback e = (Resolved tt, e') ∧
         scheduled e'
         = scheduled completed ++
             (if stopped (this completed) then []
              else [(N.of_nat (length (scheduled completed)),
                     (clock completed + SchedulerConfig.interval (config (this completed)))%N)])) ∧
  (stopped (this e) = true →
     ∀ delay, run_sync w (Scheduler.scheduleNextCheck delay) e = (Done (Resolved tt), e)).
Proof.
  split; [|split].
  - intros Hid. eexists. split; [by apply run_sync_start|].
    simpl. by rewrite N.add_0_r.
  - eexists. split; [apply run_task_checkCallback|].
    unfold rescheduled. destruct (stopped _); simpl; [by rewrite app_nil_r|done].
  - intros Hs delay. rewrite run_sync_scheduleNextCheck. by rewrite Hs.
Qed.

Lemma check_scheduling_witness :
  (∃ e', run_sync browserDown Scheduler.start (freshEnv exampleScheduler)
         = (Done (Resolved tt), e') ∧
         stopped (this e') = false ∧
         scheduled e' = [(0%N, 0%N)]) ∧
  (∀ delay,
     run_sync browserDown (Scheduler.scheduleNextCheck delay)
       (set_this (with_stopped true) (freshEnv exampleScheduler))
     = (Done (Resolved tt), set_this (with_stopped true) (freshEnv exampleScheduler))).
Proof.
  split.
  - apply (proj1 (check_scheduling browserDown (freshEnv exampleScheduler))).
    reflexivity.
  - apply (proj2 (proj2 (check_scheduling browserDown
                           (set_this (with_stopped true) (freshEnv exampleScheduler))))).
    reflexivity.
Defined.

(** * Further properties *)

(** ** The proxy rotator over its whole life *)

Module ProxyRotatorMore.
Import ProxyRotator ProxyRotatorFacts.

Lemma run_cursor_ok cs : ∀ r, cursor_ok r → cursor_ok (run cs r).2.
Proof.
  induction cs as [|c cs IH]; intros r H; simpl; [done|].
  pose proof (exec_cursor_ok c r H) as H1.
  destruct (exec c r) as [o r1]. simpl in H1.
  specialize (IH r1 H1). by destruct (run cs r1).
Qed.

Lemma constructor_cursor_ok ps : cursor_ok (constructor ps).
Proof. unfold cursor_ok. simpl. destruct ps; simpl; [by left|right; lia]. Qed.

Lemma rotatorAfter_cursor_ok ps cs : cursor_ok (rotatorAfter ps cs).
Proof. apply run_cursor_ok, constructor_cursor_ok. Qed.

Lemma exec_proxies c r : proxies (exec c r).2 = proxies r.
Proof.
  destruct c; simpl; try done.
  pose proof (getNextProxy_fields r) as [H _]. by destruct (getNextProxy r).
Qed.

Lemma run_proxies cs : ∀ r, proxies (run cs r).2 = proxies r.
Proof.
  induction cs as [|c cs IH]; intros r; simpl; [done|].
  pose proof (exec_proxies c r) as H1.
  destruct (exec c r) as [o r1]. simpl in H1.
  specialize (IH r1). destruct (run cs r1). simpl in *. congruence.
Qed.

Lemma run_pooled cs : ∀ r q, q ∈ (run cs r).1 → q ∈ proxies r.
Proof.
  induction cs as [|c cs IH]; intros r q; simpl; [by intros ?%elem_of_nil|].
  pose proof (exec_proxies c r) as Hp.
  destruct (exec c r) as [o r1] eqn:Hexec. simpl in Hp.
  specialize (IH r1 q). destruct (run cs r1) as [out r2]. simpl in *.
  rewrite Hp in IH.
  destruct o as [[p|]|]; try done.
  rewrite elem_of_cons. intros [->|Hin]; [|by apply IH].
  destruct c; simpl in Hexec; try done.
  destruct (getNextProxy r) as [p' r'] eqn:Hnext.
  injection Hexec as -> ->. by apply getNextProxy_Some in Hnext as [_ ?].
Qed.

Lemma availableCount_le r : availableCount r ≤ size r.
Proof. unfold availableCount, size. apply length_filter. Qed.

Lemma availableCount_zero r :
  availableCount r = 0 ↔ forallb (λ p, isProxyFailed p r) (proxies r) = true.
Proof.
  unfold availableCount, isProxyFailed.
  induction (proxies r) as [|p l IH]; simpl; [done|].
  rewrite filter_cons.
  destruct (has (failedProxies r) (getProxyKey p)); simpl.
  - destruct (decide (false = true)); [done|]. exact IH.
  - destruct (decide (true = true)); [|done]. simpl. split; [lia|done].
Qed.

Lemma availableCount_pos r :
  0 < availableCount r ↔ ∃ p, p ∈ proxies r ∧ isProxyFailed p r = false.
Proof.
  unfold availableCount, isProxyFailed. split.
  - intros H.
    destruct (filter _ (proxies r)) as [|p l] eqn:Hf; [simpl in H; lia|].
    exists p.
    assert (p ∈ filter (λ proxy, negb (has (failedProxies r) (getProxyKey proxy)) = true)
                       (proxies r)) as Hin by (rewrite Hf; left).
    apply list_elem_of_filter in Hin as [Hp Hin]. split; [done|].
    by destruct (has _ _).
  - intros (p & Hin & Hp).
    assert (p ∈ filter (λ proxy, negb (has (failedProxies r) (getProxyKey proxy)) = true)
                       (proxies r)) as Hf.
    { apply list_elem_of_filter. split; [by rewrite Hp|done]. }
    destruct (filter _ (proxies r)); [by apply elem_of_nil in Hf|simpl; lia].
Qed.

Lemma getNextProxy_None_iff r :
  cursor_ok r → ((getNextProxy r).1 = None ↔ availableCount r = 0).
Proof.
  intros Hok. split.
  - intros Hnone.
    destruct (availableCount r) as [|n] eqn:Hn; [done|].
    assert (0 < availableCount r) as Hpos by lia.
    apply availableCount_pos in Hpos as (p & Hin & Hp).
    destruct (getNextProxy_finds r p Hok Hin Hp) as (q & r' & Hq).
    rewrite Hq in Hnone. done.
  - intros Hz. apply availableCount_zero in Hz.
    by rewrite getNextProxy_all_failed.
Qed.

(** The scan stops at the first proxy that is not excluded. *)
Lemma scan_first r :
  ∀ remaining d p,
    currentIndex r < length (proxies r) →
    d < remaining →
    proxyAt r d = Some p → isProxyFailed p r = false →
    (∀ d' q, d' < d → proxyAt r d' = Some q → isProxyFailed q r = true) →
    scan remaining r
    = (Some p, mk (proxies r) ((currentIndex r + d + 1) mod length (proxies r))
                  (failedProxies r)).
Proof.
  intros remaining. revert r.
  induction remaining as [|n IH]; intros r d p Hidx Hd Hp Hnf Hbefore; [lia|].
  simpl.
  destruct (lookup_lt_is_Some_2 (proxies r) (currentIndex r) Hidx) as [q Hq].
  rewrite Hq.
  assert (proxyAt r 0 = Some q) as Hq0.
  { unfold proxyAt. by rewrite Nat.add_0_r, Nat.mod_small. }
  destruct d as [|d].
  - rewrite Hq0 in Hp. injection Hp as ->.
    unfold isProxyFailed in Hnf. rewrite Hnf. simpl.
    by rewrite Nat.add_0_r.
  - assert (isProxyFailed q r = true) as Hqf by (apply (Hbefore 0); [lia|done]).
    unfold isProxyFailed in Hqf. rewrite Hqf. simpl.
    assert (∀ d', proxyAt (mk (proxies r) ((currentIndex r + 1) mod length (proxies r))
                              (failedProxies r)) d'
                  = proxyAt r (S d')) as Hshift.
    { intros d'. unfold proxyAt. cbn [proxies currentIndex].
      rewrite Nat.Div0.add_mod_idemp_l. do 2 f_equal. lia. }
    rewrite (IH (mk _ _ _) d p); cbn [proxies currentIndex failedProxies].
    + rewrite <- Nat.add_assoc, Nat.Div0.add_mod_idemp_l. do 3 f_equal. lia.
    + apply Nat.mod_upper_bound. lia.
    + lia.
    + by rewrite Hshift.
    + exact Hnf.
    + intros d' q' Hd' Hq'. rewrite Hshift in Hq'.
      apply (Hbefore (S d') q'); [lia|done].
Qed.

Lemma getNextProxy_first r d p :
  currentIndex r < length (proxies r) →
  d < length (proxies r) →
  proxyAt r d = Some p → isProxyFailed p r = false →
  (∀ d' q, d' < d → proxyAt r d' = Some q → isProxyFailed q r = true) →
  getNextProxy r
  = (Some p, mk (proxies r) ((currentIndex r + d + 1) mod length (proxies r))
                (failedProxies r)).
Proof.
  intros Hidx Hd Hp Hnf Hbefore. unfold getNextProxy.
  destruct (Nat.eqb_spec (length (proxies r)) 0) as [|_]; [lia|].
  assert (0 < availableCount r) as Hpos.
  { apply availableCount_pos. exists p. split; [|done].
    unfold proxyAt in Hp. by eapply list_elem_of_lookup_2. }
  unfold availableCount in Hpos.
  destruct (Nat.eqb_spec (length (filter (λ proxy,
      negb (has (failedProxies r) (getProxyKey proxy)) = true) (proxies r))) 0) as [Hz|_];
    [lia|].
  by apply scan_first.
Qed.

Lemma has_empty key : has ∅ key = false.
Proof. unfold has. apply bool_decide_eq_false_2. set_solver. Qed.

Lemma getNextProxy_select items i :
  0 < length items →
  getNextProxy (mk items i ∅) = ((select items i).1, mk items (select items i).2 ∅).
Proof.
  intros Hne. unfold getNextProxy, select. simpl.
  destruct (Nat.eqb_spec (length items) 0) as [|_]; [lia|].
  assert (filter (λ proxy, negb (has ∅ (getProxyKey proxy)) = true) items = items) as ->.
  { induction items as [|x l IH]; [done|].
    rewrite filter_cons, has_empty. simpl.
    destruct (decide (true = true)); [|done].
    destruct l; [done|]. f_equal. apply IH. simpl; lia. }
  destruct (Nat.eqb_spec (length items) 0) as [|_]; [lia|].
  destruct items as [|x l]; [simpl in Hne; lia|].
  cbn [scan length proxies currentIndex failedProxies].
  destruct ((x :: l) !! i) as [q|] eqn:Hq; [|done].
  by rewrite has_empty.
Qed.

End ProxyRotatorMore.

Module ProxyRotatorMore2.
Import ProxyRotator ProxyRotatorFacts ProxyRotatorMore.

Lemma exec_failed_subseteq c r :
  isResetFailures c = false → failedProxies r ⊆ failedProxies (exec c r).2.
Proof. intros Hc key. by apply exec_failed_mono. Qed.

Lemma run_failed_subseteq cs : ∀ r,
  existsb isResetFailures cs = false → failedProxies r ⊆ failedProxies (run cs r).2.
Proof.
  induction cs as [|c cs IH]; intros r Hcs; simpl; [done|].
  simpl in Hcs. apply orb_false_iff in Hcs as [Hc Hcs].
  pose proof (exec_failed_subseteq c r Hc) as H1.
  destruct (exec c r) as [o r1]. simpl in H1.
  specialize (IH r1 Hcs). destruct (run cs r1). simpl in *. set_solver.
Qed.

Lemma availableCount_mono r r' :
  proxies r' = proxies r → failedProxies r ⊆ failedProxies r' →
  availableCount r' ≤ availableCount r.
Proof.
  unfold availableCount. intros -> Hsub.
  induction (proxies r) as [|p l IH]; [done|].
  rewrite !filter_cons.
  destruct (has (failedProxies r) (getProxyKey p)) eqn:Hf.
  - apply has_true in Hf. apply Hsub in Hf. apply has_true in Hf. rewrite Hf. simpl.
    destruct (decide (false = true)); [done|]. exact IH.
  - simpl. destruct (decide (true = true)); [|done].
    destruct (decide (negb (has (failedProxies r') (getProxyKey p)) = true)); simpl; lia.
Qed.

End ProxyRotatorMore2.

(** X1. On a rotator built by [new ProxyRotator(proxies)] and used through
    its methods in any order, [getNextProxy] returns null exactly when
    [availableCount] is 0, which includes the empty pool; a proxy it
    returns belongs to the configured pool and is not marked failed. *)
Theorem getNextProxy_available (proxies : list ProxyConfig.t) (cs : list ProxyRotator.call) :
  let r := rotatorAfter proxies cs in
  ((ProxyRotator.getNextProxy r).1 = None ↔ ProxyRotator.availableCount r = 0) ∧
  (∀ p, (ProxyRotator.getNextProxy r).1 = Some p →
        p ∈ proxies ∧ ProxyRotator.isProxyFailed p r = false).
Proof.
  intros r. split.
  - apply ProxyRotatorMore.getNextProxy_None_iff, ProxyRotatorMore.rotatorAfter_cursor_ok.
  - intros p Hp.
    destruct (ProxyRotator.getNextProxy r) as [o r'] eqn:Hnext. simpl in Hp. subst o.
    apply ProxyRotatorFacts.getNextProxy_Some in Hnext as [Hnf Hin].
    split; [|done]. subst r. unfold rotatorAfter in Hin.
    by rewrite ProxyRotatorMore.run_proxies in Hin.
Qed.

Lemma getNextProxy_available_witness :
  (ProxyRotator.getNextProxy (rotatorAfter [proxyA; proxyB] skipCalls)).1 = Some proxyB ∧
  proxyB ∈ [proxyA; proxyB] ∧
  ProxyRotator.isProxyFailed proxyB (rotatorAfter [proxyA; proxyB] skipCalls) = false.
Proof.
  split; [vm_compute; reflexivity|].
  apply (proj2 (getNextProxy_available [proxyA; proxyB] skipCalls)).
  vm_compute. reflexivity.
Defined.

(** X2. [getNextProxy] returns the first proxy that is not marked failed,
    scanning in cyclic order from the cursor, and leaves the cursor
    just behind it: if the proxy at offset [d < N] from the cursor is
    not failed and those at smaller offsets all are, the call returns
    that proxy and sets [currentIndex] to [(currentIndex + d + 1) mod N];
    the pool and the failed set are unchanged. *)
Theorem getNextProxy_first_available (proxies : list ProxyConfig.t)
    (cs : list ProxyRotator.call) (d : nat) (p : ProxyConfig.t) :
  let r := rotatorAfter proxies cs in
  d < length proxies →
  proxyAt r d = Some p →
  ProxyRotator.isProxyFailed p r = false →
  (∀ d' q, d' < d → proxyAt r d' = Some q → ProxyRotator.isProxyFailed q r = true) →
  ProxyRotator.getNextProxy r
  = (Some p,
     ProxyRotator.mk proxies ((ProxyRotator.currentIndex r + d + 1) mod length proxies)
                     (ProxyRotator.failedProxies r)).
Proof.
  intros r Hd Hp Hnf Hbefore.
  assert (ProxyRotator.proxies r = proxies) as Hps by apply ProxyRotatorMore.run_proxies.
  destruct (ProxyRotatorMore.rotatorAfter_cursor_ok proxies cs) as [Hz|Hidx];
    fold r in Hz || fold r in Hidx; rewrite Hps in *; [lia|].
  rewrite <- Hps at 1. rewrite <- Hps at 1.
  apply ProxyRotatorMore.getNextProxy_first; rewrite ?Hps; done.
Qed.

Lemma getNextProxy_first_available_witness :
  ProxyRotator.getNextProxy (rotatorAfter [proxyA; proxyB] skipCalls)
  = (Some proxyB,
     ProxyRotator.mk [proxyA; proxyB] 0
       (ProxyRotator.failedProxies (rotatorAfter [proxyA; proxyB] skipCalls))).
Proof.
  apply (getNextProxy_first_available [proxyA; proxyB] skipCalls 1 proxyB).
  - simpl. lia.
  - vm_compute. reflexivity.
  - vm_compute. reflexivity.
  - intros d' q Hd'. assert (d' = 0) as -> by lia.
    intros [= <-]. vm_compute. reflexivity.
Defined.

(** X3. With no proxy marked failed the proxy rotator is a round-robin: a new
    rotator over a non-empty pool meets the round-robin contract of the
    browser pool, and after [resetFailures()], at any point of the
    rotator's life, the [k]-th call of [getNextProxy] in a row returns
    [proxies[(currentIndex + k) mod N]]. *)
Theorem unfailed_rotator_round_robin :
  (∀ (p : ProxyConfig.t) (ps : list ProxyConfig.t),
     round_robin ProxyRotator.getNextProxy ProxyRotator.reset (p :: ps)
       (ProxyRotator.constructor (p :: ps))) ∧
  (∀ (p : ProxyConfig.t) (ps : list ProxyConfig.t) (cs : list ProxyRotator.call) (k : nat),
     let r := rotatorAfter (p :: ps) cs in
     nth_call ProxyRotator.getNextProxy k (ProxyRotator.resetFailures r)
     = (p :: ps) !! ((ProxyRotator.currentIndex r + k) mod length (p :: ps))).
Proof.
  split.
  - intros p ps.
    apply (round_robin_sim _ _ (λ i, ProxyRotator.mk (p :: ps) i ∅)); [simpl; lia| |done].
    intros i. apply ProxyRotatorMore.getNextProxy_select. simpl; lia.
  - intros p ps cs k r.
    assert (ProxyRotator.proxies r = p :: ps) as Hps by apply ProxyRotatorMore.run_proxies.
    assert (ProxyRotator.currentIndex r < length (p :: ps)) as Hidx.
    { destruct (ProxyRotatorMore.rotatorAfter_cursor_ok (p :: ps) cs) as [Hz|Hidx];
        fold r in Hz || fold r in Hidx; rewrite Hps in *; [simpl in Hz; lia|done]. }
    assert (0 < length (p :: ps)) as Hne by (simpl; lia).
    unfold ProxyRotator.resetFailures. rewrite Hps.
    unfold nth_call.
    rewrite (consecutive_sim ProxyRotator.getNextProxy (select (p :: ps))
               (λ i, ProxyRotator.mk (p :: ps) i ∅))
      by (intros i; by apply ProxyRotatorMore.getNextProxy_select).
    cbn [snd]. rewrite ProxyRotatorMore.getNextProxy_select by done.
    rewrite consecutive_select by done. reflexivity.
Qed.

(** X4. Failure is tracked by key, [server:username] with an absent username
    read as empty.  After [markProxyFailed(p)] a proxy [q] is reported
    failed iff it has the key of [p] or was failed before; after
    [resetFailures()] none is; two proxies with the same server and the
    same username (an absent one counting as the empty one) share their
    key whatever their passwords. *)
Theorem markProxyFailed_by_key :
  (∀ (p q : ProxyConfig.t) (r : ProxyRotator.t),
     ProxyRotator.isProxyFailed q (ProxyRotator.markProxyFailed p r) = true ↔
     ProxyRotator.getProxyKey q = ProxyRotator.getProxyKey p ∨
     ProxyRotator.isProxyFailed q r = true) ∧
  (∀ (q : ProxyConfig.t) (r : ProxyRotator.t),
     ProxyRotator.isProxyFailed q (ProxyRotator.resetFailures r) = false) ∧
  (∀ p q : ProxyConfig.t,
     ProxyConfig.server p = ProxyConfig.server q →
     or_string (ProxyConfig.username p) "" = or_string (ProxyConfig.username q) "" →
     ProxyRotator.getProxyKey p = ProxyRotator.getProxyKey q).
Proof.
  split; [|split].
  - intros p q r. unfold ProxyRotator.isProxyFailed, ProxyRotator.markProxyFailed. simpl.
    rewrite !ProxyRotatorFacts.has_true. set_solver.
  - intros q r. apply ProxyRotatorMore.has_empty.
  - intros p q Hs Hu. unfold ProxyRotator.getProxyKey. by rewrite Hs, Hu.
Qed.

Lemma markProxyFailed_by_key_witness :
  ProxyRotator.isProxyFailed (ProxyConfig.mk "10.0.0.1:8080" (Some "") (Some "secret"))
    (ProxyRotator.markProxyFailed proxyA twoProxies) = true ∧
  ProxyRotator.getProxyKey (ProxyConfig.mk "10.0.0.1:8080" (Some "") (Some "secret"))
  = ProxyRotator.getProxyKey proxyA.
Proof.
  split.
  - apply (proj1 markProxyFailed_by_key). left. reflexivity.
  - apply (proj2 (proj2 markProxyFailed_by_key)); reflexivity.
Defined.

(** X5. Through any sequence of calls a rotator keeps the pool it was built
    with, its cursor stays a valid index when the pool is not empty, and
    every proxy it hands out belongs to the pool.  Short of
    [resetFailures()], [availableCount] never grows, and it is at most
    [size]. *)
Theorem rotator_pool_invariant :
  (∀ (ps : list ProxyConfig.t) (cs : list ProxyRotator.call),
     let r := rotatorAfter ps cs in
     ProxyRotator.proxies r = ps ∧
     (ps ≠ [] → ProxyRotator.currentIndex r < length ps) ∧
     (∀ q, q ∈ (ProxyRotator.run cs (ProxyRotator.constructor ps)).1 → q ∈ ps)) ∧
  (∀ (r : ProxyRotator.t) (cs : list ProxyRotator.call),
     existsb isResetFailures cs = false →
     ProxyRotator.availableCount (ProxyRotator.run cs r).2 ≤ ProxyRotator.availableCount r ∧
     ProxyRotator.availableCount r ≤ ProxyRotator.size r).
Proof.
  split.
  - intros ps cs r.
    assert (ProxyRotator.proxies r = ps) as Hps by apply ProxyRotatorMore.run_proxies.
    split; [done|]. split.
    + intros Hne.
      destruct (ProxyRotatorMore.rotatorAfter_cursor_ok ps cs) as [Hz|Hidx];
        fold r in Hz || fold r in Hidx; rewrite Hps in *; [|done].
      by apply length_zero_iff_nil in Hz.
    + intros q Hq. by apply ProxyRotatorMore.run_pooled in Hq.
  - intros r cs Hcs. split; [|apply ProxyRotatorMore.availableCount_le].
    apply ProxyRotatorMore2.availableCount_mono.
    + apply ProxyRotatorMore.run_proxies.
    + by apply ProxyRotatorMore2.run_failed_subseteq.
Qed.

Lemma rotator_pool_invariant_witness :
  ProxyRotator.currentIndex (rotatorAfter [proxyA; proxyB] skipCalls) < 2 ∧
  ProxyRotator.availableCount (ProxyRotator.run skipCalls twoProxies).2
  ≤ ProxyRotator.availableCount twoProxies.
Proof.
  split.
  - apply (proj1 rotator_pool_invariant [proxyA; proxyB] skipCalls). discriminate.
  - apply (proj2 rotator_pool_invariant twoProxies skipCalls). reflexivity.
Defined.

(** X6. Without custom user agents [getNextUserAgent] returns, for every
    browser type, the first default user agent of that type and leaves
    the rotator as it is; [matchesBrowserType] accepts that user agent
    for that browser type. *)
Theorem default_user_agent_matches (browserType : BrowserType) (r : UserAgentRotator.t) :
  UserAgentRotator.hasCustomUserAgents r = false →
  ∃ userAgent,
    UserAgentRotator.getNextUserAgent (Some browserType) r = (Some userAgent, r) ∧
    DEFAULT_USER_AGENTS browserType !! 0 = Some userAgent ∧
    UserAgentRotator.matchesBrowserType userAgent browserType = true.
Proof.
  intros Hcustom. unfold UserAgentRotator.hasCustomUserAgents in Hcustom.
  unfold UserAgentRotator.getNextUserAgent. rewrite Hcustom.
  destruct browserType; eexists; (split; [reflexivity|split; [reflexivity|]]);
    vm_compute; reflexivity.
Qed.

Lemma default_user_agent_matches_witness :
  ∃ userAgent,
    UserAgentRotator.getNextUserAgent (Some edge) (UserAgentRotator.constructor (Some []))
    = (Some userAgent, UserAgentRotator.constructor (Some [])) ∧
    DEFAULT_USER_AGENTS edge !! 0 = Some userAgent ∧
    UserAgentRotator.matchesBrowserType userAgent edge = true.
Proof.
  apply (default_user_agent_matches edge (UserAgentRotator.constructor (Some []))).
  reflexivity.
Defined.

(** ** The error handler on composed messages *)

(** *** Strings *)

Lemma append_nil (s : string) : "" +:+ s = s.
Proof. reflexivity. Qed.

Lemma append_cons (a : ascii) (s t : string) : String a s +:+ t = String a (s +:+ t).
Proof. reflexivity. Qed.

Lemma prefix_app (sub rest : string) : String.prefix sub (sub +:+ rest) = true.
Proof.
  induction sub as [|a sub IH]; [by destruct rest|].
  rewrite append_cons. simpl. destruct (ascii_dec a a); [exact IH|done].
Qed.

Lemma prefix_inv (sub s : string) :
  String.prefix sub s = true → ∃ rest, s = sub +:+ rest.
Proof.
  revert s. induction sub as [|a sub IH]; intros s; simpl.
  - intros _. by exists s.
  - destruct s as [|b s]; simpl; [done|].
    destruct (ascii_dec a b) as [->|]; [|done].
    intros H. destruct (IH s H) as [rest ->]. by exists rest.
Qed.

Lemma includes_unfold (s sub : string) :
  includes s sub
  = if String.prefix sub s then true
    else match s with
         | EmptyString => false
         | String _ s' => includes s' sub
         end.
Proof. by destruct s. Qed.

Lemma includes_here (sub rest : string) : includes (sub +:+ rest) sub = true.
Proof. by rewrite includes_unfold, prefix_app. Qed.

Lemma includes_app (pre sub post : string) : includes (pre +:+ sub +:+ post) sub = true.
Proof.
  induction pre as [|a pre IH].
  - rewrite append_nil. apply includes_here.
  - rewrite includes_unfold, append_cons, IH.
    by destruct (String.prefix _ _).
Qed.

(** [includes] is substring containment. *)
Lemma includes_spec (s sub : string) :
  includes s sub = true ↔ ∃ pre post, s = pre +:+ sub +:+ post.
Proof.
  split.
  - induction s as [|a s IH]; rewrite includes_unfold.
    + destruct (String.prefix sub "") eqn:Hp; [|done].
      intros _. apply prefix_inv in Hp as [rest ->]. by exists "", rest.
    + destruct (String.prefix sub (String a s)) eqn:Hp.
      * intros _. apply prefix_inv in Hp as [rest ->]. by exists "", rest.
      * intros H. destruct (IH H) as (pre & post & ->).
        by exists (String a pre), post.
  - intros (pre & post & ->). apply includes_app.
Qed.

Lemma toLowerCase_app (a b : string) :
  toLowerCase (a +:+ b) = toLowerCase a +:+ toLowerCase b.
Proof.
  induction a as [|c a IH]; [done|].
  rewrite append_cons. simpl. by rewrite IH.
Qed.

Lemma toLowerCase_char_idemp (c : ascii) :
  toLowerCase_char (toLowerCase_char c) = toLowerCase_char c.
Proof.
  destruct c as [[] [] [] [] [] [] [] []]; vm_compute; reflexivity.
Qed.

Lemma toLowerCase_idemp (s : string) : toLowerCase (toLowerCase s) = toLowerCase s.
Proof.
  induction s as [|c s IH]; simpl; [done|]. by rewrite toLowerCase_char_idemp, IH.
Qed.

(** A marker is found whatever surrounds it and whatever its letter case. *)
Lemma includes_marker (pre marker post : string) :
  includes (toLowerCase (pre +:+ marker +:+ post)) (toLowerCase marker) = true.
Proof. rewrite !toLowerCase_app. apply includes_app. Qed.

(** X7. A message that contains one of the authentication markers
    (authentication, login, credential, unauthorized, 401) in any
    letter case is categorised as [Authentication], whatever else the
    message contains and whatever the name of the error is. *)
Theorem authentication_markers_prevail (name pre marker post : string) :
  toLowerCase marker ∈ authenticationMarkers →
  ErrorHandler.categorizeError (mkError name (pre +:+ marker +:+ post))
  = ErrorCategory.Authentication.
Proof.
  intros Hin. unfold ErrorHandler.categorizeError. cbn [message].
  pose proof (includes_marker pre marker post) as Hinc.
  set (m := toLowerCase (pre +:+ marker +:+ post)) in *. clearbody m.
  unfold authenticationMarkers in Hin.
  repeat (apply elem_of_cons in Hin as [Heq|Hin];
          [rewrite Heq in Hinc; rewrite Hinc; by rewrite ?orb_true_r|]).
  by apply elem_of_nil in Hin.
Qed.

Lemma authentication_markers_prevail_witness :
  ErrorHandler.categorizeError
    (mkError "NetworkError" ("proxy timeout during " +:+ "LOGIN" +:+ " (config)"))
  = ErrorCategory.Authentication.
Proof.
  apply (authentication_markers_prevail "NetworkError" "proxy timeout during " "LOGIN"
           " (config)").
  vm_compute. set_solver.
Defined.

(** The delays of the retries [determineAction] prescribes. *)
Lemma retry_delay_bounds (category : ErrorCategory.t) (context : ErrorContext.t)
    (recoverable : bool) (delay : N) :
  ErrorHandler.determineAction category context recoverable = retry delay →
  recoverable = true ∧
  (category = ErrorCategory.Authentication ∨ category = ErrorCategory.Network ∨
   category = ErrorCategory.Webhook) ∧
  (1000 ≤ delay ≤ 60000)%N ∧
  (category = ErrorCategory.Webhook → delay ≤ 30000)%N ∧
  (delay mod 1000 = 0)%N.
Proof.
  unfold ErrorHandler.determineAction.
  assert (∀ a cap : N, (cap mod 1000 = 0)%N → (1000 ≤ cap)%N →
            let d := N.min (2 ^ a * 1000) cap in
            (1000 ≤ d ≤ cap)%N ∧ (d mod 1000 = 0)%N) as Hmin.
  { intros a cap Hcap Hle d. subst d.
    assert (1 ≤ 2 ^ a)%N by (pose proof (N.pow_nonzero 2 a); lia).
    destruct (N.min_spec (2 ^ a * 1000) cap) as [[? ->]|[? ->]].
    - split; [lia|]. apply N.Div0.mod_mul.
    - split; [lia|done]. }
  destruct recoverable; cbn [negb].
  - destruct category; try done.
    + intros [= <-]. split; [done|]. split; [by left|].
      split; [lia|]. split; [done|reflexivity].
    + intros [= <-].
      destruct (Hmin (ErrorContext.attempt context) 60000%N) as [? ?]; [done|lia|].
      split; [done|]. split; [by right; left|]. split; [lia|]. split; [done|done].
    + destruct (ErrorContext.attempt context <? 3)%N; done.
    + intros [= <-].
      destruct (Hmin (ErrorContext.attempt context) 30000%N) as [? ?]; [done|lia|].
      split; [done|]. split; [by right; right|]. split; [lia|]. split; [lia|done].
  - by destruct (ErrorHandler.isConfig category).
Qed.

(** X8. When [handleError] answers with a retry, the attempt number is below
    [maxAttempts], the error is an [Authentication], [Network] or
    [Webhook] error, and the delay is a whole number of seconds between
    1 s and 60 s, at most 30 s for a [Webhook] error. *)
Theorem handleError_retry_bounds (w : World) (error : Error) (context : ErrorContext.t)
    (e : Env) (delay : N) :
  (run_task w (ErrorHandler.handleError error context) e).1 = Resolved (retry delay) →
  let category := ErrorHandler.categorizeError error in
  (ErrorContext.attempt context < ErrorContext.maxAttempts context)%N ∧
  (category = ErrorCategory.Authentication ∨ category = ErrorCategory.Network ∨
   category = ErrorCategory.Webhook) ∧
  (1000 ≤ delay ≤ 60000)%N ∧
  (category = ErrorCategory.Webhook → delay ≤ 30000)%N ∧
  (delay mod 1000 = 0)%N.
Proof.
  intros Hrun category.
  destruct (run_task_handleError w error context e) as (Hout & _).
  rewrite Hout in Hrun. injection Hrun as Haction. fold category in Haction.
  destruct (retry_delay_bounds _ _ _ _ Haction) as (Hrec & Hcat & Hbounds & Hweb & Hmod).
  split; [|done].
  unfold ErrorHandler.isRecoverable in Hrec.
  destruct (ErrorHandler.isConfig category); [done|].
  destruct (N.leb_spec (ErrorContext.maxAttempts context) (ErrorContext.attempt context));
    [done|lia].
Qed.

Lemma handleError_retry_bounds_witness :
  (run_task browserDown
     (ErrorHandler.handleError (newError "network timeout")
        (ErrorContext.mk "mutation-check" 9 10 0))
     (freshEnv exampleScheduler)).1 = Resolved (retry 60000) ∧
  (1000 ≤ 60000 ≤ 60000)%N.
Proof.
  split; [vm_compute; reflexivity|].
  destruct (handleError_retry_bounds browserDown (newError "network timeout")
              (ErrorContext.mk "mutation-check" 9 10 0) (freshEnv exampleScheduler)
              60000%N) as (_ & _ & H & _).
  - vm_compute. reflexivity.
  - exact H.
Defined.

(** ** The trace of a failing delivery *)

Lemma afterFailure_clock config mutations account attempts attempt e :
  clock (afterFailure config mutations account attempts attempt e)
  = (clock e + if (attempt <? attempts)%N then WebhookClient.calculateBackoff attempt else 0)%N.
Proof.
  unfold afterFailure. destruct (attempt <? attempts)%N; simpl; [done|].
  by rewrite N.add_0_r.
Qed.

Lemma pow2_succ (a : nat) : 1 ≤ a → (2 ^ N.of_nat a = 2 * 2 ^ N.of_nat (a - 1))%N.
Proof.
  intros Ha. replace (N.of_nat a) with (N.succ (N.of_nat (a - 1))) by lia.
  by rewrite N.pow_succ_r'.
Qed.

(** When every request fails: the calls, with their payloads, and the
    time at the end. *)
Lemma retryLoop_failing_trace w config mutations account n start :
  (∀ seq url payload, requestError (respond w _ seq (Fetch url payload)) ≠ None) →
  ∀ iterations a lastError e,
    1 ≤ a → a + iterations = n + 1 →
    (0 < iterations → clock e = (start + (2 ^ N.of_nat (a - 1) - 1) * 1000)%N) →
    let r := run_task w (WebhookClient.retryLoop config mutations account (N.of_nat n)
                           iterations (N.of_nat a) lastError) e in
    calls r.2 = calls e ++ flat_map (failedAttempt config mutations account n start)
                             (seq a iterations) ∧
    clock r.2 = (if iterations is 0 then clock e
                 else (start + (2 ^ N.of_nat (n - 1) - 1) * 1000)%N).
Proof.
  intros Hfail. induction iterations as [|it IH]; intros a lastError e Ha Hsum Hclock r.
  - subst r. simpl. by rewrite app_nil_r.
  - subst r. rewrite retryLoop_step.
    destruct (requestError (respond w _ (length (calls e)) (post config mutations account e)))
      as [err|] eqn:Herr; [|by apply Hfail in Herr].
    replace (N.of_nat a + 1)%N with (N.of_nat (S a)) by (by rewrite Nat2N.inj_succ, N.add_1_r).
    specialize (Hclock ltac:(lia)).
    set (e' := afterFailure config mutations account (N.of_nat n) (N.of_nat a) e).
    assert (clock e' = (clock e + if (a <? n)%nat then 2 ^ N.of_nat (a - 1) * 1000 else 0)%N)
      as Hclock'.
    { subst e'. by rewrite afterFailure_clock, ltb_of_nat, calculateBackoff_of_nat. }
    destruct (IH (S a) (Some err) e') as [Hcalls Hend]; [lia|lia| |].
    { intros Hit. rewrite Hclock', Hclock.
      replace (a <? n) with true by (symmetry; apply Nat.ltb_lt; lia).
      replace (S a - 1) with a by lia. rewrite (pow2_succ a) by done.
      assert (1 ≤ 2 ^ N.of_nat (a - 1))%N by (pose proof (N.pow_nonzero 2 (N.of_nat (a - 1))); lia).
      lia. }
    split.
    + rewrite Hcalls. subst e'.
      rewrite afterFailure_calls, ltb_of_nat, calculateBackoff_of_nat.
      cbn [seq flat_map]. unfold failedAttempt at 2, post. rewrite Hclock.
      rewrite <- !app_assoc. by f_equal.
    + rewrite Hend. destruct it as [|it]; [|done].
      assert (a = n) as -> by lia.
      rewrite Hclock', Hclock, Nat.ltb_irrefl. lia.
Qed.

(** X9. Against an endpoint that fails every request, [sendWithRetry] with
    [A] attempts (0 included) makes exactly these calls: for each
    attempt a POST to the configured URL with the account, the
    mutations and the time of that attempt as [timestamp], followed,
    except after the last attempt, by a sleep of [2^(attempt-1)] s.
    Run alone it ends [2^(A-1) - 1] s after it began, the sum of its
    sleeps, and leaves the scheduler object untouched.  With [A = 0] it
    makes no request and its failure names 0 attempts and the error
    undefined. *)
Theorem sendWithRetry_failing_trace (w : World) (config : WebhookConfig.t)
    (mutations : list MutationRecord.t) (account : string) (A : N) (e : Env) :
  (∀ seq url payload, requestError (respond w _ seq (Fetch url payload)) ≠ None) →
  let n := N.to_nat A in
  let r := run_task w (WebhookClient.sendWithRetry config mutations account A) e in
  calls r.2
  = calls e ++ flat_map (failedAttempt config mutations account n (clock e)) (seq 1 n) ∧
  clock r.2 = (clock e + (2 ^ (A - 1) - 1) * 1000)%N ∧
  this r.2 = this e ∧
  (A = 0%N →
   r.1 = Rejected (newError "Webhook delivery failed after 0 attempts: undefined")).
Proof.
  intros Hfail n r. subst r. unfold WebhookClient.sendWithRetry. fold n.
  assert (A = N.of_nat n) as HA by (subst n; by rewrite N2Nat.id).
  clearbody n. subst A. change 1%N with (N.of_nat 1).
  destruct (retryLoop_failing_trace w config mutations account n (clock e) Hfail
              n 1 None e) as [Hcalls Hclock]; [lia|lia| |].
  { intros _. simpl. lia. }
  destruct (retryLoop_exhausted w config mutations account n Hfail n 1 None e)
    as (_ & _ & _ & _ & Hsame & _); [lia|].
  split; [exact Hcalls|]. split; [|split].
  - destruct n as [|n]; cbv iota in Hclock; rewrite Hclock; change (N.of_nat 1) with 1%N.
    { replace ((2 ^ (N.of_nat 0 - 1) - 1) * 1000)%N with 0%N by reflexivity. lia. }
    replace (N.of_nat (S n) - 1)%N with (N.of_nat (S n - 1)) by lia. done.
  - apply Hsame.
  - intros Hz. assert (n = 0) as -> by lia. reflexivity.
Qed.

Lemma sendWithRetry_failing_trace_witness :
  let r := run_task endpointDown
             (WebhookClient.sendWithRetry webhookZero [exampleRecord] "test-user" 3)
             (freshEnv webhookScheduler) in
  length (calls r.2) = 5 ∧ clock r.2 = 3000%N.
Proof.
  destruct (sendWithRetry_failing_trace endpointDown webhookZero [exampleRecord]
              "test-user" 3 (freshEnv webhookScheduler)) as (Hcalls & Hclock & _).
  - intros seq url payload. discriminate.
  - split; [by rewrite Hcalls|exact Hclock].
Defined.

(** ** Session clean-up, [start] and [stop] *)

Example constructor_rotatingScheduler :
  Scheduler.constructor fiveMinutes rotatingConfig = inr rotatingScheduler.
Proof. reflexivity. Qed.

(** X10. [logout] and [closeSession] never reject, whatever the browser does.
    [logout] makes its one navigation to the logout URL; [closeSession]
    always closes the page and then the browser, the browser also when
    closing the page has failed.  A failure only shows in the log, and
    neither method touches the scheduler object. *)
Theorem cleanup_never_throws (w : World) (session : BrowserSession.t) (e : Env) :
  let page := BrowserSession.page session in
  let browser := BrowserSession.browser session in
  let loggedOut := run_task w (SessionManager.logout session) e in
  let closed := run_task w (SessionManager.closeSession session) e in
  loggedOut.1 = Resolved tt ∧
  calls loggedOut.2 = calls e ++ [anyCall (PageGoto page SessionManager.BCA_LOGOUT_URL)] ∧
  closed.1 = Resolved tt ∧
  calls closed.2 = calls e ++ [anyCall (PageClose page); anyCall (BrowserClose browser)] ∧
  log closed.2
  = log e ++ closeSessionLog (respond w _ (length (calls e)) (PageClose page))
               (respond w _ (S (length (calls e))) (BrowserClose browser)) ∧
  this loggedOut.2 = this e ∧ this closed.2 = this e.
Proof.
  intros page browser loggedOut closed. subst loggedOut closed page browser.
  unfold SessionManager.logout, SessionManager.closeSession, closeSessionLog. simpl.
  destruct (respond w _ _ (PageGoto _ _)) as [[]|err0];
    destruct (respond w _ _ (PageClose _)) as [[]|err1]; simpl;
    rewrite ?length_app, ?Nat.add_1_r; simpl;
    destruct (respond w _ _ (BrowserClose _)) as [[]|err2]; simpl;
    rewrite <- ?app_assoc; done.
Qed.

(** X11. On a scheduler without a timer, [stop()] only logs that the
    scheduler is not running, and [start()] sets the zero-delay timer,
    after which [isRunning()] is true and a second [start()] only logs
    that the scheduler is already running.  [stop()] then sets
    [stopped], cancels that timer and resets [timerId], so that
    [isRunning()] tells whether a check is in progress. *)
Theorem start_stop_lifecycle (w : World) (e : Env) :
  timerId (this e) = None →
  let id := N.of_nat (length (scheduled e)) in
  let started := (run_sync w Scheduler.start e).2 in
  let halted := (run_sync w Scheduler.stop started).2 in
  run_sync w Scheduler.stop e
  = (Done (Resolved tt), add_log (LogLevel.warning, "Scheduler not running") e) ∧
  timerId (this started) = Some id ∧
  stopped (this started) = false ∧
  Scheduler.isRunning (this started) = true ∧
  timers started = timers e ++ [(id, clock e)] ∧
  run_sync w Scheduler.start started
  = (Done (Resolved tt), add_log (LogLevel.warning, "Scheduler already running") started) ∧
  (run_sync w Scheduler.stop started).1 = Done (Resolved tt) ∧
  stopped (this halted) = true ∧
  timerId (this halted) = None ∧
  Scheduler.isRunning (this halted) = checkInProgress (this e) ∧
  timers halted = filter (λ t, t.1 ≠ id) (timers e) ∧
  scheduled halted = scheduled e ++ [(id, clock e)].
Proof.
  intros Hid id started halted. subst started halted.
  split.
  { unfold Scheduler.stop. rewrite run_sync_perform. cbn [handle fst snd]. by rewrite Hid. }
  rewrite (run_sync_start w e Hid). cbn [snd].
  unfold Scheduler.start, Scheduler.stop, timerSet. simpl.
  rewrite N.add_0_r. fold id.
  rewrite filter_app, filter_cons, filter_nil. simpl.
  case_decide; [done|]. rewrite app_nil_r. unfold Scheduler.isRunning. simpl.
  by repeat split.
Qed.

Lemma start_stop_lifecycle_witness :
  let started := (run_sync browserDown Scheduler.start (freshEnv exampleScheduler)).2 in
  let halted := (run_sync browserDown Scheduler.stop started).2 in
  timers started = [(0%N, 0%N)] ∧ timers halted = [] ∧
  Scheduler.isRunning (this halted) = false.
Proof.
  destruct (start_stop_lifecycle browserDown (freshEnv exampleScheduler))
    as (_ & _ & _ & _ & Hstarted & _ & _ & _ & _ & Hrunning & Hhalted & _).
  - reflexivity.
  - split; [exact Hstarted|]. split; [exact Hhalted|exact Hrunning].
Defined.

(** ** Disciplines of programs *)

Section DisciplineFacts.
Context (J : Scheduler → bool) (ok : ∀ R : Type, Op R → bool).

Lemma Obeys_lax {A : Type} (p : Prog A) : ∀ b, Obeys J ok b p → Obeys J ok false p.
Proof.
  induction p as [a|err|R op k IH|R c k IH]; intros b; simpl; [done|done| |done].
  intros [_ Hk]. split; [done|]. intros r. eapply IH, Hk.
Qed.

Lemma Obeys_weaken {A : Type} (p : Prog A) b : Obeys J ok true p → Obeys J ok b p.
Proof. destruct b; [done|apply Obeys_lax]. Qed.

Lemma Obeys_andThen {A B : Type} (p : Prog A) (f : Outcome A → Prog B) : ∀ b,
  Obeys J ok b p → (∀ o, Obeys J ok true (f o)) → Obeys J ok b (andThen p f).
Proof.
  induction p as [a|err|R op k IH|R c k IH]; intros b; simpl.
  - intros _ Hf. apply Obeys_weaken, Hf.
  - intros _ Hf. apply Obeys_weaken, Hf.
  - intros [Hop Hk] Hf. split; [done|]. intros r. by apply IH.
  - intros Hk Hf o. by apply IH.
Qed.

Lemma Obeys_settle {A : Type} (o : Outcome A) b : Obeys J ok b (settle o).
Proof. by destruct o. Qed.

Lemma Obeys_bind {A B : Type} (p : Prog A) (f : A → Prog B) b :
  Obeys J ok b p → (∀ a, Obeys J ok true (f a)) → Obeys J ok b (bind p f).
Proof. intros Hp Hf. apply Obeys_andThen; [done|]. intros [a|err]; [apply Hf|done]. Qed.

Lemma Obeys_try_catch {A : Type} (p : Prog A) (h : Error → Prog A) b :
  Obeys J ok b p → (∀ err, Obeys J ok true (h err)) → Obeys J ok b (try_catch p h).
Proof. intros Hp Hh. apply Obeys_andThen; [done|]. intros [a|err]; [done|apply Hh]. Qed.

Lemma Obeys_try_finally {A : Type} (p : Prog A) (fin : Prog unit) b :
  Obeys J ok b p → Obeys J ok true fin → Obeys J ok b (try_finally p fin).
Proof.
  intros Hp Hfin. apply Obeys_andThen; [done|]. intros o.
  apply Obeys_bind; [done|]. intros _. apply Obeys_settle.
Qed.

Lemma Obeys_await_async {A : Type} (p : Prog A) b :
  Obeys J ok b p → Obeys J ok b (await_async p).
Proof.
  intros Hp. apply Obeys_andThen; [done|]. intros o. simpl. intros _. apply Obeys_settle.
Qed.

Lemma Obeys_await {R : Type} (c : Call R) b : Obeys J ok b (await c).
Proof. simpl. intros o. apply Obeys_settle. Qed.

Lemma Obeys_perform {R : Type} (op : Op R) b :
  (b = true → ok _ op = true) → Obeys J ok b (perform op).
Proof. simpl. done. Qed.

(** After an operation the rest is bound by the discipline unless the
    operation was a read of [this] that found the condition false. *)
Lemma Obeys_perform_bind {R B : Type} (op : Op R) (f : R → Prog B) b :
  (b = true → ok _ op = true) →
  (∀ r, Obeys J ok (b && negb (escapes J op r)) (f r)) →
  Obeys J ok b (bind (perform op) f).
Proof. simpl. done. Qed.

(** *** The asynchronous helpers perform plain operations only *)

Hypothesis ok_plain : ∀ (R : Type) (op : Op R), plain op = true → ok _ op = true.

Lemma Obeys_sendRequest config mutations account b :
  Obeys J ok b (WebhookClient.sendRequest config mutations account).
Proof.
  apply Obeys_weaken. unfold WebhookClient.sendRequest.
  apply Obeys_bind; [by apply Obeys_perform; auto|]. intros now.
  apply Obeys_bind; [by apply Obeys_perform; auto|]. intros _.
  apply Obeys_bind; [apply Obeys_await|]. intros response.
  by destruct (negb _).
Qed.

Lemma Obeys_retryLoop config mutations account attempts iterations : ∀ attempt lastError b,
  Obeys J ok b (WebhookClient.retryLoop config mutations account attempts iterations
                  attempt lastError).
Proof.
  induction iterations as [|it IH]; intros attempt lastError b; apply Obeys_weaken.
  - simpl. split; [auto|]. intros []. done.
  - cbn [WebhookClient.retryLoop]. apply Obeys_andThen.
    + apply Obeys_bind; [apply Obeys_await_async, Obeys_sendRequest|].
      intros _. by apply Obeys_perform; auto.
    + intros [[]|err]; [done|].
      apply Obeys_bind; [by apply Obeys_perform; auto|]. intros _.
      apply Obeys_bind.
      * destruct (_ <? _)%N; [|done].
        apply Obeys_bind; [by apply Obeys_perform; auto|]. intros _.
        apply Obeys_await.
      * intros _. apply IH.
Qed.

Lemma Obeys_send config mutations account b :
  Obeys J ok b (WebhookClient.send config mutations account).
Proof. apply Obeys_await_async, Obeys_retryLoop. Qed.

Lemma Obeys_handleError error context b :
  Obeys J ok b (ErrorHandler.handleError error context).
Proof.
  apply Obeys_weaken. unfold ErrorHandler.handleError, ErrorHandler.logError.
  apply Obeys_bind; [|done].
  destruct (ErrorHandler.isRecoverable _ _); by apply Obeys_perform; auto.
Qed.

Lemma Obeys_logout session b : Obeys J ok b (SessionManager.logout session).
Proof.
  apply Obeys_weaken. unfold SessionManager.logout.
  apply Obeys_bind; [by apply Obeys_perform; auto|]. intros _.
  apply Obeys_try_catch.
  - apply Obeys_bind; [apply Obeys_await|]. intros _. by apply Obeys_perform; auto.
  - intros _. by apply Obeys_perform; auto.
Qed.

Lemma Obeys_closeSession session b : Obeys J ok b (SessionManager.closeSession session).
Proof.
  apply Obeys_weaken. unfold SessionManager.closeSession.
  apply Obeys_bind; [by apply Obeys_perform; auto|]. intros _.
  apply Obeys_bind.
  - apply Obeys_try_catch; [apply Obeys_await|].
    intros _. by apply Obeys_perform; auto.
  - intros _. apply Obeys_try_catch.
    + apply Obeys_bind; [apply Obeys_await|]. intros _. by apply Obeys_perform; auto.
    + intros _. by apply Obeys_perform; auto.
Qed.

End DisciplineFacts.

Section Keeping.
Context (J : Scheduler → bool) (ok : ∀ R : Type, Op R → bool) (I : Env → Prop).
Hypothesis I_J : ∀ e, I e → J (this e) = true.
Hypothesis I_handle : ∀ w (R : Type) (op : Op R) e, ok _ op = true → I e → I (handle w op e).2.

Lemma escapes_handle w {R : Type} (op : Op R) e :
  I e → escapes J op (handle w op e).1 = false.
Proof.
  intros HI. destruct op; try done.
  simpl. by rewrite (I_J e HI).
Qed.

(** What a run leaves suspended is bound by the discipline. *)
Lemma run_sync_suspends w {A : Type} (p : Prog A) : ∀ b e,
  Obeys J ok b p →
  match (run_sync w p e).1 with
  | Done _ => True
  | Blocked c k => ∀ o, Obeys J ok true (k o)
  end.
Proof.
  induction p as [a|err|R op k IH|R c k IH]; intros b e; simpl; [done|done| |done].
  intros [_ Hk]. destruct (handle w op e) as [r e']. eapply IH, Hk.
Qed.

(** A run that starts in a state with the property ends in one. *)
Lemma run_sync_keeps w {A : Type} (p : Prog A) : ∀ e,
  Obeys J ok true p → I e → I (run_sync w p e).2.
Proof.
  induction p as [a|err|R op k IH|R c k IH]; intros e; simpl; [done|done| |done].
  intros [Hok Hk] HI.
  pose proof (escapes_handle w op e HI) as Hesc.
  pose proof (I_handle w R op e (Hok eq_refl) HI) as HI'.
  specialize (Hk (handle w op e).1). rewrite Hesc in Hk.
  destruct (handle w op e) as [r e']. by apply IH.
Qed.

Hypothesis I_call : ∀ (R : Type) (c : Call R) e, I e → I (elapse c (issue c e)).

Lemma run_task_keeps w {A : Type} (p : Prog A) : ∀ e,
  Obeys J ok true p → I e → I (run_task w p e).2.
Proof.
  induction p as [a|err|R op k IH|R c k IH]; intros e; simpl; [done|done| |].
  - intros [Hok Hk] HI.
    pose proof (escapes_handle w op e HI) as Hesc.
    pose proof (I_handle w R op e (Hok eq_refl) HI) as HI'.
    specialize (Hk (handle w op e).1). rewrite Hesc in Hk.
    destruct (handle w op e) as [r e']. by apply IH.
  - intros Hk HI. apply IH; [apply Hk|by apply I_call].
Qed.

End Keeping.

Section EventLoop.
Context (J : Scheduler → bool) (ok : ∀ R : Type, Op R → bool) (I : Env → Prop).
Context (allowed : Event → bool).
Hypothesis I_J : ∀ e, I e → J (this e) = true.
Hypothesis I_handle : ∀ w (R : Type) (op : Op R) e, ok _ op = true → I e → I (handle w op e).2.
Hypothesis I_quieter : ∀ e e', quieter e e' → I e → I e'.
Hypothesis lax_start : Obeys J ok false Scheduler.start.
Hypothesis lax_stop : Obeys J ok false Scheduler.stop.
Hypothesis lax_executeCheck : Obeys J ok false hostExecuteCheck.
Hypothesis lax_callback : Obeys J ok false Scheduler.checkCallback.
Hypothesis strict_start : allowed HostStart = true → Obeys J ok true Scheduler.start.
Hypothesis strict_stop : allowed HostStop = true → Obeys J ok true Scheduler.stop.
Hypothesis strict_executeCheck :
  allowed HostExecuteCheck = true → Obeys J ok true hostExecuteCheck.
Hypothesis strict_callback :
  ∀ id, allowed (TimerFires id) = true → Obeys J ok true Scheduler.checkCallback.

Lemma quieter_refl e : quieter e e.
Proof. done. Qed.

Lemma quieter_issue {R : Type} (c : Call R) e : quieter e (issue c e).
Proof. unfold issue. by destruct (isYield c). Qed.

Lemma park_TasksObey st e others place :
  match st with
  | Done _ => True
  | Blocked c k => ∀ o, Obeys J ok true (k o)
  end →
  Forall (TaskObeys J ok) others →
  (∀ t, TaskObeys J ok t → Forall (TaskObeys J ok) (place t)) →
  TasksObey J ok (park (st, e) others place).
Proof.
  unfold TasksObey. destruct st as [o|R c k]; simpl; [done|].
  intros Hk _ Hplace. by apply Hplace.
Qed.

Lemma park_I st e others place : I e → I (env (park (st, e) others place)).
Proof.
  destruct st as [o|R c k]; simpl; [done|].
  apply I_quieter, quieter_issue.
Qed.

Lemma launch_TasksObey w p m :
  Obeys J ok false p → TasksObey J ok m → TasksObey J ok (launch w p m).
Proof.
  intros Hp Hm. unfold launch.
  pose proof (run_sync_suspends J ok w p false (set_session None (env m)) Hp) as Hk.
  destruct (run_sync w p (set_session None (env m))) as [st e].
  apply park_TasksObey; [done|done|].
  intros t Ht. apply Forall_app. split; [done|]. by constructor.
Qed.

Lemma launch_I w p m : Obeys J ok true p → I (env m) → I (env (launch w p m)).
Proof.
  intros Hp Hm. unfold launch.
  pose proof (run_sync_keeps J ok I I_J I_handle w p (set_session None (env m)) Hp) as HI.
  destruct (run_sync w p (set_session None (env m))) as [st e].
  apply park_I, HI. by eapply I_quieter; [|exact Hm].
Qed.

Lemma step_TasksObey w m ev m' : TasksObey J ok m → step w m ev = Some m' → TasksObey J ok m'.
Proof.
  intros Hm. destruct ev as [| | |id|i|dt]; simpl.
  - intros [= <-]. by apply launch_TasksObey.
  - intros [= <-]. by apply launch_TasksObey.
  - intros [= <-]. by apply launch_TasksObey.
  - destruct (due _ _ _); [|done]. intros [= <-]. by apply launch_TasksObey.
  - destruct (tasks m !! i) as [[s seq at_ R c k]|] eqn:Hi; [|done].
    destruct (ready _ _ _); [|done]. intros [= <-].
    unfold TasksObey in Hm.
    pose proof (Forall_lookup_1 _ _ _ _ Hm Hi) as Hk. simpl in Hk.
    pose proof (run_sync_suspends J ok w _ true (set_session s (env m))
                  (Hk (answer w seq c))) as Hk'.
    destruct (run_sync w _ (set_session s (env m))) as [st e].
    apply park_TasksObey; [done| |].
    + by apply Forall_delete.
    + intros t Ht. by apply Forall_insert.
  - intros [= <-]. done.
Qed.

Lemma filter_timers_subseteq (id : TimerId) (ts : list (TimerId * N)) :
  filter (λ t, t.1 ≠ id) ts ⊆ ts.
Proof. intros t Ht. by apply list_elem_of_filter in Ht as [_ ?]. Qed.

Lemma step_I w m ev m' :
  TasksObey J ok m → I (env m) → allowed ev = true → step w m ev = Some m' → I (env m').
Proof.
  intros Hm HI. destruct ev as [| | |id|i|dt]; simpl; intros Hev.
  - intros [= <-]. apply launch_I; auto.
  - intros [= <-]. apply launch_I; auto.
  - intros [= <-]. apply launch_I; auto.
  - destruct (due _ _ _); [|done]. intros [= <-]. apply launch_I; eauto.
    simpl. eapply I_quieter; [|exact HI].
    split; [done|]. split; [done|]. apply filter_timers_subseteq.
  - destruct (tasks m !! i) as [[s seq at_ R c k]|] eqn:Hi; [|done].
    destruct (ready _ _ _); [|done]. intros [= <-].
    unfold TasksObey in Hm.
    pose proof (Forall_lookup_1 _ _ _ _ Hm Hi) as Hk. simpl in Hk.
    pose proof (run_sync_keeps J ok I I_J I_handle w _ (set_session s (env m))
                  (Hk (answer w seq c))) as HI'.
    destruct (run_sync w _ (set_session s (env m))) as [st e].
    apply park_I, HI'. by eapply I_quieter; [|exact HI].
  - intros [= <-]. simpl. by eapply I_quieter; [|exact HI].
Qed.

Lemma run_TasksObey w evs : ∀ m m', TasksObey J ok m → run w m evs = Some m' → TasksObey J ok m'.
Proof.
  induction evs as [|ev evs IH]; intros m m' Hm; simpl.
  - by intros [= <-].
  - destruct (step w m ev) as [m1|] eqn:Hstep; [|done].
    apply IH. by eapply step_TasksObey.
Qed.

Lemma run_I w evs : ∀ m m',
  TasksObey J ok m → I (env m) → forallb allowed evs = true →
  run w m evs = Some m' → I (env m').
Proof.
  induction evs as [|ev evs IH]; intros m m' Hm HI; simpl.
  - by intros _ [= <-].
  - intros [Hev Hevs]%andb_true_iff.
    destruct (step w m ev) as [m1|] eqn:Hstep; [|done].
    apply IH; [by eapply step_TasksObey|by eapply step_I|done].
Qed.

End EventLoop.

(** *** A stopped scheduler sets no timer *)

Ltac obeys_mode :=
  cbn [escapes andb negb];
  try match goal with
      | |- Obeys _ _ (negb (negb ?x)) _ => destruct x eqn:?; cbn [negb]
      end.

Ltac obeys_step :=
  match goal with
  | |- ∀ _, _ => intro
  | |- Obeys _ _ _ (bind (perform _) _) =>
      apply Obeys_perform_bind; [try done|intro; obeys_mode]
  | |- Obeys _ _ _ (bind _ _) => apply Obeys_bind
  | |- Obeys _ _ _ (try_finally _ _) => apply Obeys_try_finally
  | |- Obeys _ _ _ (try_catch _ _) => apply Obeys_try_catch
  | |- Obeys _ _ _ (await_async _) => apply Obeys_await_async
  | |- Obeys _ _ _ (perform _) => apply Obeys_perform; try done
  | |- Obeys _ _ _ (await _) => apply Obeys_await
  | |- Obeys _ _ _ (Ret _) => exact I
  | |- Obeys _ _ _ (Throw _) => exact I
  | |- Obeys _ _ _ (WebhookClient.send _ _ _) => apply Obeys_send; by intros ? []
  | |- Obeys _ _ _ (ErrorHandler.handleError _ _) => apply Obeys_handleError; by intros ? []
  | |- Obeys _ _ _ (SessionManager.logout _) => apply Obeys_logout; by intros ? []
  | |- Obeys _ _ _ (SessionManager.closeSession _) =>
      apply Obeys_closeSession; by intros ? []
  | |- Obeys _ _ _ (match ?x with _ => _ end) => destruct x eqn:?
  end.
Ltac obeys := repeat obeys_step.

Lemma calm_scheduleNextCheck delay b : Obeys stopped (@calm) b (Scheduler.scheduleNextCheck delay).
Proof. apply Obeys_weaken. unfold Scheduler.scheduleNextCheck. obeys. Qed.

Lemma calm_performCheck : Obeys stopped (@calm) true Scheduler.performCheck.
Proof.
  unfold Scheduler.performCheck, Scheduler.performCheck_try,
    Scheduler.performCheck_catch, Scheduler.performCheck_finally.
  obeys.
Qed.

Lemma calm_hostExecuteCheck : Obeys stopped (@calm) true hostExecuteCheck.
Proof.
  unfold hostExecuteCheck, Scheduler.executeCheck, Scheduler.executeCheckWith,
    Scheduler.executeCheck_guarded.
  obeys; apply Obeys_weaken, calm_performCheck.
Qed.

Lemma calm_checkCallback : Obeys stopped (@calm) true Scheduler.checkCallback.
Proof.
  unfold Scheduler.checkCallback, Scheduler.executeCheck, Scheduler.executeCheckWith,
    Scheduler.executeCheck_guarded.
  obeys; try apply calm_scheduleNextCheck; apply Obeys_weaken, calm_performCheck.
Qed.

Lemma calm_stop : Obeys stopped (@calm) true Scheduler.stop.
Proof. unfold Scheduler.stop. obeys. Qed.

Lemma lax_start (J : Scheduler → bool) (ok : ∀ R : Type, Op R → bool) :
  Obeys J ok false Scheduler.start.
Proof. unfold Scheduler.start, Scheduler.scheduleNextCheck. obeys. Qed.

Lemma stoppedWith_handle sch pending w {R : Type} (op : Op R) e :
  calm op = true → stoppedWith sch pending e → stoppedWith sch pending (handle w op e).2.
Proof.
  unfold stoppedWith. intros Hok (Hs & Hsch & Hts).
  destruct op; simpl in *; try done;
    repeat match goal with
           | |- context [let (_, _) := ?x in _] => destruct x
           | |- context [match proxyRotator ?x with _ => _ end] =>
               destruct (proxyRotator x)
           | v : bool |- _ => destruct v
           end; simpl; try done.
  repeat split; [done|done|].
  intros t Ht. apply Hts. by apply list_elem_of_filter in Ht as [_ ?].
Qed.

Lemma stoppedWith_quieter sch pending e e' :
  quieter e e' → stoppedWith sch pending e → stoppedWith sch pending e'.
Proof.
  unfold quieter, stoppedWith. intros (Hthis & Hsch & Hts) (Hs & Hsch' & Hts').
  rewrite Hthis, Hsch. repeat split; [done|done|]. set_solver.
Qed.

Lemma boot_TasksObey J ok s t0 : TasksObey J ok (boot s t0).
Proof. constructor. Qed.

(** X12. In every state the event loop reaches from a new scheduler: once
    [stopped] is set it stays set, and no timer is set, until [start()]
    is called again, whatever checks are in flight, whatever checks the
    host calls and whatever timers fire in between: the timers set so
    far stay the same and the pending ones can only go. *)
Theorem stopped_sets_no_timer (w : World) (s : Scheduler) (t0 : N)
    (before after : list Event) (m m' : Machine) :
  run w (boot s t0) before = Some m →
  stopped (this (env m)) = true →
  existsb isHostStart after = false →
  run w m after = Some m' →
  stopped (this (env m')) = true ∧
  scheduled (env m') = scheduled (env m) ∧
  timers (env m') ⊆ timers (env m).
Proof.
  intros Hbefore Hstopped Hafter Hrun.
  assert (TasksObey stopped (@calm) m) as Hm.
  { eapply (run_TasksObey stopped (@calm)); [..|exact Hbefore].
    - apply lax_start.
    - apply Obeys_weaken, calm_stop.
    - apply Obeys_weaken, calm_hostExecuteCheck.
    - apply Obeys_weaken, calm_checkCallback.
    - apply boot_TasksObey. }
  eapply (run_I stopped (@calm) (stoppedWith (scheduled (env m)) (timers (env m)))
            (λ ev, negb (isHostStart ev))); [..|exact Hrun].
  - by intros e (? & _).
  - intros w' R op e. apply stoppedWith_handle.
  - apply stoppedWith_quieter.
  - apply lax_start.
  - apply Obeys_weaken, calm_stop.
  - apply Obeys_weaken, calm_hostExecuteCheck.
  - apply Obeys_weaken, calm_checkCallback.
  - done.
  - intros _. apply calm_stop.
  - intros _. apply calm_hostExecuteCheck.
  - intros _ _. apply calm_checkCallback.
  - exact Hm.
  - done.
  - clear -Hafter. induction after as [|ev evs IH]; [done|].
    simpl in *. apply orb_false_iff in Hafter as [-> Hevs]. simpl. by apply IH.
Qed.

Lemma stopped_sets_no_timer_witness :
  stopped (this (env afterCheckWhileStopped)) = true ∧
  scheduled (env afterCheckWhileStopped) = scheduled (env stoppedAtOnce) ∧
  timers (env afterCheckWhileStopped) ⊆ timers (env stoppedAtOnce).
Proof.
  apply (stopped_sets_no_timer browserDown exampleScheduler 0%N [HostStart; HostStop]
           checkWhileStopped stoppedAtOnce afterCheckWhileStopped).
  - vm_compute. reflexivity.
  - vm_compute. reflexivity.
  - reflexivity.
  - vm_compute. reflexivity.
Defined.

Example check_while_stopped :
  (λ m, (CheckResult.success <$> results (env m), scheduled (env m), timers (env m),
         length (tasks m))) afterCheckWhileStopped
  = ([false], [(0%N, 0%N)], [], 0).
Proof. vm_compute. reflexivity. Qed.

(** *** A started scheduler keeps its timer id *)

Lemma keepsTimerId_performCheck : Obeys always (@keepsTimerId) true Scheduler.performCheck.
Proof.
  unfold Scheduler.performCheck, Scheduler.performCheck_try,
    Scheduler.performCheck_catch, Scheduler.performCheck_finally.
  obeys.
Qed.

Lemma keepsTimerId_scheduleNextCheck delay b :
  Obeys always (@keepsTimerId) b (Scheduler.scheduleNextCheck delay).
Proof. apply Obeys_weaken. unfold Scheduler.scheduleNextCheck. obeys. Qed.

Lemma keepsTimerId_hostExecuteCheck : Obeys always (@keepsTimerId) true hostExecuteCheck.
Proof.
  unfold hostExecuteCheck, Scheduler.executeCheck, Scheduler.executeCheckWith,
    Scheduler.executeCheck_guarded.
  obeys; apply Obeys_weaken, keepsTimerId_performCheck.
Qed.

Lemma keepsTimerId_checkCallback : Obeys always (@keepsTimerId) true Scheduler.checkCallback.
Proof.
  unfold Scheduler.checkCallback, Scheduler.executeCheck, Scheduler.executeCheckWith,
    Scheduler.executeCheck_guarded.
  obeys; try apply keepsTimerId_scheduleNextCheck;
    apply Obeys_weaken, keepsTimerId_performCheck.
Qed.

Lemma keepsTimerId_start : Obeys always (@keepsTimerId) true Scheduler.start.
Proof. unfold Scheduler.start. obeys; apply keepsTimerId_scheduleNextCheck. Qed.

Lemma lax_stop (J : Scheduler → bool) (ok : ∀ R : Type, Op R → bool) :
  Obeys J ok false Scheduler.stop.
Proof. unfold Scheduler.stop. obeys. Qed.

Lemma hasTimerId_handle w {R : Type} (op : Op R) e :
  keepsTimerId op = true → hasTimerId e → hasTimerId (handle w op e).2.
Proof.
  unfold hasTimerId. intros Hok He.
  destruct op; simpl in *; try done;
    repeat match goal with
           | |- context [let (_, _) := ?x in _] => destruct x
           | |- context [match proxyRotator ?x with _ => _ end] =>
               destruct (proxyRotator x)
           end; simpl; try done.
  by destruct v.
Qed.

(** X13. In every state the event loop reaches from a new scheduler: once
    [timerId] is set it is not reset before [stop()] is called, so
    [isRunning()] stays true until then, also between the firing of a
    timer and the setting of the next one, and after failed cycles. *)
Theorem isRunning_until_stop (w : World) (s : Scheduler) (t0 : N)
    (before after : list Event) (m m' : Machine) :
  run w (boot s t0) before = Some m →
  timerId (this (env m)) ≠ None →
  existsb isHostStop after = false →
  run w m after = Some m' →
  timerId (this (env m')) ≠ None ∧ Scheduler.isRunning (this (env m')) = true.
Proof.
  intros Hbefore Htimer Hafter Hrun.
  assert (TasksObey always (@keepsTimerId) m) as Hm.
  { eapply (run_TasksObey always (@keepsTimerId)); [..|exact Hbefore].
    - apply Obeys_weaken, keepsTimerId_start.
    - apply lax_stop.
    - apply Obeys_weaken, keepsTimerId_hostExecuteCheck.
    - apply Obeys_weaken, keepsTimerId_checkCallback.
    - apply boot_TasksObey. }
  assert (hasTimerId (env m')) as [id Hid].
  { eapply (run_I always (@keepsTimerId) hasTimerId (λ ev, negb (isHostStop ev)));
      [..|exact Hrun].
    - done.
    - intros w' R op e. apply hasTimerId_handle.
    - unfold quieter, hasTimerId. by intros e e' (-> & _).
    - apply Obeys_weaken, keepsTimerId_start.
    - apply lax_stop.
    - apply Obeys_weaken, keepsTimerId_hostExecuteCheck.
    - apply Obeys_weaken, keepsTimerId_checkCallback.
    - intros _. apply keepsTimerId_start.
    - done.
    - intros _. apply keepsTimerId_hostExecuteCheck.
    - intros _ _. apply keepsTimerId_checkCallback.
    - exact Hm.
    - unfold hasTimerId. by destruct (timerId (this (env m))).
    - clear -Hafter. induction after as [|ev evs IH]; [done|].
      simpl in *. apply orb_false_iff in Hafter as [-> Hevs]. simpl. by apply IH. }
  unfold Scheduler.isRunning. by rewrite Hid.
Qed.

Lemma isRunning_until_stop_witness :
  timerId (this (env afterSlowCycle)) ≠ None ∧
  Scheduler.isRunning (this (env afterSlowCycle)) = true.
Proof.
  apply (isRunning_until_stop browserDown exampleScheduler 0%N [HostStart]
           (tail slowCycle)
           (default (boot exampleScheduler 0%N)
                    (run browserDown (boot exampleScheduler 0%N) [HostStart]))
           afterSlowCycle).
  - vm_compute. reflexivity.
  - vm_compute. discriminate.
  - reflexivity.
  - vm_compute. reflexivity.
Defined.

(** ** The steps of [performCheck] *)

Lemma handle_calls w {R : Type} (op : Op R) e : calls (handle w op e).2 = calls e.
Proof.
  destruct op; simpl; try done;
    repeat match goal with
           | |- context [let (_, _) := ?x in _] => destruct x
           | |- context [match proxyRotator ?x with _ => _ end] =>
               destruct (proxyRotator x)
           end; simpl; try done.
Qed.

Lemma issue_calls {R : Type} (c : Call R) e :
  ∃ tr, calls (elapse c (issue c e)) = calls e ++ tr.
Proof.
  unfold issue. destruct c; simpl; try (by eexists [_]).
  exists []. by rewrite app_nil_r.
Qed.

(** Calls are only ever added. *)
Lemma run_task_calls w {A : Type} (p : Prog A) : ∀ e,
  ∃ tr, calls (run_task w p e).2 = calls e ++ tr.
Proof.
  induction p as [a|err|R op k IH|R c k IH]; intros e; simpl.
  - exists []. by rewrite app_nil_r.
  - exists []. by rewrite app_nil_r.
  - pose proof (handle_calls w op e) as Hc.
    destruct (handle w op e) as [r e']. simpl in Hc.
    destruct (IH r e') as [tr Htr]. exists tr. by rewrite Htr, Hc.
  - destruct (issue_calls c e) as [tr1 H1].
    destruct (IH (answer w (length (calls e)) c) (elapse c (issue c e))) as [tr2 H2].
    exists (tr1 ++ tr2). by rewrite H2, H1, app_assoc.
Qed.

Lemma cycleFrame_handle session0 pool agents w {R : Type} (op : Op R) e :
  inCycle op = true → cycleFrame session0 pool agents e →
  cycleFrame session0 pool agents (handle w op e).2.
Proof.
  unfold cycleFrame. intros Hok (Hs & Hp & Ha).
  destruct op; simpl in *; try done;
    repeat match goal with
           | |- context [let (_, _) := ?x in _] => destruct x
           | |- context [match proxyRotator ?x with _ => _ end] =>
               destruct (proxyRotator x)
           end; simpl; try done.
Qed.

Lemma cycleFrame_call session0 pool agents {R : Type} (c : Call R) e :
  cycleFrame session0 pool agents e → cycleFrame session0 pool agents (elapse c (issue c e)).
Proof. unfold cycleFrame, issue. by destruct c. Qed.

Lemma run_task_inCycle session0 pool agents w {A : Type} (p : Prog A) e :
  Obeys always (@inCycle) true p → cycleFrame session0 pool agents e →
  cycleFrame session0 pool agents (run_task w p e).2.
Proof.
  apply (run_task_keeps always (@inCycle) (cycleFrame session0 pool agents)).
  - done.
  - intros w' R op e'. apply cycleFrame_handle.
  - intros R c e'. apply cycleFrame_call.
Qed.

(** The [try] block: the draws, the session, and a frame for the rest. *)
Lemma run_task_performCheck_try w e :
  let options := sessionOptions e in
  let r := run_task w Scheduler.performCheck_try e in
  browserPool (this r.2) = browserPool (afterDraws (this e)) ∧
  userAgentRotator (this r.2) = userAgentRotator (afterDraws (this e)) ∧
  ∃ rest, calls r.2 = calls e ++ anyCall (CreateSession options) :: rest ∧
    match respond w _ (length (calls e)) (CreateSession options) with
    | Rejected err =>
        r.1 = Rejected err ∧ rest = [] ∧ session r.2 = session e ∧
        proxyRotator (this r.2) = proxyRotator (afterDraws (this e))
    | Resolved s => session r.2 = Some s
    end.
Proof.
  intros options r. subst r options.
  destruct (run_task w Scheduler.performCheck_try e) as [o ef] eqn:Hrun.
  unfold Scheduler.performCheck_try in Hrun.
  unfold sessionOptions, afterDraws.
  rewrite run_task_perform in Hrun. cbn [handle fst snd] in Hrun.
  destruct (BrowserPool.getNextBrowser (browserPool (this e))) as [b pool] eqn:Hb.
  cbn [fst snd] in Hrun |- *.
  rewrite run_task_perform in Hrun. cbn [handle fst snd this set_this] in Hrun.
  cbn [userAgentRotator with_browserPool] in Hrun.
  destruct (UserAgentRotator.getNextUserAgent b (userAgentRotator (this e)))
    as [ua agents] eqn:Hua.
  cbn [fst snd] in Hrun |- *.
  rewrite run_task_perform in Hrun. cbn [handle fst snd this set_this] in Hrun.
  cbn [proxyRotator with_userAgentRotator with_browserPool] in Hrun.
  destruct (proxyRotator (this e)) as [rot|] eqn:Hrot;
    [destruct (ProxyRotator.getNextProxy rot) as [px rot'] eqn:Hpx|];
    cbn [mbind option_bind fmap option_fmap option_map fst snd] in Hrun |- *;
    try rewrite Hpx; cbn [fst snd];
    rewrite run_task_perform in Hrun; cbn [handle fst snd] in Hrun;
    rewrite run_task_await in Hrun; cbn [answer] in Hrun;
    cbn [add_log set_this calls length] in Hrun;
    (match type of Hrun with
     | context [respond w _ _ ?c] =>
         destruct (respond w _ (length (calls e)) c) as [s|err]
     end);
    try (injection Hrun as <- <-; simpl; split; [done|]; split; [done|];
         by exists []);
    (rewrite run_task_perform in Hrun; cbn [handle fst snd] in Hrun;
     match type of Hrun with
     | run_task w ?p ?e0 = _ =>
         assert (Obeys always (@inCycle) true p) as Hp by obeys;
         assert (cycleFrame (Some s) pool agents e0) as Hpre by (by unfold cycleFrame);
         pose proof (run_task_inCycle (Some s) pool agents w p e0 Hp Hpre) as Hframe;
         destruct (run_task_calls w p e0) as [rest Hrest]
     end;
     rewrite Hrun in Hframe, Hrest; simpl in Hframe, Hrest;
     destruct Hframe as (Hsession & Hpool & Hagents);
     simpl; split; [done|]; split; [done|];
     exists rest; split; [|done];
     rewrite Hrest, <- app_assoc; done).
Qed.

(** The [catch] block: it logs, marks the session's proxy if the error
    calls for it, and throws the error again. *)
Lemma run_task_performCheck_catch w maxAttempts error e :
  let context := ErrorContext.mk "mutation-check" 1 maxAttempts (clock e) in
  let category := ErrorHandler.categorizeError error in
  let action :=
    ErrorHandler.determineAction category context
      (ErrorHandler.isRecoverable category context) in
  let r := run_task w (Scheduler.performCheck_catch maxAttempts error) e in
  r.1 = Rejected error ∧ calls r.2 = calls e ∧ cycleFrame (session e) (browserPool (this e))
                                                  (userAgentRotator (this e)) r.2 ∧
  proxyRotator (this r.2)
  = match proxyRotator (this e), Scheduler.sessionProxy (session e) with
    | Some rotator, Some server =>
        if Scheduler.isRetry action && includes (toLowerCase (message error)) "network"
        then Some (ProxyRotator.markProxyFailed (ProxyConfig.mk server None None) rotator)
        else Some rotator
    | rotator, _ => rotator
    end.
Proof.
  intros context category action r. subst r.
  destruct (run_task w (Scheduler.performCheck_catch maxAttempts error) e) as [o ef] eqn:Hrun.
  unfold Scheduler.performCheck_catch in Hrun.
  rewrite run_task_perform in Hrun. cbn [handle fst snd] in Hrun.
  rewrite run_task_bind in Hrun.
  fold context in Hrun.
  destruct (run_task_handleError w error context e) as (Hout & Hcalls & Hsame).
  destruct (run_task w (ErrorHandler.handleError error context) e) as [o1 e1].
  simpl in Hout, Hcalls, Hsame. subst o1.
  fold category in Hrun. fold action in Hrun.
  destruct Hsame as (Hthis & Hsession & _).
  rewrite run_task_perform in Hrun. cbn [handle fst snd] in Hrun.
  rewrite run_task_perform in Hrun. cbn [handle fst snd] in Hrun.
  rewrite Hthis, Hsession in Hrun.
  unfold cycleFrame.
  destruct (proxyRotator (this e)) as [rotator|] eqn:Hrot;
    [destruct (Scheduler.sessionProxy (session e)) as [server|];
     [destruct (Scheduler.isRetry action && _)|]|];
    simpl in Hrun; rewrite ?Hthis, ?Hrot in Hrun; simpl in Hrun;
    injection Hrun as <- <-; simpl; rewrite ?Hthis, ?Hrot; done.
Qed.

(** The [finally] block: it closes the session if there is one. *)
Lemma run_task_performCheck_finally w e :
  let r := run_task w Scheduler.performCheck_finally e in
  r.1 = Resolved tt ∧ this r.2 = this e ∧
  calls r.2 = calls e ++
    match session e with
    | Some s => [anyCall (PageClose (BrowserSession.page s));
                 anyCall (BrowserClose (BrowserSession.browser s))]
    | None => []
    end.
Proof.
  intros r. subst r. unfold Scheduler.performCheck_finally.
  rewrite run_task_perform. cbn [handle fst snd].
  destruct (session e) as [s|].
  - rewrite run_task_await_async.
    destruct (run_task_closeSession w s e) as (Hout & Hcalls & Hthis & _). done.
  - simpl. by rewrite app_nil_r.
Qed.

(** A cycle from its first call to its last. *)
Lemma run_task_performCheck w e :
  let options := sessionOptions e in
  let r := run_task w Scheduler.performCheck e in
  browserPool (this r.2) = browserPool (afterDraws (this e)) ∧
  userAgentRotator (this r.2) = userAgentRotator (afterDraws (this e)) ∧
  ∃ rest, calls r.2 = calls e ++ anyCall (CreateSession options) :: rest ∧
    match respond w _ (length (calls e)) (CreateSession options) with
    | Rejected err =>
        r.1 = Rejected err ∧ rest = [] ∧
        proxyRotator (this r.2) = proxyRotator (afterDraws (this e))
    | Resolved s =>
        ∃ mid, rest = mid ++ [anyCall (PageClose (BrowserSession.page s));
                              anyCall (BrowserClose (BrowserSession.browser s))]
    end.
Proof.
  intros options r. subst r options.
  destruct (run_task w Scheduler.performCheck e) as [o ef] eqn:Hrun.
  unfold Scheduler.performCheck in Hrun.
  rewrite run_task_perform in Hrun. cbn [handle fst snd] in Hrun.
  rewrite run_task_try_finally, run_task_try_catch in Hrun.
  destruct (run_task_performCheck_try w (set_session None e))
    as (Hpool1 & Hagents1 & rest1 & Hcalls1 & Hcase).
  change (sessionOptions (set_session None e)) with (sessionOptions e) in *.
  change (calls (set_session None e)) with (calls e) in *.
  change (this (set_session None e)) with (this e) in *.
  change (session (set_session None e)) with (@None BrowserSession.t) in *.
  destruct (run_task w Scheduler.performCheck_try (set_session None e)) as [o1 e1].
  cbn [fst snd] in Hpool1, Hagents1, Hcalls1, Hcase.
  assert (∃ o2 e2, (o2, e2) = match o1 with
                              | Resolved a => (Resolved a, e1)
                              | Rejected err =>
                                  run_task w (Scheduler.performCheck_catch 3 err) e1
                              end ∧
            calls e2 = calls e1 ∧
            cycleFrame (session e1) (browserPool (this e1)) (userAgentRotator (this e1)) e2 ∧
            (session e1 = None → o2 = o1 ∧ proxyRotator (this e2) = proxyRotator (this e1)))
    as (o2 & e2 & Heq & Hcalls2 & (Hsession2 & Hpool2 & Hagents2) & Hnone).
  { destruct o1 as [[]|err1].
    - eexists _, _. split; [reflexivity|]. by unfold cycleFrame.
    - destruct (run_task_performCheck_catch w 3%N err1 e1) as (Hout & Hcalls & Hframe & Hrot).
      destruct (run_task w (Scheduler.performCheck_catch 3 err1) e1) as [o2 e2].
      eexists _, _. split; [reflexivity|]. split; [done|]. split; [done|].
      intros Hs. simpl in *. split; [done|]. rewrite Hrot, Hs.
      by destruct (proxyRotator (this e1)). }
  rewrite <- Heq in Hrun.
  destruct (run_task_performCheck_finally w e2) as (Hout3 & Hthis3 & Hcalls3).
  destruct (run_task w Scheduler.performCheck_finally e2) as [o3 e3].
  cbn [fst snd] in Hout3, Hthis3, Hcalls3. subst o3. injection Hrun as <- <-.
  cbn [fst snd]. rewrite Hthis3, Hpool2, Hagents2.
  split; [done|]. split; [done|].
  rewrite Hcalls3, Hcalls2, Hcalls1, Hsession2.
  destruct (respond w _ (length (calls e)) (CreateSession (sessionOptions e))) as [s|err].
  - rewrite Hcase. eexists. split; [by rewrite <- app_assoc|]. by exists rest1.
  - destruct Hcase as (-> & -> & Hs & Hrot1). rewrite Hs.
    destruct (Hnone Hs) as [-> Hrot2].
    exists []. split; [by rewrite app_nil_r|]. by rewrite Hrot2.
Qed.

(** X14. Whatever the browser, the portal and the endpoint do, [performCheck]
    first creates a session with the next browser, user agent and proxy
    of its pools.  If that fails it makes no other call and rejects with
    that failure.  If it succeeds, the last two calls of the cycle close
    the page and the browser of that session, whether the cycle
    succeeds or fails. *)
Theorem session_always_closed (w : World) (e : Env) :
  let options := sessionOptions e in
  let r := run_task w Scheduler.performCheck e in
  ∃ rest, calls r.2 = calls e ++ anyCall (CreateSession options) :: rest ∧
    match respond w _ (length (calls e)) (CreateSession options) with
    | Rejected err => r.1 = Rejected err ∧ rest = []
    | Resolved s =>
        ∃ mid, rest = mid ++ [anyCall (PageClose (BrowserSession.page s));
                              anyCall (BrowserClose (BrowserSession.browser s))]
    end.
Proof.
  intros options r.
  destruct (run_task_performCheck w e) as (_ & _ & rest & Hcalls & Hcase).
  exists rest. split; [exact Hcalls|].
  fold options in Hcase.
  destruct (respond w _ (length (calls e)) (CreateSession options)); [done|].
  by destruct Hcase as (? & ? & _).
Qed.

(** An error whose message mentions the network is retried: it is an
    authentication or a network error, first of three attempts. *)
Lemma network_error_retries error timestamp :
  includes (toLowerCase (message error)) "network" = true →
  let context := ErrorContext.mk "mutation-check" 1 3 timestamp in
  let category := ErrorHandler.categorizeError error in
  Scheduler.isRetry
    (ErrorHandler.determineAction category context
       (ErrorHandler.isRecoverable category context)) = true.
Proof.
  intros Hnet context category. subst category.
  unfold ErrorHandler.categorizeError. rewrite Hnet.
  by destruct (_ || includes (toLowerCase (message error)) "401").
Qed.

Lemma append_inj_l (a x y : string) : a +:+ x = a +:+ y → x = y.
Proof. induction a as [|c a IH]; [done|]. intros [= H]. by apply IH. Qed.

(** The key the scheduler marks for a session is that of a proxy
    without a username. *)
Lemma serverKey_matches server p :
  ProxyConfig.server p = server →
  ProxyRotator.getProxyKey p = ProxyRotator.getProxyKey (ProxyConfig.mk server None None) ↔
  or_string (ProxyConfig.username p) "" = "".
Proof.
  intros <-. unfold ProxyRotator.getProxyKey. simpl. split.
  - intros H. by do 2 apply append_inj_l in H.
  - by intros ->.
Qed.

(** The [try] block when the login fails. *)
Lemma run_task_performCheck_try_login_fails w e rotator s error :
  proxyRotator (this e) = Some rotator →
  respond w _ (length (calls e)) (CreateSession (sessionOptions e)) = Resolved s →
  (∀ credentials, respond w _ (S (length (calls e))) (Login s credentials) = Rejected error) →
  ∃ e1, run_task w Scheduler.performCheck_try e = (Rejected error, e1) ∧
        session e1 = Some s ∧ clock e1 = clock e ∧
        proxyRotator (this e1) = Some (ProxyRotator.getNextProxy rotator).2 ∧
        calls e1 = calls e ++
          [anyCall (CreateSession (sessionOptions e));
           anyCall (Login s (Config.credentials (systemConfig (this e))))].
Proof.
  intros Hrot Hcreate Hlogin.
  destruct (run_task w Scheduler.performCheck_try e) as [o ef] eqn:Hrun.
  unfold Scheduler.performCheck_try in Hrun. unfold sessionOptions in *.
  rewrite run_task_perform in Hrun. cbn [handle fst snd] in Hrun.
  destruct (BrowserPool.getNextBrowser (browserPool (this e))) as [b pool].
  cbn [fst snd] in *.
  rewrite run_task_perform in Hrun. cbn [handle fst snd this set_this] in Hrun.
  cbn [userAgentRotator with_browserPool] in Hrun.
  destruct (UserAgentRotator.getNextUserAgent b (userAgentRotator (this e))) as [ua agents].
  cbn [fst snd] in *.
  rewrite run_task_perform in Hrun. cbn [handle fst snd this set_this] in Hrun.
  cbn [proxyRotator with_userAgentRotator with_browserPool] in Hrun.
  rewrite Hrot in *. cbn [mbind option_bind] in *.
  destruct (ProxyRotator.getNextProxy rotator) as [px rotator'].
  cbn [fst snd] in *.
  rewrite run_task_perform in Hrun. cbn [handle fst snd] in Hrun.
  rewrite run_task_await in Hrun. cbn [answer] in Hrun.
  cbn [add_log set_this calls length] in Hrun. rewrite Hcreate in Hrun.
  rewrite run_task_perform in Hrun. cbn [handle fst snd] in Hrun.
  rewrite run_task_perform in Hrun. cbn [handle fst snd] in Hrun.
  rewrite run_task_await in Hrun. cbn [answer] in Hrun.
  simpl calls in Hrun. rewrite length_app in Hrun. simpl length in Hrun.
  rewrite Nat.add_1_r, Hlogin in Hrun. injection Hrun as <- <-.
  eexists. split; [reflexivity|]. simpl. by rewrite <- app_assoc.
Qed.

(** X15. With a proxy rotator and a session that records its proxy server, a
    login failure whose message contains network, in any letter case,
    makes [performCheck] close the session, reject with that error and
    mark the proxy [{server}], without a username, as failed.  Of the
    pooled proxies on that server this excludes those without a
    username only: a proxy with a username has another key and stays
    in rotation. *)
Theorem network_failure_marks_server (w : World) (e : Env) (rotator : ProxyRotator.t)
    (s : BrowserSession.t) (server : string) (error : Error) :
  proxyRotator (this e) = Some rotator →
  respond w _ (length (calls e)) (CreateSession (sessionOptions e)) = Resolved s →
  BrowserSession.proxy s = Some server → server ≠ "" →
  (∀ credentials, respond w _ (S (length (calls e))) (Login s credentials) = Rejected error) →
  includes (toLowerCase (message error)) "network" = true →
  let r := run_task w Scheduler.performCheck e in
  let marked :=
    ProxyRotator.markProxyFailed (ProxyConfig.mk server None None)
      (ProxyRotator.getNextProxy rotator).2 in
  r.1 = Rejected error ∧
  calls r.2 = calls e ++
    [anyCall (CreateSession (sessionOptions e));
     anyCall (Login s (Config.credentials (systemConfig (this e))));
     anyCall (PageClose (BrowserSession.page s));
     anyCall (BrowserClose (BrowserSession.browser s))] ∧
  proxyRotator (this r.2) = Some marked ∧
  (∀ p, ProxyConfig.server p = server →
        ProxyRotator.isProxyFailed p marked = true ↔
        or_string (ProxyConfig.username p) "" = "" ∨
        ProxyRotator.isProxyFailed p rotator = true).
Proof.
  intros Hrot Hcreate Hproxy Hserver Hlogin Hnet r marked. subst r.
  destruct (run_task w Scheduler.performCheck e) as [o ef] eqn:Hrun.
  unfold Scheduler.performCheck in Hrun.
  rewrite run_task_perform in Hrun. cbn [handle fst snd] in Hrun.
  rewrite run_task_try_finally, run_task_try_catch in Hrun.
  destruct (run_task_performCheck_try_login_fails w (set_session None e) rotator s error
              Hrot Hcreate Hlogin)
    as (e1 & Htry & Hsession1 & Hclock1 & Hrot1 & Hcalls1).
  change (sessionOptions (set_session None e)) with (sessionOptions e) in *.
  change (calls (set_session None e)) with (calls e) in *.
  change (this (set_session None e)) with (this e) in *.
  rewrite Htry in Hrun.
  destruct (run_task_performCheck_catch w 3%N error e1)
    as (Hout2 & Hcalls2 & (Hsession2 & _) & Hrot2).
  destruct (run_task w (Scheduler.performCheck_catch 3 error) e1) as [o2 e2].
  cbn [fst snd] in Hout2, Hcalls2, Hsession2, Hrot2. subst o2.
  rewrite Hrot1, Hsession1 in Hrot2. unfold Scheduler.sessionProxy in Hrot2.
  rewrite Hproxy in Hrot2.
  destruct (String.eqb_spec server "") as [|_]; [done|].
  rewrite (network_error_retries error (clock e1) Hnet), Hnet in Hrot2. simpl in Hrot2.
  destruct (run_task_performCheck_finally w e2) as (Hout3 & Hthis3 & Hcalls3).
  destruct (run_task w Scheduler.performCheck_finally e2) as [o3 e3].
  cbn [fst snd] in Hout3, Hthis3, Hcalls3. subst o3. injection Hrun as <- <-.
  cbn [fst snd]. split; [done|]. split; [|split].
  - rewrite Hcalls3, Hsession2, Hsession1, Hcalls2, Hcalls1. by rewrite <- app_assoc.
  - by rewrite Hthis3, Hrot2.
  - intros p Hp. subst marked.
    unfold ProxyRotator.isProxyFailed, ProxyRotator.markProxyFailed.
    cbn [ProxyRotator.failedProxies].
    pose proof (ProxyRotatorFacts.getNextProxy_fields rotator) as [_ Hfailed].
    rewrite Hfailed, !ProxyRotatorFacts.has_true.
    rewrite <- (serverKey_matches server p Hp).
    by rewrite elem_of_union, elem_of_singleton.
Qed.

Lemma network_failure_marks_server_witness :
  let r := run_task networkDown Scheduler.performCheck (freshEnv rotatingScheduler) in
  r.1 = Rejected (newError "page.goto: net::ERR_NETWORK_CHANGED") ∧
  (ProxyRotator.isProxyFailed proxyB <$> proxyRotator (this r.2)) = Some false.
Proof.
  destruct (network_failure_marks_server networkDown (freshEnv rotatingScheduler)
              (ProxyRotator.mk [proxyB; proxyA] 0 ∅)
              (sessionFor (sessionOptions (freshEnv rotatingScheduler)))
              "10.0.0.2:8080" (newError "page.goto: net::ERR_NETWORK_CHANGED"))
    as (Hout & _ & Hrot & _).
  - reflexivity.
  - reflexivity.
  - reflexivity.
  - discriminate.
  - intros credentials. reflexivity.
  - vm_compute. reflexivity.
  - split; [exact Hout|]. rewrite Hrot. vm_compute. reflexivity.
Defined.

Lemma afterDraws_pools s :
  browserPool (afterDraws s) = (BrowserPool.getNextBrowser (browserPool s)).2 ∧
  userAgentRotator (afterDraws s)
  = (UserAgentRotator.getNextUserAgent (BrowserPool.getNextBrowser (browserPool s)).1
       (userAgentRotator s)).2.
Proof.
  unfold afterDraws.
  destruct (BrowserPool.getNextBrowser (browserPool s)) as [b pool]. cbn [fst snd].
  by destruct (UserAgentRotator.getNextUserAgent b (userAgentRotator s)).
Qed.

(** A whole call of [executeCheck] on an idle scheduler. *)
Lemma run_task_executeCheck_cycle w e :
  checkInProgress (this e) = false →
  let r := run_task w Scheduler.executeCheck e in
  checkInProgress (this r.2) = false ∧
  browserPool (this r.2) = browserPool (afterDraws (this e)) ∧
  userAgentRotator (this r.2) = userAgentRotator (afterDraws (this e)) ∧
  ∃ rest, calls r.2 = calls e ++ anyCall (CreateSession (sessionOptions e)) :: rest.
Proof.
  intros idle r. subst r.
  destruct (run_task w Scheduler.executeCheck e) as [o ef] eqn:Hrun.
  unfold Scheduler.executeCheck, Scheduler.executeCheckWith in Hrun.
  rewrite run_task_perform in Hrun. cbn [handle fst snd] in Hrun.
  rewrite idle in Hrun.
  rewrite run_task_perform in Hrun. cbn [handle fst snd] in Hrun.
  rewrite run_task_perform in Hrun. cbn [handle fst snd] in Hrun.
  unfold Scheduler.executeCheck_guarded in Hrun.
  rewrite run_task_try_finally, run_task_try_catch in Hrun.
  rewrite run_task_perform in Hrun. cbn [handle fst snd] in Hrun.
  rewrite run_task_bind, run_task_await_async in Hrun.
  match type of Hrun with context [run_task w Scheduler.performCheck ?e0] =>
    destruct (run_task_performCheck w e0) as (Hpool & Hagents & rest & Hcalls & _);
    destruct (run_task w Scheduler.performCheck e0) as [o1 e1]
  end.
  cbn [fst snd] in Hpool, Hagents, Hcalls.
  destruct (afterDraws_pools (this e)) as [Hp Ha].
  match type of Hpool with _ = browserPool (afterDraws ?s) =>
    destruct (afterDraws_pools s) as [Hp' Ha']
  end.
  rewrite Hp' in Hpool. rewrite Ha' in Hagents. simpl in Hpool, Hagents, Hcalls.
  rewrite Hp, Ha.
  destruct o1 as [[]|err1]; simpl in Hrun; injection Hrun as <- <-; simpl;
    (split; [done|]; split; [done|]; split; [done|]; by exists rest).
Qed.

(** Where the cursors stand after [k] cycles. *)
Lemma cycles_pools w e browsers : ∀ k,
  checkInProgress (this e) = false →
  browserPool (this e) = BrowserPool.mk browsers 0 →
  0 < length browsers →
  let ek := cycles w k e in
  checkInProgress (this ek) = false ∧
  browserPool (this ek) = BrowserPool.mk browsers (k mod length browsers) ∧
  ∀ agents,
    userAgentRotator (this e) = UserAgentRotator.mk agents 0 →
    userAgentRotator (this ek)
    = UserAgentRotator.mk agents (if 0 <? length agents then k mod length agents else 0).
Proof.
  intros k idle Hpool Hne. induction k as [|k IH].
  - simpl. rewrite Nat.Div0.mod_0_l. split; [done|]. split; [done|].
    intros agents ->. destruct (0 <? length agents); [|done].
    by rewrite Nat.Div0.mod_0_l.
  - destruct IH as (Hidle & Hpoolk & Hagentsk).
    change (cycles w (S k) e) with ((run_task w Scheduler.executeCheck (cycles w k e)).2).
    set (ek := cycles w k e) in *.
    destruct (run_task_executeCheck_cycle w ek Hidle) as (Hidle' & Hpool' & Hagents' & _).
    destruct (afterDraws_pools (this ek)) as [Hp Ha].
    rewrite Hp in Hpool'. rewrite Ha in Hagents'.
    split; [done|]. split.
    + rewrite Hpool', Hpoolk. unfold BrowserPool.getNextBrowser. simpl.
      f_equal. rewrite Nat.Div0.add_mod_idemp_l. f_equal. lia.
    + intros agents Hagents. rewrite Hagents', (Hagentsk agents Hagents).
      unfold UserAgentRotator.getNextUserAgent. simpl.
      destruct (0 <? length agents); [|done]. simpl.
      f_equal. rewrite Nat.Div0.add_mod_idemp_l. f_equal. lia.
Qed.

(** X16. The cycles of an idle scheduler with fresh pools, run one after the
    other, go through the configured browsers in order, whatever
    happens in each cycle: cycle number [k], from 0, creates its session
    headless with browser [browsers[k mod N]] and with the custom user
    agent [userAgents[k mod M]], or, when there are no custom user
    agents, with the default user agent of that browser. *)
Theorem cycles_rotate_browsers (w : World) (e : Env) (k : nat)
    (b : BrowserType) (bs : list BrowserType) :
  checkInProgress (this e) = false →
  browserPool (this e) = BrowserPool.mk (b :: bs) 0 →
  let ek := cycles w k e in
  let options := sessionOptions ek in
  (∃ rest, calls (run_task w Scheduler.executeCheck ek).2
           = calls ek ++ anyCall (CreateSession options) :: rest) ∧
  SessionOptions.browserType options = (b :: bs) !! (k mod length (b :: bs)) ∧
  SessionOptions.headless options = true ∧
  (∀ u us, userAgentRotator (this e) = UserAgentRotator.mk (u :: us) 0 →
           SessionOptions.userAgent options = (u :: us) !! (k mod length (u :: us))) ∧
  (userAgentRotator (this e) = UserAgentRotator.mk [] 0 →
   SessionOptions.userAgent options
   = UserAgentRotator.getDefaultUserAgent (SessionOptions.browserType options)).
Proof.
  intros idle Hpool ek options.
  destruct (cycles_pools w e (b :: bs) k idle Hpool) as (Hidle & Hpoolk & Hagentsk);
    [simpl; lia|].
  fold ek in Hidle, Hpoolk, Hagentsk.
  destruct (run_task_executeCheck_cycle w ek Hidle) as (_ & _ & _ & Hcalls).
  split; [exact Hcalls|].
  subst options. unfold sessionOptions. cbn [SessionOptions.browserType
    SessionOptions.headless SessionOptions.userAgent].
  rewrite Hpoolk. unfold BrowserPool.getNextBrowser at 1 2 3.
  cbn [fst BrowserPool.browsers BrowserPool.currentIndex].
  split; [done|]. split; [done|]. split.
  - intros u us Hagents. rewrite (Hagentsk _ Hagents).
    unfold UserAgentRotator.getNextUserAgent. simpl. done.
  - intros Hagents. rewrite (Hagentsk _ Hagents).
    unfold UserAgentRotator.getNextUserAgent. simpl. done.
Qed.

Lemma cycles_rotate_browsers_witness :
  let options := sessionOptions (cycles browserDown 3 (freshEnv rotatingScheduler)) in
  SessionOptions.browserType options = Some edge ∧
  SessionOptions.userAgent options = Some "agent-1".
Proof.
  destruct (cycles_rotate_browsers browserDown (freshEnv rotatingScheduler) 3
              chromium [edge]) as (_ & Hbrowser & _ & Hagent & _).
  - reflexivity.
  - reflexivity.
  - split; [exact Hbrowser|]. exact (Hagent "agent-1" ["agent-2"; "agent-3"] eq_refl).
Defined.

(** ** One chain of timers *)

Lemma escapes_always {R : Type} (op : Op R) (r : R) : escapes always op r = false.
Proof. by destruct op. Qed.

Lemma timerFrame_handle ts id w {R : Type} (op : Op R) e :
  timerFree op = true → timerFrame ts id e → timerFrame ts id (handle w op e).2.
Proof.
  unfold timerFrame. intros Hok He.
  destruct op; simpl in *; try done;
    repeat match goal with
           | |- context [let (_, _) := ?x in _] => destruct x
           | |- context [match proxyRotator ?x with _ => _ end] =>
               destruct (proxyRotator x)
           end; simpl; try done.
Qed.

Lemma run_sync_TimerFree w {A : Type} (p : Prog A) e :
  TimerFree p →
  timers (run_sync w p e).2 = timers e ∧
  timerId (this (run_sync w p e).2) = timerId (this e) ∧
  match (run_sync w p e).1 with
  | Done _ => True
  | Blocked c k => ∀ o, TimerFree (k o)
  end.
Proof.
  intros Hp.
  destruct (run_sync_keeps always (@timerFree) (timerFrame (timers e) (timerId (this e)))
              (λ _ _, eq_refl) (timerFrame_handle _ _) w p e Hp) as [Hts Hid]; [done|].
  split; [done|]. split; [done|].
  by apply (run_sync_suspends always (@timerFree) w p true e).
Qed.

Lemma SetsTimer_free {A : Type} (p : Prog A) : TimerFree p → SetsTimer p.
Proof.
  unfold TimerFree.
  induction p as [a|err|R op k IH|R c k IH]; simpl; try done.
  - intros [Hok Hk]. left. split; [by apply Hok|].
    intros r. apply IH. specialize (Hk r). by rewrite escapes_always in Hk.
  - intros Hk o. by apply IH.
Qed.

(** A timer-free program followed by one that may set a timer. *)
Lemma SetsTimer_andThen_free {A B : Type} (p : Prog A) (f : Outcome A → Prog B) :
  TimerFree p → (∀ o, SetsTimer (f o)) → SetsTimer (andThen p f).
Proof.
  unfold TimerFree. intros Hp Hf.
  induction p as [a|err|R op k IH|R c k IH]; simpl in *; try done.
  - destruct Hp as [Hok Hk]. left. split; [by apply Hok|].
    intros r. apply IH. specialize (Hk r). by rewrite escapes_always in Hk.
  - intros o. by apply IH.
Qed.

Lemma SetsTimer_scheduleNextCheck delay : SetsTimer (Scheduler.scheduleNextCheck delay).
Proof.
  unfold Scheduler.scheduleNextCheck. simpl. left. split; [done|].
  intros this. destruct (stopped this); simpl; [done|].
  right. split; [done|]. intros id. eexists. split; [reflexivity|]. done.
Qed.

Lemma TimerFree_performCheck : TimerFree Scheduler.performCheck.
Proof.
  unfold TimerFree, Scheduler.performCheck, Scheduler.performCheck_try,
    Scheduler.performCheck_catch, Scheduler.performCheck_finally.
  obeys.
Qed.

Lemma TimerFree_executeCheck : TimerFree Scheduler.executeCheck.
Proof.
  unfold TimerFree, Scheduler.executeCheck, Scheduler.executeCheckWith,
    Scheduler.executeCheck_guarded.
  obeys; apply Obeys_weaken, TimerFree_performCheck.
Qed.

Lemma TimerFree_hostExecuteCheck : TimerFree hostExecuteCheck.
Proof.
  unfold hostExecuteCheck. apply Obeys_bind; [apply TimerFree_executeCheck|].
  intros r. by apply Obeys_perform.
Qed.

Lemma SetsTimer_checkCallback : SetsTimer Scheduler.checkCallback.
Proof.
  unfold Scheduler.checkCallback, bind at 1.
  apply SetsTimer_andThen_free.
  - apply Obeys_await_async, TimerFree_executeCheck.
  - intros [r|err]; [|done].
    cbn [bind perform andThen SetsTimer]. left. split; [done|].
    intros this. destruct (negb (stopped this)); [|done].
    apply SetsTimer_scheduleNextCheck.
Qed.

(** A run of a program that may set a timer: either nothing has
    happened to the timers yet, or the one timer is set and named by
    [timerId], and what is left is timer-free. *)
Lemma run_sync_SetsTimer w {A : Type} (p : Prog A) : ∀ e,
  SetsTimer p →
  let r := run_sync w p e in
  (timers r.2 = timers e ∧ timerId (this r.2) = timerId (this e) ∧
   match r.1 with
   | Done _ => True
   | Blocked c k => ∀ o, SetsTimer (k o)
   end) ∨
  (∃ t, timers r.2 = timers e ++ [t] ∧ timerId (this r.2) = Some t.1 ∧
   match r.1 with
   | Done _ => True
   | Blocked c k => ∀ o, TimerFree (k o)
   end).
Proof.
  induction p as [a|err|R op k IH|R c k IH]; intros e Hp; simpl in *.
  - by left.
  - by left.
  - destruct Hp as [[Hok Hk]|[Hset Hk]].
    + pose proof (timerFrame_handle (timers e) (timerId (this e)) w op e Hok) as Hframe.
      destruct (handle w op e) as [r e1]. destruct Hframe as [Hts Hid]; [done|].
      simpl in Hts, Hid. rewrite <- Hts, <- Hid. by apply IH.
    + destruct op; try done. simpl.
      destruct (Hk (N.of_nat (length (scheduled e)))) as (k' & -> & Hfree).
      simpl.
      match goal with |- context [run_sync w (k' tt) ?e1] =>
        destruct (run_sync_TimerFree w (k' tt) e1 (Hfree tt)) as (Hts & Hid & Hpark)
      end.
      right. eexists. split; [exact Hts|]. split; [by rewrite Hid|exact Hpark].
  - left. done.
Qed.

(** *** The tasks of a chain *)

Lemma Chains_snoc_free n ts t : Chains n ts → TaskTimerFree t → Chains n (ts ++ [t]).
Proof.
  intros Hts Ht. induction Hts; simpl.
  - apply Chains_free; [done|constructor].
  - by apply Chains_free.
  - by apply Chains_setter.
Qed.

Lemma Chains_snoc_setter n ts t : Chains n ts → TaskSetsTimer t → Chains (S n) (ts ++ [t]).
Proof.
  intros Hts Ht. induction Hts; simpl.
  - apply Chains_setter; [done|constructor].
  - by apply Chains_free.
  - by apply Chains_setter.
Qed.

Lemma Chains_lookup n ts : Chains n ts → ∀ i t, ts !! i = Some t →
  (TaskTimerFree t ∧ Chains n (delete i ts) ∧
   ∀ t', TaskTimerFree t' → Chains n (<[i := t']> ts)) ∨
  (∃ n', n = S n' ∧ TaskSetsTimer t ∧ Chains n' (delete i ts) ∧
         (∀ t', TaskTimerFree t' → Chains n' (<[i := t']> ts)) ∧
         (∀ t', TaskSetsTimer t' → Chains n (<[i := t']> ts))).
Proof.
  induction 1 as [|n t0 ts Ht0 Hts IH|n t0 ts Ht0 Hts IH]; intros i t Hi; [done|..].
  - destruct i as [|i]; simpl in *.
    + injection Hi as <-. left. split; [done|]. split; [done|].
      intros t' Ht'. by apply Chains_free.
    + destruct (IH i t Hi) as [(Ht & Hdel & Hins)|(n' & -> & Ht & Hdel & Hins & Hins')].
      * left. split; [done|]. split; [by apply Chains_free|].
        intros t' Ht'. apply Chains_free; [done|by apply Hins].
      * right. exists n'. split; [done|]. split; [done|]. split; [by apply Chains_free|].
        split; intros t' Ht'; apply Chains_free; auto.
  - destruct i as [|i]; simpl in *.
    + injection Hi as <-. right. exists n. split; [done|]. split; [done|]. split; [done|].
      split; intros t' Ht'; [by apply Chains_free|by apply Chains_setter].
    + destruct (IH i t Hi) as [(Ht & Hdel & Hins)|(n' & -> & Ht & Hdel & Hins & Hins')].
      * left. split; [done|]. split; [by apply Chains_setter|].
        intros t' Ht'. apply Chains_setter; [done|by apply Hins].
      * right. exists (S n'). split; [done|]. split; [done|].
        split; [by apply Chains_setter|].
        split; intros t' Ht'; apply Chains_setter; auto.
Qed.

(** *** The event loop keeps one chain *)

Lemma park_OneChain_free st e others place n :
  match st with
  | Done _ => True
  | Blocked c k => ∀ o, TimerFree (k o)
  end →
  Chains n others →
  (∀ t, TaskTimerFree t → Chains n (place t)) →
  n + length (timers e) ≤ 1 →
  (∀ t, t ∈ timers e → timerId (this e) = Some t.1) →
  (timerId (this e) = None → n = 0) →
  OneChain (park (st, e) others place).
Proof.
  intros Hst Hothers Hplace Hle Hcur Hnone. exists n.
  destruct st as [o|R c k]; simpl.
  - done.
  - split; [by apply Hplace|]. unfold issue. by destruct (isYield c).
Qed.

Lemma park_OneChain_setter st e others place :
  match st with
  | Done _ => True
  | Blocked c k => ∀ o, SetsTimer (k o)
  end →
  Chains 0 others →
  (∀ t, TaskSetsTimer t → Chains 1 (place t)) →
  timers e = [] →
  timerId (this e) ≠ None →
  OneChain (park (st, e) others place).
Proof.
  intros Hst Hothers Hplace Hts Hid.
  destruct st as [o|R c k]; simpl.
  - exists 0. simpl. rewrite Hts. split; [done|]. split; [simpl; lia|]. split; [|done].
    intros t Ht. by apply elem_of_nil in Ht.
  - exists 1. simpl. split; [by apply Hplace|].
    unfold issue. destruct (isYield c); simpl; rewrite Hts;
      (split; [simpl; lia|]); (split; [|done]);
      intros t Ht; by apply elem_of_nil in Ht.
Qed.

(** What is left of a program that may set a timer, started with no
    timer pending and [timerId] set. *)
Lemma park_SetsTimer w p e others place :
  SetsTimer p →
  Chains 0 others →
  (∀ t, TaskTimerFree t → Chains 0 (place t)) →
  (∀ t, TaskSetsTimer t → Chains 1 (place t)) →
  timers e = [] →
  timerId (this e) ≠ None →
  OneChain (park (run_sync w p e) others place).
Proof.
  intros Hp Hothers Hfree Hset Hts Hid.
  destruct (run_sync_SetsTimer w p e Hp) as [(Hts' & Hid' & Hst)|(t & Hts' & Hid' & Hst)];
    destruct (run_sync w p e) as [st e']; simpl in *.
  - apply park_OneChain_setter; try done; congruence.
  - apply (park_OneChain_free _ _ _ _ 0); try done.
    + rewrite Hts', Hts. simpl. lia.
    + intros t'. rewrite Hts', Hts. simpl. intros ->%list_elem_of_singleton. done.
Qed.

Lemma park_TimerFree w p e others place n :
  TimerFree p →
  Chains n others →
  (∀ t, TaskTimerFree t → Chains n (place t)) →
  n + length (timers e) ≤ 1 →
  (∀ t, t ∈ timers e → timerId (this e) = Some t.1) →
  (timerId (this e) = None → n = 0) →
  OneChain (park (run_sync w p e) others place).
Proof.
  intros Hp Hothers Hplace Hle Hcur Hnone.
  destruct (run_sync_TimerFree w p e Hp) as (Hts & Hid & Hst).
  destruct (run_sync w p e) as [st e']; simpl in *.
  apply (park_OneChain_free _ _ _ _ n); try done; by rewrite ?Hts, ?Hid.
Qed.

Lemma run_sync_start_running w e (id : TimerId) :
  timerId (this e) = Some id →
  run_sync w Scheduler.start e
  = (Done (Resolved tt), add_log (LogLevel.warning, "Scheduler already running") e).
Proof.
  intros Hid. unfold Scheduler.start. rewrite run_sync_perform. cbn [handle fst snd].
  by rewrite Hid.
Qed.

Lemma due_pending now (id : TimerId) ts :
  due now id ts = true → ∃ t, t ∈ ts ∧ t.1 = id.
Proof.
  unfold due. intros (t & Hin & Ht)%existsb_exists.
  apply andb_true_iff in Ht as [Hid _]. apply N.eqb_eq in Hid.
  exists t. split; [by apply list_elem_of_In|done].
Qed.

Lemma step_OneChain w m ev m' :
  OneChain m → isHostStop ev = false → step w m ev = Some m' → OneChain m'.
Proof.
  intros (n & Htasks & Hle & Hcur & Hnone) Hev Hstep.
  destruct ev as [| | |id|i|dt]; simpl in Hstep; try done.
  - (* start() *)
    injection Hstep as <-. unfold launch.
    destruct (timerId (this (env m))) as [id|] eqn:Hid.
    + rewrite (run_sync_start_running w _ id) by done. simpl.
      exists n. simpl. by rewrite Hid.
    + rewrite run_sync_start by done. simpl.
      assert (timers (env m) = []) as Hts.
      { destruct (timers (env m)) as [|t ts]; [done|].
        specialize (Hcur t (list_elem_of_here _ _)). congruence. }
      exists 0. simpl. rewrite Hts. rewrite (Hnone eq_refl) in Htasks.
      split; [done|]. split; [simpl; lia|]. split; [|done].
      intros t ->%list_elem_of_singleton. done.
  - (* executeCheck() called by the host *)
    injection Hstep as <-. unfold launch.
    apply (park_TimerFree _ _ _ _ _ n); try done.
    + apply TimerFree_hostExecuteCheck.
    + intros t Ht. by apply Chains_snoc_free.
  - (* a timer fires *)
    destruct (due _ _ _) eqn:Hdue; [|done]. injection Hstep as <-. unfold launch.
    destruct (due_pending _ _ _ Hdue) as (t & Hin & Ht).
    destruct (timers (env m)) as [|t0 ts] eqn:Hts; [by apply elem_of_nil in Hin|].
    simpl in Hle. assert (n = 0) as -> by lia. assert (ts = []) as ->.
    { destruct ts; [done|]. simpl in Hle. lia. }
    apply list_elem_of_singleton in Hin as <-.
    apply park_SetsTimer; simpl.
    + apply SetsTimer_checkCallback.
    + done.
    + intros t' Ht'. by apply Chains_snoc_free.
    + intros t' Ht'. by apply Chains_snoc_setter.
    + rewrite filter_cons, filter_nil. by case_decide.
    + by rewrite (Hcur t (list_elem_of_here _ _)).
  - (* a call settles *)
    destruct (tasks m !! i) as [[s seq issuedAt R c k]|] eqn:Hi; [|done].
    destruct (ready _ _ _); [|done]. injection Hstep as <-.
    destruct (Chains_lookup n (tasks m) Htasks i _ Hi)
      as [(Ht & Hdel & Hins)|(n' & -> & Ht & Hdel & Hins & Hins')].
    + apply (park_TimerFree _ _ _ _ _ n); [apply Ht|done..].
    + assert (n' = 0) as -> by lia.
      apply park_SetsTimer; simpl; [apply Ht|done|done|done| |].
      * destruct (timers (env m)); [done|simpl in Hle; lia].
      * intros Hid. by specialize (Hnone Hid).
  - (* time passes *)
    injection Hstep as <-. by exists n.
Qed.

Lemma run_OneChain w evs : ∀ m m',
  OneChain m → existsb isHostStop evs = false → run w m evs = Some m' → OneChain m'.
Proof.
  induction evs as [|ev evs IH]; intros m m' Hm Hevs Hrun; simpl in *.
  - by injection Hrun as <-.
  - apply orb_false_iff in Hevs as [Hev Hevs].
    destruct (step w m ev) as [m1|] eqn:Hstep; [|done].
    eapply IH; [|done|exact Hrun]. by eapply step_OneChain.
Qed.

Lemma boot_OneChain s t0 : OneChain (boot s t0).
Proof.
  exists 0. simpl. split; [constructor|]. split; [lia|]. split; [|done].
  intros t Ht. by apply elem_of_nil in Ht.
Qed.

(** X17. In every state the event loop reaches from a new scheduler without
    a call of [stop()], at most one check timer is pending, and it is
    the timer [timerId] names: [start()] is idempotent and the timer
    callback sets the next timer only at its end.  So [stop()], called
    in such a state, leaves no timer pending. *)
Theorem one_timer_pending (w : World) (s : Scheduler) (t0 : N) (evs : list Event)
    (m : Machine) :
  existsb isHostStop evs = false →
  run w (boot s t0) evs = Some m →
  length (timers (env m)) ≤ 1 ∧
  (∀ t, t ∈ timers (env m) → timerId (this (env m)) = Some t.1) ∧
  (∀ m', step w m HostStop = Some m' → timers (env m') = []).
Proof.
  intros Hevs Hrun.
  destruct (run_OneChain w evs _ _ (boot_OneChain s t0) Hevs Hrun)
    as (n & _ & Hle & Hcur & _).
  split; [lia|]. split; [exact Hcur|].
  intros m' [= <-]. unfold launch, Scheduler.stop.
  rewrite run_sync_perform. cbn [handle fst snd set_session this].
  destruct (timers (env m)) as [|t ts] eqn:Hts.
  - destruct (timerId (this (env m))) eqn:Hid; simpl; rewrite ?Hid; simpl; rewrite ?Hts;
      done.
  - assert (ts = []) as -> by (destruct ts; [done|simpl in Hle; lia]).
    pose proof (Hcur t (list_elem_of_here _ _)) as Hid.
    rewrite Hid. simpl. rewrite Hid. simpl. rewrite Hts.
    rewrite filter_cons, filter_nil. by case_decide.
Qed.

Lemma one_timer_pending_witness :
  timers (env afterSlowCycle) = [(1%N, 300100%N)] ∧
  timerId (this (env afterSlowCycle)) = Some 1%N.
Proof.
  destruct (one_timer_pending browserDown exampleScheduler 0%N slowCycle afterSlowCycle)
    as (_ & Hcur & _).
  - reflexivity.
  - vm_compute. reflexivity.
  - split; [vm_compute; reflexivity|].
    apply (Hcur (1%N, 300100%N)). vm_compute. apply list_elem_of_here.
Defined.

(** Without the premise the chain may double: [start()] after a
    [stop()] that came while a check was in flight sets a timer, and
    the check in flight, finding [stopped] cleared, sets another. *)
Example restart_doubles_chain :
  (λ m, (timers (env m), timerId (this (env m)), length (tasks m)))
    <$> run browserDown (boot exampleScheduler 0%N) restartDuringCheck
  = Some ([(1%N, 0%N); (2%N, 300000%N)], Some 2%N, 0).
Proof. vm_compute. reflexivity. Qed.

(** ** The outcome and the calls of a cycle *)

Section DeliveryCalls.
Context (w : World) (config : WebhookConfig.t)
        (mutations : list MutationRecord.t) (account : string).

(** Whatever the endpoint answers, the retry loop only POSTs and
    sleeps, beginning with a POST if it has an attempt to make. *)
Lemma retryLoop_delivery attempts : ∀ iterations attempt lastError e,
  let r := run_task w (WebhookClient.retryLoop config mutations account attempts iterations
                         attempt lastError) e in
  ∃ tr, calls r.2 = calls e ++ tr ∧ forallb isDeliveryCall tr = true ∧
        same_state e r.2 ∧
        (0 < iterations → ∃ rest, tr = anyCall (post config mutations account e) :: rest).
Proof.
  induction iterations as [|n IH]; intros attempt lastError e.
  - exists []. simpl. rewrite app_nil_r. repeat split; (done || lia).
  - cbv zeta. rewrite retryLoop_step.
    destruct (requestError _) as [err|].
    + destruct (IH (attempt + 1)%N (Some err)
                  (afterFailure config mutations account attempts attempt e))
        as (tr & Hcalls & Hall & Hsame & _).
      rewrite afterFailure_calls in Hcalls.
      eexists. split; [rewrite Hcalls, <- app_assoc; reflexivity|].
      split; [|split].
      * simpl. destruct (attempt <? attempts)%N; simpl; exact Hall.
      * eapply same_state_trans; [apply afterFailure_same_state|exact Hsame].
      * intros _. eexists. reflexivity.
    + exists [anyCall (post config mutations account e)].
      unfold afterSuccess. simpl. repeat split. intros _. by exists [].
Qed.

Lemma send_delivery e :
  let r := run_task w (WebhookClient.send config mutations account) e in
  ∃ rest, calls r.2 = calls e ++ anyCall (post config mutations account e) :: rest ∧
          forallb isDeliveryCall rest = true ∧ same_state e r.2.
Proof.
  unfold WebhookClient.send. cbv zeta. rewrite run_task_await_async.
  unfold WebhookClient.sendWithRetry.
  pose proof (or_number_pos (WebhookConfig.retryAttempts config) 3) as Hpos.
  destruct (retryLoop_delivery (or_number (WebhookConfig.retryAttempts config) 3)
              (N.to_nat (or_number (WebhookConfig.retryAttempts config) 3)) 1%N None e)
    as (tr & Hcalls & Hall & Hsame & Hfirst).
  destruct Hfirst as [rest ->]; [lia|].
  exists rest. split; [exact Hcalls|]. split; [exact Hall|exact Hsame].
Qed.

End DeliveryCalls.

(** The [try] block of [performCheck], call by call. *)
Lemma run_task_performCheck_try_steps w e :
  let seq := length (calls e) in
  let options := sessionOptions e in
  let credentials := Config.credentials (systemConfig (this e)) in
  let r := run_task w Scheduler.performCheck_try e in
  match respond w _ seq (CreateSession options) with
  | Rejected err => r.1 = Rejected err
  | Resolved s =>
      let page := BrowserSession.page s in
      match respond w _ (seq + 1) (Login s credentials) with
      | Rejected err => r.1 = Rejected err
      | Resolved _ =>
          match respond w _ (seq + 2) (NavigateToMutationPage page) with
          | Rejected err => r.1 = Rejected err
          | Resolved _ =>
              match respond w _ (seq + 3) (Scrape page) with
              | Rejected err => r.1 = Rejected err
              | Resolved raw =>
                  r.1 = Resolved tt ∧
                  ∃ delivery,
                    calls r.2 = calls e ++ [anyCall (CreateSession options);
                                            anyCall (Login s credentials);
                                            anyCall (NavigateToMutationPage page);
                                            anyCall (Scrape page)]
                                ++ delivery
                                ++ [anyCall (PageGoto page SessionManager.BCA_LOGOUT_URL)] ∧
                    forallb isDeliveryCall delivery = true ∧
                    match webhookClient (this e) with
                    | Some client =>
                        if 0 <? length (parseAll w raw) then
                          ∃ rest,
                            delivery
                            = anyCall (Fetch (WebhookConfig.url client)
                                         (WebhookPayload.mk (clock e)
                                            (Credentials.username credentials)
                                            (parseAll w raw))) :: rest
                        else delivery = []
                    | None => delivery = []
                    end
              end
          end
      end
  end.
Proof.
  intros seq options credentials r. subst seq options credentials r.
  destruct (run_task w Scheduler.performCheck_try e) as [o ef] eqn:Hrun.
  unfold Scheduler.performCheck_try in Hrun. unfold sessionOptions.
  rewrite run_task_perform in Hrun. cbn [handle fst snd] in Hrun.
  destruct (BrowserPool.getNextBrowser (browserPool (this e))) as [b pool].
  cbn [fst snd] in Hrun |- *.
  rewrite run_task_perform in Hrun. cbn [handle fst snd this set_this] in Hrun.
  cbn [userAgentRotator with_browserPool] in Hrun.
  destruct (UserAgentRotator.getNextUserAgent b (userAgentRotator (this e))) as [ua agents].
  cbn [fst snd] in Hrun |- *.
  rewrite run_task_perform in Hrun.
  set (px := proxyRotator (this e) ≫= λ r, (ProxyRotator.getNextProxy r).1).
  assert (∃ e3, handle w GetNextProxy
                  (set_this (with_userAgentRotator agents)
                     (set_this (with_browserPool pool) e)) = (px, e3) ∧
                calls e3 = calls e ∧ clock e3 = clock e ∧
                webhookClient (this e3) = webhookClient (this e) ∧
                systemConfig (this e3) = systemConfig (this e))
    as (e3 & He3 & Hc3 & Hk3 & Hw3 & Hy3).
  { subst px. cbn [handle this set_this proxyRotator with_userAgentRotator with_browserPool].
    destruct (proxyRotator (this e)) as [rot|]; cbn [mbind option_bind].
    - destruct (ProxyRotator.getNextProxy rot) as [p rot']. eexists. split; [reflexivity|].
      done.
    - eexists. split; [reflexivity|]. done. }
  rewrite He3 in Hrun. cbn [fst snd] in Hrun. clearbody px. clear He3.
  rewrite run_task_perform in Hrun. cbn [handle fst snd] in Hrun.
  rewrite run_task_await in Hrun. cbn [answer elapse issue isYield] in Hrun.
  cbn [add_log calls] in Hrun. rewrite Hc3 in Hrun.
  destruct (respond w _ (length (calls e)) (CreateSession _)) as [s|err];
    [|by injection Hrun as <- <-].
  rewrite run_task_perform in Hrun. cbn [handle fst snd] in Hrun.
  rewrite run_task_perform in Hrun. cbn [handle fst snd] in Hrun.
  cbn [this set_session add_call add_log] in Hrun. rewrite Hy3 in Hrun.
  rewrite run_task_await in Hrun. cbn [answer elapse issue isYield] in Hrun.
  cbn [calls set_session add_call add_log] in Hrun.
  rewrite Hc3, length_app in Hrun. cbn [length] in Hrun.
  destruct (respond w _ (length (calls e) + 1) (Login _ _)) as [[]|err];
    [|by injection Hrun as <- <-].
  rewrite run_task_await in Hrun. cbn [answer elapse issue isYield] in Hrun.
  cbn [calls set_session add_call add_log] in Hrun.
  rewrite Hc3, !length_app in Hrun. cbn [length] in Hrun.
  rewrite <- Nat.add_assoc in Hrun. cbn [Nat.add] in Hrun.
  destruct (respond w _ (length (calls e) + 2) (NavigateToMutationPage _)) as [[]|err];
    [|by injection Hrun as <- <-].
  rewrite run_task_await in Hrun. cbn [answer elapse issue isYield] in Hrun.
  cbn [calls set_session add_call add_log] in Hrun.
  rewrite Hc3, !length_app in Hrun. cbn [length] in Hrun.
  rewrite <- !Nat.add_assoc in Hrun. cbn [Nat.add] in Hrun.
  destruct (respond w _ (length (calls e) + 3) (Scrape _)) as [raw|err];
    [|by injection Hrun as <- <-].
  rewrite run_task_perform in Hrun. cbn [handle fst snd] in Hrun.
  rewrite run_task_perform in Hrun. cbn [handle fst snd] in Hrun.
  rewrite run_task_perform in Hrun. cbn [handle fst snd] in Hrun.
  cbn [this set_session add_call add_log] in Hrun. rewrite Hy3, Hw3 in Hrun.
  rewrite run_task_bind in Hrun.
  match type of Hrun with context [run_task w _ ?e0] => set (e7 := e0) in Hrun end.
  assert (calls e7 = calls e ++ [anyCall (CreateSession (SessionOptions.mk b ua px true));
                                 anyCall (Login s (Config.credentials (systemConfig (this e))));
                                 anyCall (NavigateToMutationPage (BrowserSession.page s));
                                 anyCall (Scrape (BrowserSession.page s))]) as Hc7.
  { subst e7. cbn [calls set_session add_call add_log]. rewrite Hc3.
    by rewrite <- !app_assoc. }
  assert (clock e7 = clock e) as Hk7 by (subst e7; exact Hk3).
  clearbody e7.
  match type of Hrun with context [run_task w ?p e7] => set (D := p) in Hrun end.
  assert (∃ delivery e8,
            run_task w D e7 = (Resolved tt, e8) ∧ calls e8 = calls e7 ++ delivery ∧
            forallb isDeliveryCall delivery = true ∧
            match webhookClient (this e) with
            | Some client =>
                if 0 <? length (parseAll w raw) then
                  ∃ rest,
                    delivery
                    = anyCall (Fetch (WebhookConfig.url client)
                                 (WebhookPayload.mk (clock e)
                                    (Credentials.username
                                       (Config.credentials (systemConfig (this e))))
                                    (parseAll w raw))) :: rest
                else delivery = []
            | None => delivery = []
            end) as (delivery & e8 & HD & Hc8 & Hall & Hfirst).
  { subst D. destruct (webhookClient (this e)) as [client|];
      [destruct (0 <? length (parseAll w raw))|];
      try (exists [], e7; by rewrite app_nil_r).
    rewrite run_task_try_catch, run_task_await_async.
    destruct (send_delivery w client (parseAll w raw)
                (Credentials.username (Config.credentials (systemConfig (this e)))) e7)
      as (rest & Hcalls & Hrest & _).
    unfold post in Hcalls. rewrite Hk7 in Hcalls.
    destruct (run_task w (WebhookClient.send _ _ _) e7) as [[[]|err] e8];
      cbn [fst snd] in Hcalls.
    - eexists _, e8. split; [reflexivity|]. split; [exact Hcalls|].
      split; [exact Hrest|]. by exists rest.
    - rewrite run_task_perform. cbn [handle fst snd]. rewrite run_task_bind.
      match goal with |- context [run_task w (ErrorHandler.handleError ?err0 ?ctx) e8] =>
        destruct (run_task_handleError w err0 ctx e8) as (Hout & Hcalls' & _);
        destruct (run_task w (ErrorHandler.handleError err0 ctx) e8) as [o' e9]
      end.
      cbn [fst snd] in Hout, Hcalls'. subst o'. cbn [run_task].
      eexists _, e9. split; [reflexivity|]. rewrite Hcalls'. split; [exact Hcalls|].
      split; [exact Hrest|]. by exists rest. }
  rewrite HD in Hrun. clear HD. clearbody D.
  rewrite run_task_await_async in Hrun.
  destruct (run_task_logout w s e8) as (Hout & Hcalls & _).
  rewrite Hrun in Hout, Hcalls. cbn [fst snd] in Hout, Hcalls.
  split; [exact Hout|]. exists delivery. split; [|done].
  by rewrite Hcalls, Hc8, Hc7, <- !app_assoc.
Qed.

(** [performCheck] ends as its [try] block does, after closing the
    session the block has created. *)
Lemma run_task_performCheck_ends w e :
  let r := run_task w Scheduler.performCheck e in
  let r0 := run_task w Scheduler.performCheck_try (set_session None e) in
  r.1 = r0.1 ∧
  calls r.2 = calls r0.2 ++
    match session r0.2 with
    | Some s => [anyCall (PageClose (BrowserSession.page s));
                 anyCall (BrowserClose (BrowserSession.browser s))]
    | None => []
    end.
Proof.
  cbv zeta. unfold Scheduler.performCheck.
  rewrite run_task_perform. cbn [handle fst snd].
  rewrite run_task_try_finally, run_task_try_catch.
  destruct (run_task w Scheduler.performCheck_try (set_session None e)) as [[[]|err] e1];
    cbn [fst snd].
  - destruct (run_task_performCheck_finally w e1) as (Hout & _ & Hcalls).
    destruct (run_task w Scheduler.performCheck_finally e1) as [o2 e2].
    cbn [fst snd] in Hout, Hcalls. by subst o2.
  - destruct (run_task_performCheck_catch w 3%N err e1)
      as (Hout & Hcalls & (Hsession & _) & _).
    destruct (run_task w (Scheduler.performCheck_catch 3 err) e1) as [o2 e2].
    cbn [fst snd] in Hout, Hcalls, Hsession. subst o2.
    destruct (run_task_performCheck_finally w e2) as (Hout & _ & Hcalls2).
    destruct (run_task w Scheduler.performCheck_finally e2) as [o3 e3].
    cbn [fst snd] in Hout, Hcalls2. subst o3. simpl.
    by rewrite Hcalls2, Hcalls, Hsession.
Qed.

Lemma run_task_performCheck_portal w e :
  (run_task w Scheduler.performCheck e).1 = portalOutcome w e.
Proof.
  destruct (run_task_performCheck_ends w e) as [-> _].
  pose proof (run_task_performCheck_try_steps w (set_session None e)) as Hsteps.
  cbv zeta in Hsteps. unfold portalOutcome.
  change (sessionOptions (set_session None e)) with (sessionOptions e) in Hsteps.
  change (calls (set_session None e)) with (calls e) in Hsteps.
  change (this (set_session None e)) with (this e) in Hsteps.
  destruct (respond w _ (length (calls e)) (CreateSession _)) as [s|err]; [|done].
  destruct (respond w _ (length (calls e) + 1) (Login _ _)) as [[]|err]; [|done].
  destruct (respond w _ (length (calls e) + 2) (NavigateToMutationPage _)) as [[]|err];
    [|done].
  destruct (respond w _ (length (calls e) + 3) (Scrape _)) as [raw|err]; [|done].
  apply Hsteps.
Qed.

(** X18. [performCheck] ends with the first failure among its four portal
    steps (creating the session, logging in, opening the mutation page,
    scraping it) and succeeds if there is none, whatever the delivery,
    the logout and the clean-up do.  On an idle scheduler
    [executeCheck] never rejects: it resolves with [{success: true}] if
    the four steps succeed and with [{success: false, error}] carrying
    that first failure otherwise, stamped with the time of the call,
    without a mutation count, and it clears [checkInProgress]. *)
Theorem check_result (w : World) (e : Env) :
  checkInProgress (this e) = false →
  let r := run_task w Scheduler.executeCheck e in
  (run_task w Scheduler.performCheck e).1 = portalOutcome w e ∧
  r.1 = Resolved
          match portalOutcome w e with
          | Resolved _ => CheckResult.mk true (clock e) None None
          | Rejected err => CheckResult.mk false (clock e) None (Some err)
          end ∧
  checkInProgress (this r.2) = false.
Proof.
  intros idle r. subst r. split; [apply run_task_performCheck_portal|].
  destruct (executeCheckWith_completes w Scheduler.performCheck e idle) as [Hflag Hout].
  fold Scheduler.executeCheck in Hflag, Hout.
  split; [|exact Hflag]. rewrite Hout, run_task_performCheck_portal. reflexivity.
Qed.

Lemma check_result_witness :
  (run_task browserDown Scheduler.executeCheck (freshEnv exampleScheduler)).1
  = Resolved (CheckResult.mk false 0 None
                (Some (newError "browserType.launch: executable not found"))).
Proof.
  destruct (check_result browserDown (freshEnv exampleScheduler)) as (_ & Hout & _).
  - reflexivity.
  - exact Hout.
Defined.

(** X19. When the four portal steps succeed, the calls of [performCheck] are
    exactly: createSession, login, the navigation to the mutation page,
    the scrape, then the delivery, then the navigation to the logout
    URL, [page.close()] and [browser.close()].  The delivery consists
    of POSTs and backoff sleeps only; it is empty when no webhook is
    configured or no mutation was parsed, and otherwise begins with a
    POST to the configured URL carrying the parsed mutations, the
    account name and the current time. *)
Theorem cycle_calls (w : World) (e : Env) (s : BrowserSession.t)
    (raw : list RawMutationData.t) :
  let seq := length (calls e) in
  let page := BrowserSession.page s in
  let credentials := Config.credentials (systemConfig (this e)) in
  let mutations := parseAll w raw in
  respond w _ seq (CreateSession (sessionOptions e)) = Resolved s →
  respond w _ (seq + 1) (Login s credentials) = Resolved tt →
  respond w _ (seq + 2) (NavigateToMutationPage page) = Resolved tt →
  respond w _ (seq + 3) (Scrape page) = Resolved raw →
  let r := run_task w Scheduler.performCheck e in
  r.1 = Resolved tt ∧
  ∃ delivery,
    calls r.2 = calls e ++ [anyCall (CreateSession (sessionOptions e));
                            anyCall (Login s credentials);
                            anyCall (NavigateToMutationPage page);
                            anyCall (Scrape page)]
                ++ delivery
                ++ [anyCall (PageGoto page SessionManager.BCA_LOGOUT_URL);
                    anyCall (PageClose page);
                    anyCall (BrowserClose (BrowserSession.browser s))] ∧
    forallb isDeliveryCall delivery = true ∧
    (webhookClient (this e) = None ∨ mutations = [] → delivery = []) ∧
    (∀ client, webhookClient (this e) = Some client → mutations ≠ [] →
       ∃ rest, delivery
               = anyCall (Fetch (WebhookConfig.url client)
                            (WebhookPayload.mk (clock e) (Credentials.username credentials)
                               mutations)) :: rest).
Proof.
  intros seq page credentials mutations Hcreate Hlogin Hnavigate Hscrape r.
  subst seq page credentials mutations r.
  destruct (run_task_performCheck_ends w e) as [Hout Hcalls].
  pose proof (run_task_performCheck_try_steps w (set_session None e)) as Hsteps.
  pose proof (run_task_performCheck_try w (set_session None e)) as Htry.
  cbv zeta in Hsteps, Htry.
  change (sessionOptions (set_session None e)) with (sessionOptions e) in Hsteps, Htry.
  change (calls (set_session None e)) with (calls e) in Hsteps, Htry.
  change (this (set_session None e)) with (this e) in Hsteps.
  change (clock (set_session None e)) with (clock e) in Hsteps.
  rewrite Hcreate in Htry. destruct Htry as (_ & _ & _ & _ & Hsession).
  rewrite Hcreate, Hlogin, Hnavigate, Hscrape in Hsteps.
  destruct Hsteps as (Hout0 & delivery & Hcalls0 & Hall & Hfirst).
  rewrite Hsession, Hcalls0 in Hcalls. rewrite Hout0 in Hout.
  split; [exact Hout|]. exists delivery. split; [|split; [exact Hall|split]].
  - rewrite Hcalls, <- !app_assoc. reflexivity.
  - intros [Hnone|Hempty].
    + by rewrite Hnone in Hfirst.
    + rewrite Hempty in Hfirst. by destruct (webhookClient (this e)).
  - intros client Hclient Hne. rewrite Hclient in Hfirst.
    destruct (parseAll w raw); [done|]. exact Hfirst.
Qed.

Lemma cycle_calls_witness :
  let r := run_task endpointDown Scheduler.performCheck (freshEnv webhookScheduler) in
  r.1 = Resolved tt ∧ length (calls r.2) = 12.
Proof.
  destruct (cycle_calls endpointDown (freshEnv webhookScheduler) exampleSession [exampleRaw])
    as (Hout & delivery & Hcalls & _); try reflexivity.
  split; [exact Hout|]. vm_compute. reflexivity.
Defined.
